(** * highfive: reviewer selection and mention extraction of [highfive/newpr.py]

    A shallow embedding of the decision logic of [HighfiveHandler]
    ([find_reviewer], [choose_reviewer], [get_to_mention], [run_commands],
    [new_pr], [run]) together with the properties of its specification and
    further properties of the code.

    Conventions of the embedding.
    - Python [str] is [string]; texts are taken to be ASCII.
    - A Python [dict] that is only looked up ([groups], [dirs]) is a [gmap];
      a [dict] whose iteration order is observable ([counts], [mentions],
      [commands], the items of the global groups) is an association list in
      insertion order.
    - A Python [list] is a [list] in the same order: [append] adds at the
      right end and [pop()] removes the right end.  Where the code keeps
      two names for one list object ([potential] and an entry of [groups]),
      the embedding says which entry it is.
    - Exceptions are the [Raise] outcomes of a small error monad; [assert]
      statements are executed.
    - [random.choice] gets its draw as an argument.
    - The requests to GitHub succeed; only the commit search may answer
      with an HTTP error, as [is_new_contributor] provides for. *)

From Stdlib Require Import ZArith Lia Ascii String.
From stdpp Require Import base option list sets gmap strings.

Open Scope Z_scope.
Open Scope nat_scope.

(** ** Python string primitives *)

Module Py.

(** [s.startswith(pre)] *)
Definition startswith (s pre : string) : bool := String.prefix pre s.

Fixpoint drop_chars (n : nat) (s : string) : string :=
  match n, s with
  | O, _ => s
  | S _, EmptyString => EmptyString
  | S n', String _ s' => drop_chars n' s'
  end.

(** [s.endswith(suf)] *)
Definition endswith (s suf : string) : bool :=
  (String.length suf <=? String.length s) &&
  String.eqb (drop_chars (String.length s - String.length suf) s) suf.

Fixpoint find_from (i : nat) (s sub : string) : Z :=
  if String.prefix sub s then Z.of_nat i
  else match s with
       | EmptyString => (-1)%Z
       | String _ s' => find_from (S i) s' sub
       end.

(** [s.find(sub)]: the least index of an occurrence, or [-1]. *)
Definition find (s sub : string) : Z := find_from 0 s sub.

(** [s[k:]], with Python's reading of a negative start. *)
Definition slice_from (k : Z) (s : string) : string :=
  if (k <? 0)%Z
  then drop_chars (Z.to_nat (Z.of_nat (String.length s) + k)) s
  else drop_chars (Z.to_nat k) s.

(** [s.split(sep)] for a one-character separator: never the empty list. *)
Fixpoint split (sep : ascii) (s : string) : list string :=
  match s with
  | EmptyString => [EmptyString]
  | String c s' =>
      if Ascii.eqb c sep then EmptyString :: split sep s'
      else match split sep s' with
           | [] => [String c EmptyString]
           | w :: ws => String c w :: ws
           end
  end.

(** [sep.join(l)] *)
Definition join (sep : string) (l : list string) : string :=
  String.concat sep l.

(** Truth value of a string. *)
Definition nonempty (s : string) : bool :=
  match s with EmptyString => false | String _ _ => true end.

(** Truth value of a variable holding [None] or a string. *)
Definition truthy (o : option string) : bool :=
  match o with None => false | Some s => nonempty s end.

(** [x in l] for a list of strings. *)
Definition mem (x : string) (l : list string) : bool :=
  existsb (String.eqb x) l.

(** [l.remove(x)] on a list that contains [x]: drops the first occurrence. *)
Fixpoint remove_first (x : string) (l : list string) : list string :=
  match l with
  | [] => []
  | y :: l' => if String.eqb y x then l' else y :: remove_first x l'
  end.

(** [l.count(x)] *)
Fixpoint count (x : string) (l : list string) : nat :=
  match l with
  | [] => 0
  | y :: l' => (if String.eqb y x then 1 else 0) + count x l'
  end.

(** [l.pop()]: the list without its last element, and that element. *)
Fixpoint pop (l : list string) : option (list string * string) :=
  match l with
  | [] => None
  | x :: l' =>
      match pop l' with
      | None => Some ([], x)
      | Some (r, y) => Some (x :: r, y)
      end
  end.

End Py.

(** ** Insertion-ordered dictionaries *)

Module Dict.

Section dict.
Context {V : Type}.

Fixpoint get (k : string) (d : list (string * V)) : option V :=
  match d with
  | [] => None
  | (k', v) :: d' => if String.eqb k' k then Some v else get k d'
  end.

Definition mem (k : string) (d : list (string * V)) : bool :=
  match get k d with Some _ => true | None => false end.

(** [d[k] = v]: overwrite in place, or append a new key at the end. *)
Fixpoint set (k : string) (v : V) (d : list (string * V))
  : list (string * V) :=
  match d with
  | [] => [(k, v)]
  | (k', v') :: d' =>
      if String.eqb k' k then (k, v) :: d' else (k', v') :: set k v d'
  end.

Definition keys (d : list (string * V)) : list string := map fst d.
End dict.

End Dict.

(** ** Exceptions *)

Inductive exn : Type :=
| AssertionError (msg : string)
| KeyError (key : string)
| IndexError
| HTTPError (code : nat).

(** The outcome of a call: a value, an exception, or a loop cut off by its
    iteration budget (shown below never to happen). *)
Inductive outcome (A : Type) : Type :=
| Ret (a : A)
| Raise (e : exn)
| OutOfFuel.
Arguments Ret {A} a.
Arguments Raise {A} e.
Arguments OutOfFuel {A}.

Definition bind {A B} (m : outcome A) (k : A -> outcome B) : outcome B :=
  match m with
  | Ret a => k a
  | Raise e => Raise e
  | OutOfFuel => OutOfFuel
  end.

Notation "'let*' x ':=' m 'in' k" := (bind m (fun x => k))
  (at level 10, x name, m at level 100, k at level 200).

(** [for x in l: st = body st x], stopping at the first exception. *)
Fixpoint for_each {A S} (body : S -> A -> outcome S) (l : list A) (st : S)
  : outcome S :=
  match l with
  | [] => Ret st
  | x :: l' => let* st' := body st x in for_each body l' st'
  end.

(** The elements of [l] that are not in [seen], each at its first
    occurrence only. *)
Fixpoint first_occurrences (seen l : list string) : list string :=
  match l with
  | [] => []
  | x :: l' =>
      if Py.mem x seen then first_occurrences seen l'
      else x :: first_occurrences (seen ++ [x]) l'
  end.

(** ** The diff scan of [choose_reviewer] *)

Module Scan.

(** The text after the first [" b/"] of a header line; when the marker is
    absent [find] gives [-1] and the slice starts at index 2. *)
Definition header_path (line : string) : string :=
  Py.slice_from (Py.find line " b/" + 3)%Z line.

Definition is_header (line : string) : bool :=
  Py.startswith line "diff --git ".

(** An added line: leading [+], but not the [+++] file marker. *)
Definition is_added (line : string) : bool :=
  negb (Py.startswith line "+++") && Py.startswith line "+".

(** The directory of a header after the two folding rules. *)
Definition fold_dir (parts : list string) : option string :=
  let cur_dir := Py.join "/" (take 2 parts) in
  let cur_dir :=
    if Py.startswith cur_dir "src/librustc" then "src/librustc"
    else cur_dir in
  if String.eqb cur_dir "src/test" then None else Some cur_dir.

Record state : Type := mk_state {
  counts : list (string * nat);
  cur_dir : option string
}.

Definition init : state := mk_state [] None.

(** One iteration of [for line in diff.split('\n')]. *)
Definition line_step (st : state) (line : string) : outcome state :=
  if is_header line then
    let parts := Py.split "/"%char (header_path line) in
    match parts with
    | [] => Ret (mk_state (counts st) None)
    | _ :: _ =>
        let cur := fold_dir parts in
        match cur with
        | Some d =>
            if Py.nonempty d && negb (Dict.mem d (counts st))
            then Ret (mk_state (Dict.set d 0 (counts st)) cur)
            else Ret (mk_state (counts st) cur)
        | None => Ret (mk_state (counts st) cur)
        end
    end
  else if Py.truthy (cur_dir st) && is_added line then
    match cur_dir st with
    | Some d =>
        match Dict.get d (counts st) with
        | Some n => Ret (mk_state (Dict.set d (n + 1) (counts st)) (cur_dir st))
        | None => Raise (KeyError d)
        end
    | None => Ret st
    end
  else Ret st.

Definition lines (diff : string) : list string := Py.split "010"%char diff.

Definition scan (diff : string) : outcome state :=
  for_each line_step (lines diff) init.

(** [for directory, changes in counts.items(): if changes > most_changes]. *)
Definition pick_step (acc : nat * option string) (item : string * nat)
  : nat * option string :=
  if acc.1 <? item.2 then (item.2, Some item.1) else acc.

Definition largest (cs : list (string * nat)) : option string :=
  (fold_left pick_step cs (0, None)).2.

(** The value of [most_changed] once the [if dirs:] block is over. *)
Definition most_changed (dirs : gmap string (list string)) (diff : string)
  : outcome (option string) :=
  if decide (dirs = ∅) then Ret None
  else let* st := scan diff in Ret (largest (counts st)).

(** *** Vocabulary for the properties of the scan *)

(** A current directory that counts lines has its entry in [counts]. *)
Definition tracked (st : state) : Prop :=
  match cur_dir st with
  | Some d => if Py.nonempty d then Dict.mem d (counts st) = true else True
  | None => True
  end.

(** The directory of the section that a header starts. *)
Definition header_dir (line : string) : option string :=
  fold_dir (Py.split "/"%char (header_path line)).

(** The added lines of [ls] that belong to the directory [d], where [cur]
    is the directory of the section in which [ls] starts: an added line
    belongs to the directory of the last header before it. *)
Fixpoint added_lines (d : string) (cur : option string) (ls : list string)
  : nat :=
  match ls with
  | [] => 0
  | l :: ls' =>
      if is_header l then added_lines d (header_dir l) ls'
      else (if is_added l && Py.truthy cur && bool_decide (cur = Some d)
            then 1 else 0)
           + added_lines d cur ls'
  end.

(** The directory that a line opens for counting, if it does. *)
Definition opened (line : string) : option string :=
  if is_header line then
    match fold_dir (Py.split "/"%char (header_path line)) with
    | Some d => if Py.nonempty d then Some d else None
    | None => None
    end
  else None.

(** The directories of the headers of a diff, in the order of the scan. *)
Definition header_dirs (diff : string) : list string :=
  omap opened (lines diff).

(** [d] has a positive count that is above every earlier count and not
    below any later one: the first entry with the highest count. *)
Definition first_maximum (cs : list (string * nat)) (d : string) : Prop :=
  ∃ before n after,
    cs = before ++ (d, n) :: after ∧ 0 < n ∧
    Forall (fun kv : string * nat => kv.2 < n) before ∧
    Forall (fun kv : string * nat => kv.2 ≤ n) after.

End Scan.

(** ** Configuration *)

(** A mention rule of the [mentions] table. *)
Record mention : Type := mk_mention {
  rule_message : option string;
  rule_command : option string;
  rule_reviewers : list string
}.

(** The repository configuration ([self.repo_config]).  An absent [dirs] or
    [mentions] key reads as the empty table, as [.get(key, {})] does;
    [groups] is a key that every configuration has. *)
Record repo_config : Type := mk_config {
  cfg_dirs : gmap string (list string);
  cfg_groups : gmap string (list string);
  cfg_mentions : list (string * mention);
  cfg_contributing : option string;
  cfg_expected_branch : option string;
  cfg_new_pr_labels : list string
}.

(** ** [choose_reviewer] *)

Module Reviewer.

Definition overlap_msg (name : string) : string :=
  "group " +:+ name +:+ " overlaps with _global.json".

Definition cycle_msg (p : string) : string :=
  "group " +:+ p +:+ " refers to itself".

(** One iteration of [for name, people in global_['groups'].items()]. *)
Definition merge_step (gs : gmap string (list string))
    (item : string * list string) : outcome (gmap string (list string)) :=
  match gs !! item.1 with
  | Some _ => Raise (AssertionError (overlap_msg item.1))
  | None => Ret (<[item.1 := item.2]> gs)
  end.

(** The repository groups with the global groups filled in. *)
Definition merge_groups (repo_groups : gmap string (list string))
    (global_groups : list (string * list string))
  : outcome (gmap string (list string)) :=
  for_each merge_step global_groups repo_groups.

(** The candidate pool before expansion.  [potential] is not a copy: it is
    the list object stored in [groups] under the returned key (["all"],
    extended in place, or ["core"]), so the result is that key together
    with the current content of the object. *)
Definition pool (gs dirs : gmap string (list string))
    (most_changed : option string) : outcome (string * list string) :=
  match gs !! "all" with
  | None => Raise (KeyError "all")
  | Some all =>
      let potential :=
        match most_changed with
        | Some d =>
            if Py.nonempty d then
              match dirs !! d with
              | Some extra => all ++ extra
              | None => all
              end
            else all
        | None => all
        end in
      match potential with
      | [] =>
          match gs !! "core" with
          | None => Raise (KeyError "core")
          | Some core => Ret ("core", core)
          end
      | _ :: _ => Ret ("all", potential)
      end
  end.

(** The variables of the [while] loop. *)
Record state : Type := mk_state {
  potential : list string;
  seen : gset string;
  reviewers : list string
}.

(** The sum of [f] over the member lists of the groups that [keep] holds
    for. *)
Definition weight (f : list string -> nat) (keep : string -> bool)
    (l : list (string * list string)) : nat :=
  sum_list (map (fun kv : string * list string => f kv.2)
              (filter (fun kv : string * list string => keep kv.1 = true) l)).

Section expand.
Variable gs : gmap string (list string).
(** The key of [gs] whose list object is the work list. *)
Variable key : string.

(** [groups[p]] read while the work list holds [potential]. *)
Definition members (potential : list string) (p : string) : list string :=
  if String.eqb p key then potential else default [] (gs !! p).

(** One iteration of [while potential:]; [Ret None] when the list is
    empty and the loop is over. *)
Definition step (st : state) : outcome (option state) :=
  match Py.pop (potential st) with
  | None => Ret None
  | Some (rest, p) =>
      if Py.startswith p "@" then
        Ret (Some (mk_state rest (seen st)
                     (reviewers st ++ [Py.slice_from 1 p])))
      else
        match gs !! p with
        | Some _ =>
            if decide (p ∈ seen st)
            then Raise (AssertionError (cycle_msg p))
            else Ret (Some (mk_state (rest ++ members rest p)
                              ({[p]} ∪ seen st) (reviewers st)))
        | None => Ret (Some (mk_state rest (seen st) (reviewers st)))
        end
  end.

(** The loop goes from [st] to [st'] in one iteration. *)
Definition next (st st' : state) : Prop := step st = Ret (Some st').

(** The loop, cut off after [fuel] iterations. *)
Fixpoint expand (fuel : nat) (st : state) : outcome (list string) :=
  match step st with
  | Ret None => Ret (reviewers st)
  | Ret (Some st') =>
      match fuel with
      | O => OutOfFuel
      | S fuel' => expand fuel' st'
      end
  | Raise e => Raise e
  | OutOfFuel => OutOfFuel
  end.

(** A group whose list can still be pushed on the work list: not seen, and
    not the group of the work list itself. *)
Definition unexpanded (seen : gset string) (p : string) : bool :=
  bool_decide (p ∉ seen) && negb (String.eqb p key).

(** Tokens of the groups that can still be expanded. *)
Definition pending (seen : gset string) : nat :=
  weight length (unexpanded seen) (map_to_list gs).

(** An iteration budget that the loop never exhausts. *)
Definition budget (st : state) : nat :=
  (if decide (key ∈ seen st) then 1 else 2)
  * (length (potential st) + pending (seen st)).

(** The loop variables on entry: [reviewers = []], [seen = {"all"}]. *)
Definition start (potential : list string) : state :=
  mk_state potential {["all"]} [].

Definition expand_aliases (potential : list string) : outcome (list string) :=
  expand (budget (start potential)) (start potential).
End expand.

(** [random.choice(l)] for the draw [rnd]. *)
Definition choice (rnd : nat) (l : list string) : option string :=
  l !! (rnd mod length l).

(** [choose_reviewer(repo, owner, diff, exclude)]; [repo] and [owner] are
    not used by the body.  [rnd] is the value drawn by [random]. *)
Definition choose_reviewer (cfg : repo_config)
    (global_groups : list (string * list string))
    (diff exclude : string) (rnd : nat) : outcome (option string) :=
  let* gs := merge_groups (cfg_groups cfg) global_groups in
  let* most_changed := Scan.most_changed (cfg_dirs cfg) diff in
  let* kp := pool gs (cfg_dirs cfg) most_changed in
  let* expanded := expand_aliases gs kp.1 kp.2 in
  let remaining :=
    if Py.mem exclude expanded then Py.remove_first exclude expanded
    else expanded in
  match remaining with
  | [] => Ret None
  | _ :: _ => Ret (choice rnd remaining)
  end.

End Reviewer.

(** ** [get_to_mention] *)

Module Mention.

Record state : Type := mk_state {
  cur_dir : option string;
  to_mention : list string
}.

Definition init : state := mk_state None [].

(** One iteration of [for entry in mentions] for the path [full_dir]. *)
Definition entry_step (full_dir : string) (acc : list string)
    (entry : string) : list string :=
  if Py.startswith full_dir entry && negb (Py.mem entry acc)
  then acc ++ [entry]
  else if Py.endswith entry ".rs" && Py.endswith full_dir entry
          && negb (Py.mem entry acc)
  then acc ++ [entry]
  else acc.

(** One iteration of [for line in diff.split('\n')]. *)
Definition line_step (keys : list string) (st : state) (line : string)
  : state :=
  if Scan.is_header line then
    let parts := Py.split "/"%char (Scan.header_path line) in
    match parts with
    | [] => mk_state None (to_mention st)
    | _ :: _ =>
        let cur := Scan.fold_dir parts in
        let full_dir := Py.join "/" parts in
        if Py.nonempty full_dir
        then mk_state cur (fold_left (entry_step full_dir) keys (to_mention st))
        else mk_state cur (to_mention st)
    end
  else st.

(** [mention_list.append(mentions[mention])] *)
Definition collect_step (ms : list (string * mention))
    (acc : list mention) (key : string) : outcome (list mention) :=
  match Dict.get key ms with
  | Some rule => Ret (acc ++ [rule])
  | None => Raise (KeyError key)
  end.

(** The keys recorded by the scan; nothing is scanned when [dirs] is empty. *)
Definition matched_keys (cfg : repo_config) (diff : string) : list string :=
  if decide (cfg_dirs cfg = ∅) then []
  else to_mention
         (fold_left (line_step (Dict.keys (cfg_mentions cfg))) (Scan.lines diff) init).

Definition get_to_mention (cfg : repo_config) (diff : string)
  : outcome (list mention) :=
  for_each (collect_step (cfg_mentions cfg)) (matched_keys cfg diff) [].

(** *** The extraction as the specification words it *)

(** A pattern matches a path by prefix, or by suffix when it ends in [.rs]. *)
Definition matches (path entry : string) : bool :=
  Py.startswith path entry
  || (Py.endswith entry ".rs" && Py.endswith path entry).

(** The non-empty file paths of the header lines, in order. *)
Definition header_paths (diff : string) : list string :=
  filter (fun p => Py.nonempty p = true)
    (map Scan.header_path
       (filter (fun l => Scan.is_header l = true) (Scan.lines diff))).

(** Every match, path by path and, for one path, pattern by pattern. *)
Definition encounters (keys : list string) (diff : string) : list string :=
  flat_map (fun path => filter (fun e => matches path e = true) keys)
    (header_paths diff).

(** The matched pattern keys, each once, in the order of its first match. *)
Definition matched (keys : list string) (diff : string) : list string :=
  first_occurrences [] (encounters keys diff).

End Mention.

(** ** [run_commands] *)

Module Commands.

Definition nl : string := String "010" EmptyString.
Definition blank : string := nl +:+ nl.

(** The reviewers of a rule without [user], comma separated. *)
Definition cc_list (user : string) (m : mention) : string :=
  Py.join "," (filter (fun x => negb (String.eqb x user) = true) (rule_reviewers m)).

Definition cc_line (user : string) (m : mention) : string :=
  "cc " +:+ cc_list user m.

(** One iteration of [for mention in to_mention]. *)
Definition mention_step (user sha : string)
    (st : string * list (string * string)) (m : mention)
  : string * list (string * string) :=
  let message := if Py.nonempty st.1 then st.1 +:+ blank else st.1 in
  let msg := match rule_message m with
             | Some t => t +:+ blank
             | None => ""
             end in
  let message := message +:+ (msg +:+ cc_line user m) in
  let commands := match rule_command m with
                  | Some cmd => Dict.set cmd sha st.2
                  | None => st.2
                  end in
  (message, commands).

(** One iteration of [for cmd in commands]. *)
Definition trailer_step (message : string) (item : string * string) : string :=
  let message := if Py.nonempty message then message +:+ blank else message in
  message +:+ (item.1 +:+ " " +:+ item.2).

(** [run_commands(to_mention, owner, repo, issue, user)]: the body of the
    comment that is posted, if one is.  [sha] is the head commit. *)
Definition run_commands (to_mention : list mention) (user sha : string)
  : option string :=
  match to_mention with
  | [] => None
  | _ :: _ =>
      let st := fold_left (mention_step user sha) to_mention ("", []) in
      let message := fold_left trailer_step st.2 st.1 in
      if Py.nonempty message then Some message else None
  end.

(** *** The comment as the specification words it *)

(** [sub] occurs in [s]. *)
Definition contains (sub s : string) : Prop :=
  ∃ pre post, s = pre +:+ sub +:+ post.

(** The part for one rule: its free-text message, if any, then its cc line. *)
Definition block (user : string) (m : mention) : string :=
  match rule_message m with
  | Some t => t +:+ blank
  | None => ""
  end +:+ cc_line user m.

(** The commands of the rules, each once, with the head commit. *)
Definition commands_of (sha : string) (to_mention : list mention)
  : list (string * string) :=
  fold_left (fun cmds m => match rule_command m with
                           | Some cmd => Dict.set cmd sha cmds
                           | None => cmds
                           end) to_mention [].

Definition trailer (item : string * string) : string :=
  item.1 +:+ " " +:+ item.2.

(** One comment: the parts of the rules, then the trailers, separated by
    blank lines. *)
Definition aggregate (user sha : string) (to_mention : list mention) : string :=
  Py.join blank (map (block user) to_mention
                 ++ map trailer (commands_of sha to_mention)).

End Commands.

(** ** [find_reviewer] and [reviewer_re] *)

Module Regex.

Definition in_range (lo hi : nat) (c : ascii) : bool :=
  (lo <=? nat_of_ascii c) && (nat_of_ascii c <=? hi).

Definition is_alnum (c : ascii) : bool :=
  in_range 97 122 c || in_range 65 90 c || in_range 48 57 c.

(** [\w] *)
Definition is_word (c : ascii) : bool := is_alnum c || Ascii.eqb c "_".

(** [[:\- ]] *)
Definition is_sep (c : ascii) : bool :=
  Ascii.eqb c ":" || Ascii.eqb c "-" || Ascii.eqb c " ".

(** [[a-zA-Z0-9\-]] *)
Definition is_name (c : ascii) : bool := is_alnum c || Ascii.eqb c "-".

Definition word_of (o : option ascii) : bool :=
  match o with Some c => is_word c | None => false end.

(** [\b] between the character [prev] and the character [next]. *)
Definition boundary (prev next : option ascii) : bool :=
  xorb (word_of prev) (word_of next).

(** [[:\- ]*], greedy. *)
Fixpoint skip_seps (s : string) : string :=
  match s with
  | String c s' => if is_sep c then skip_seps s' else s
  | EmptyString => EmptyString
  end.

(** [[a-zA-Z0-9\-]+], greedy: the longest run of name characters. *)
Fixpoint take_name (s : string) : string :=
  match s with
  | String c s' => if is_name c then String c (take_name s') else EmptyString
  | EmptyString => EmptyString
  end.

(** A match of [reviewer_re] that starts at the head of [s], where [prev]
    is the character before it; the result is group 1.  The separators
    exclude [@] and the name is the last item, so the greedy choices are
    the only ones that can succeed. *)
Definition match_here (prev : option ascii) (s : string) : option string :=
  match s with
  | String c (String q rest) =>
      if boundary prev (Some c)
         && (Ascii.eqb c "r" || Ascii.eqb c "R") && Ascii.eqb q "?"
      then match skip_seps rest with
           | String a rest' =>
               if Ascii.eqb a "@" && Py.nonempty (take_name rest')
               then Some (take_name rest')
               else None
           | EmptyString => None
           end
      else None
  | _ => None
  end.

(** [reviewer_re.search]: the leftmost match. *)
Fixpoint search_from (prev : option ascii) (s : string) : option string :=
  match match_here prev s with
  | Some name => Some name
  | None =>
      match s with
      | EmptyString => None
      | String c s' => search_from (Some c) s'
      end
  end.

Definition search (s : string) : option string := search_from None s.

(** *** The pattern as the specification words it *)

Fixpoint all_chars (P : ascii -> bool) (s : string) : bool :=
  match s with
  | EmptyString => true
  | String c s' => P c && all_chars P s'
  end.

Definition head (s : string) : option ascii :=
  match s with
  | EmptyString => None
  | String c _ => Some c
  end.

(** The last character of [s], or [prev] when [s] is empty. *)
Fixpoint last_char (prev : option ascii) (s : string) : option ascii :=
  match s with
  | EmptyString => prev
  | String c s' => last_char (Some c) s'
  end.

(** [s] begins with a reviewer mention of [name]: [r] or [R], [?], any
    separators, [@], and [name] as the whole run of name characters. *)
Definition mention_at (name s : string) : Prop :=
  ∃ c seps rest,
    s = String c (String "?" (seps +:+ String "@" (name +:+ rest))) ∧
    (c = "r"%char ∨ c = "R"%char) ∧
    all_chars is_sep seps = true ∧
    Py.nonempty name = true ∧
    all_chars is_name name = true ∧
    match head rest with
    | Some d => is_name d = false
    | None => True
    end.



End Regex.

Definition find_reviewer (msg : option string) : option string :=
  match msg with
  | Some m => Regex.search m
  | None => None
  end.

(** ** [new_pr] *)

(** The fields of the webhook payload that [new_pr] reads; owner, repository
    and issue number only select the URLs of the requests. *)
Record payload : Type := mk_payload {
  pr_author : string;
  pr_body : option string;
  pr_assignees : list string;
  pr_head_sha : string;
  pr_base_label : string;
  repo_fork : bool
}.

(** The handler: payload, integration user, repository configuration, and
    the [groups] of [_global.json] in file order. *)
Record handler : Type := mk_handler {
  h_payload : payload;
  integration_user : string;
  repo_config_of : repo_config;
  global_groups_of : list (string * list string)
}.

(** The answer of the commit search. *)
Inductive search_reply : Type :=
| Found (total_count : nat)
| Failed (code : nat).

(** What the outside gives during one event. *)
Record world : Type := mk_world {
  w_diff : string;
  w_search : search_reply;
  w_rnd : nat
}.

(** The calls of [new_pr], by call site: the call of [choose_reviewer]; the
    [PATCH] of [set_assignee]; and the comments posted by [run_commands],
    with [welcome_msg], with [review_msg] and by [post_warnings]; the
    [POST] of [add_labels]. *)
Inductive event : Type :=
| Call_choose_reviewer
| Set_assignee (assignee : option string)
| Post_mentions (body : string)
| Post_welcome (body : string)
| Post_review (body : string)
| Post_warnings (body : string)
| Add_labels (labels : list string).

(** A computation with its calls so far. *)
Definition traced (A : Type) : Type := (list event * outcome A)%type.

Definition tret {A} (a : A) : traced A := ([], Ret a).
Definition emit (e : event) : traced unit := ([e], Ret tt).
Definition lift {A} (o : outcome A) : traced A := ([], o).

Definition tbind {A B} (m : traced A) (k : A -> traced B) : traced B :=
  match m.2 with
  | Ret a => (m.1 ++ (k a).1, (k a).2)
  | Raise e => (m.1, Raise e)
  | OutOfFuel => (m.1, OutOfFuel)
  end.

Notation "'let!' x ':=' m 'in' k" := (tbind m (fun x => k))
  (at level 10, x name, m at level 100, k at level 200).

Module Workflow.

Definition welcome_with_reviewer (r : string) : string :=
  "@" +:+ r +:+ " (or someone else)".

Definition welcome_without_reviewer : string :=
  "@nrc (NB. this repo may be misconfigured)".

Definition raw_welcome (text link : string) : string :=
  "Thanks for the pull request, and welcome! The Rust team is excited to review your changes, and you should hear from "
  +:+ text +:+ " soon.

If any changes to this PR are deemed necessary, please add them as extra commits. This ensures that the reviewer can see what has changed since they last reviewed the code. Due to the way GitHub handles out-of-date commits, this should also make it reasonably obvious what issues have or haven't been addressed. Large or tricky changes may require several passes of review and changes.

Please see [the contribution instructions]("
  +:+ link +:+ ") for more information.
".

Definition welcome_msg (cfg : repo_config) (reviewer : option string) : string :=
  let text := match reviewer with
              | None => welcome_without_reviewer
              | Some r => welcome_with_reviewer r
              end in
  let link := if Py.truthy (cfg_contributing cfg)
              then default "" (cfg_contributing cfg)
              else "https://github.com/rust-lang/rust/blob/master/CONTRIBUTING.md" in
  raw_welcome text link.

Definition review_with_reviewer (r : string) : string :=
  "r? @" +:+ r +:+ "

(rust_highfive has picked a reviewer for you, use r? to override)".

Definition review_without_reviewer (submitter : string) : string :=
  "@" +:+ submitter +:+ ": no appropriate reviewer found, use r? to override".

Definition review_msg (reviewer : option string) (submitter : string) : string :=
  match reviewer with
  | None => review_without_reviewer submitter
  | Some r => review_with_reviewer r
  end.

Definition is_new_contributor (p : payload) (reply : search_reply)
  : outcome bool :=
  if repo_fork p then Ret false
  else match reply with
       | Found total_count => Ret (total_count =? 0)
       | Failed code => if code =? 422 then Ret true else Raise (HTTPError code)
       end.

(** [(expected, actual)] when they differ, else [False]. *)
Definition unexpected_branch (cfg : repo_config) (p : payload)
  : outcome (option (string * string)) :=
  let expected_target := default "master" (cfg_expected_branch cfg) in
  match Py.split ":"%char (pr_base_label p) with
  | _ :: actual_target :: _ =>
      Ret (if String.eqb expected_target actual_target then None
           else Some (expected_target, actual_target))
  | _ => Raise IndexError
  end.

(** [\s] on ASCII text. *)
Definition is_space (c : ascii) : bool :=
  let n := nat_of_ascii c in
  ((9 <=? n) && (n <=? 13)) || ((28 <=? n) && (n <=? 32)).

Definition subproject_here (s : string) : bool :=
  Py.startswith s "+Subproject" &&
  match Py.drop_chars 11 s with
  | String c rest =>
      is_space c && Py.startswith rest "commit" &&
      match Py.drop_chars 6 rest with
      | String c' _ => is_space c'
      | EmptyString => false
      end
  | EmptyString => false
  end.

(** [submodule_re.match(diff)]: the marker occurs somewhere in the diff. *)
Fixpoint modifies_submodule (diff : string) : bool :=
  subproject_here diff ||
  match diff with
  | String _ s' => modifies_submodule s'
  | EmptyString => false
  end.

Definition surprise_branch_warning (s : string * string) : string :=
  "Pull requests are usually filed against the " +:+ s.1
  +:+ " branch for this repo, but this one is against " +:+ s.2
  +:+ ". Please double check that you specified the right target!".

Definition submodule_warning_msg : string :=
  "These commits modify **submodules**.".

Definition warning_summary (body : string) : string :=
  ":warning: **Warning** :warning:" +:+ Commands.blank +:+ body.

Definition post_warnings (cfg : repo_config) (p : payload) (diff : string)
  : traced unit :=
  let! surprise := lift (unexpected_branch cfg p) in
  let warnings := match surprise with
                  | Some s => [surprise_branch_warning s]
                  | None => []
                  end in
  let warnings := if modifies_submodule diff
                  then warnings ++ [submodule_warning_msg]
                  else warnings in
  match warnings with
  | [] => tret tt
  | _ :: _ =>
      emit (Post_warnings
              (warning_summary
                 (Py.join Commands.nl (map (fun x => "* " +:+ x) warnings))))
  end.

(** [set_assignee(assignee, owner, repo, issue, user, author, to_mention)] *)
Definition set_assignee (assignee : option string) (user sha : string)
    (to_mention : list mention) : traced unit :=
  let! _ := emit (Set_assignee assignee) in
  match Commands.run_commands to_mention user sha with
  | Some body => emit (Post_mentions body)
  | None => tret tt
  end.

Definition new_pr (h : handler) (w : world) : traced unit :=
  let p := h_payload h in
  let cfg := repo_config_of h in
  let author := pr_author p in
  let diff := w_diff w in
  let! _ :=
    match pr_assignees p with
    | [] =>
        let msg := pr_body p in
        let reviewer := find_reviewer msg in
        let! chosen :=
          if negb (Py.truthy reviewer) then
            let! _ := emit Call_choose_reviewer in
            let! r := lift (Reviewer.choose_reviewer cfg (global_groups_of h)
                              diff author (w_rnd w)) in
            tret (r, true)
          else tret (reviewer, false) in
        let reviewer := chosen.1 in
        let post_msg := chosen.2 in
        let! to_mention := lift (Mention.get_to_mention cfg diff) in
        let! _ := set_assignee reviewer (integration_user h)
                    (pr_head_sha p) to_mention in
        let! is_new := lift (is_new_contributor p (w_search w)) in
        if is_new then emit (Post_welcome (welcome_msg cfg reviewer))
        else if post_msg then emit (Post_review (review_msg reviewer author))
        else tret tt
    | _ :: _ => tret tt
    end in
  let! _ := post_warnings cfg p diff in
  match cfg_new_pr_labels cfg with
  | [] => tret tt
  | _ :: _ => emit (Add_labels (cfg_new_pr_labels cfg))
  end.

End Workflow.

(** ** [run] *)

(** [run(event)]: the text sent back for a webhook event.  [action] is
    the [action] field of the payload, which is read for a [pull_request] event
    only. *)
Definition run (h : handler) (action event : string) (w : world)
  : traced string :=
  if String.eqb event "ping"
  then tret "Ping received! The webhook is configured correctly!
"
  else if String.eqb event "pull_request" && String.eqb action "opened"
  then let! _ := Workflow.new_pr h w in tret "OK
"
  else tret "Unsupported webhook event.
".

(** ** Vocabulary of the properties *)

Module Groups.

Section graph.
Variable gs : gmap string (list string).

(** A token that the loop looks up as a group: a key of the table that
    does not start with [@]. *)
Definition is_group (p : string) : Prop :=
  Py.startswith p "@" = false ∧ is_Some (gs !! p).

(** The group [g] lists the group [h] among its members. *)
Definition refers (g h : string) : Prop :=
  is_group g ∧ is_group h ∧ ∃ v, gs !! g = Some v ∧ h ∈ v.

(** [g] is named in the pool or by a chain of groups from it. *)
Definition reachable (pool : list string) (g : string) : Prop :=
  ∃ t, t ∈ pool ∧ is_group t ∧ rtc refers t g.

(** The alias chain of [g] comes back to [g]. *)
Definition cyclic (g : string) : Prop := tc refers g g.

(** The same three notions when the references made by the group [key] are
    left aside: [key] is the group whose list is the pool. *)
Definition refers_past (key g h : string) : Prop := g ≠ key ∧ refers g h.

Definition reachable_past (key : string) (pool : list string) (g : string)
  : Prop :=
  ∃ t, t ∈ pool ∧ is_group t ∧ rtc (refers_past key) t g.

Definition cyclic_past (key g : string) : Prop := tc (refers_past key) g g.

(** An alias token of the pool or of some group. *)
Definition token (pool : list string) (p : string) : Prop :=
  p ∈ pool ∨ ∃ g v, gs !! g = Some v ∧ p ∈ v.

Definition is_group_b (p : string) : bool :=
  negb (Py.startswith p "@") && bool_decide (is_Some (gs !! p)).

(** Every group named in [l] belongs to [live]. *)
Definition names_within (live : gset string) (l : list string) : bool :=
  forallb (fun t => negb (is_group_b t) || bool_decide (t ∈ live)) l.

(** [live] holds the groups named in the pool and, with a group, the groups
    named in its list: it holds every group that the pool can reach. *)
Definition closed (live : gset string) (pool : list string) : bool :=
  names_within live pool
  && forallb (fun kv : string * list string =>
                negb (bool_decide (kv.1 ∈ live)) || names_within live kv.2)
       (map_to_list gs).

(** The groups of [live] whose lists are still to come. *)
Definition counted (key : string) (live seen : gset string) (k : string)
  : bool :=
  bool_decide (k ∈ live) && Reviewer.unexpanded key seen k.

(** How often the token [t] occurs in the pool and in the lists of the
    groups of [live] that are neither in [seen] nor stored under [key]. *)
Definition references (key : string) (live seen : gset string)
    (pool : list string) (t : string) : nat :=
  Py.count t pool
  + Reviewer.weight (Py.count t) (counted key live seen) (map_to_list gs).

(** Among the groups of [live], which hold all that the pool can reach, no
    group is named twice, and neither a seen group nor the group of the
    work list is named at all: the references from the pool form a
    forest. *)
Definition forest (key : string) (live seen : gset string)
    (pool : list string) : bool :=
  closed live pool
  && forallb (fun kv : string * list string =>
                negb (is_group_b kv.1) || negb (bool_decide (kv.1 ∈ live))
                || (references key live seen pool kv.1
                    <=? (if decide (kv.1 ∈ seen ∨ kv.1 = key) then 0 else 1)))
       (map_to_list gs).

(** The invariant that the loop keeps on a forest. *)
Definition forest_inv (key : string) (live : gset string)
    (st : Reviewer.state) : Prop :=
  (∀ t, t ∈ Reviewer.potential st → is_group t → t ∈ live) ∧
  (∀ g v t, g ∈ live → gs !! g = Some v → t ∈ v → is_group t → t ∈ live) ∧
  (∀ g, is_group g → g ∈ live →
     references key live (Reviewer.seen st) (Reviewer.potential st) g ≤ 1 ∧
     (g ∈ Reviewer.seen st ∨ g = key →
      references key live (Reviewer.seen st) (Reviewer.potential st) g = 0)).

(** A literal username: an [@]-token of the configuration without its
    prefix. *)
Definition literal_user (pool : list string) (r : string) : Prop :=
  ∃ p, token pool p ∧ Py.startswith p "@" = true ∧ r = Py.slice_from 1 p.
End graph.

End Groups.

(** * Properties *)

(** ** Lists popped from the right *)

Lemma pop_None (l : list string) : Py.pop l = None ↔ l = [].
Proof.
  destruct l as [|x l]; simpl; [done|].
  destruct (Py.pop l) as [[r y]|]; split; intros; discriminate.
Qed.

Lemma pop_snoc (r : list string) (p : string) : Py.pop (r ++ [p]) = Some (r, p).
Proof.
  induction r as [|x r IH]; simpl; [done|]. by rewrite IH.
Qed.

Lemma pop_Some (l r : list string) (p : string) :
  Py.pop l = Some (r, p) ↔ l = r ++ [p].
Proof.
  split; [|intros ->; apply pop_snoc].
  revert r p. induction l as [|x l IH]; intros r p; simpl; [discriminate|].
  destruct (Py.pop l) as [[r' y]|] eqn:E.
  - intros [= <- <-]. by rewrite (IH r' y).
  - apply pop_None in E. subst l. by intros [= <- <-].
Qed.

(** ** Strings *)

Lemma app_cons_s c (s t : string) : String c s +:+ t = String c (s +:+ t).
Proof. reflexivity. Qed.

Lemma app_nil_l_s (s : string) : "" +:+ s = s.
Proof. reflexivity. Qed.

Lemma app_nil_r_s (s : string) : s +:+ "" = s.
Proof. induction s as [|c s IH]; [done|]. by rewrite app_cons_s, IH. Qed.

Lemma app_assoc_s (s1 s2 s3 : string) : (s1 +:+ s2) +:+ s3 = s1 +:+ (s2 +:+ s3).
Proof. induction s1 as [|c s1 IH]; [done|]. by rewrite !app_cons_s, IH. Qed.

Lemma nonempty_app_r (s1 s2 : string) :
  Py.nonempty s2 = true → Py.nonempty (s1 +:+ s2) = true.
Proof. by destruct s1. Qed.

Lemma contains_refl (s : string) : Commands.contains s s.
Proof. exists "", "". by rewrite app_nil_r_s. Qed.

Lemma contains_trans (a b c : string) :
  Commands.contains a b → Commands.contains b c → Commands.contains a c.
Proof.
  intros (p1 & q1 & ->) (p2 & q2 & ->).
  exists (p2 +:+ p1), (q1 +:+ q2). by rewrite !app_assoc_s.
Qed.

Lemma contains_app_l (a s t : string) :
  Commands.contains a s → Commands.contains a (s +:+ t).
Proof.
  intros (p & q & ->). exists p, (q +:+ t). by rewrite !app_assoc_s.
Qed.

Lemma contains_app_r (a s t : string) :
  Commands.contains a t → Commands.contains a (s +:+ t).
Proof.
  intros (p & q & ->). exists (s +:+ p), q. by rewrite !app_assoc_s.
Qed.

Lemma join_cons sep x (l : list string) :
  Py.join sep (x :: l)
  = match l with [] => x | _ :: _ => x +:+ sep +:+ Py.join sep l end.
Proof. by destruct l. Qed.

Lemma contains_join sep x (l : list string) :
  x ∈ l → Commands.contains x (Py.join sep l).
Proof.
  induction l as [|y l IH]; [by intros ?%elem_of_nil|].
  rewrite join_cons. intros [->|Hin]%elem_of_cons.
  - destruct l; [apply contains_refl|]. apply contains_app_l, contains_refl.
  - destruct l as [|z l]; [by apply elem_of_nil in Hin|].
    by apply contains_app_r, contains_app_r, IH.
Qed.

Lemma join_nonempty sep (l : list string) :
  l ≠ [] → Forall (fun x => Py.nonempty x = true) l →
  Py.nonempty (Py.join sep l) = true.
Proof.
  intros Hne Hall. destruct l as [|x l]; [done|].
  apply Forall_cons in Hall as [Hx _]. rewrite join_cons.
  destruct l; [done|]. by destruct x.
Qed.

Lemma join_snoc sep x (l : list string) :
  Py.join sep (l ++ [x])
  = match l with [] => x | _ :: _ => Py.join sep l +:+ sep +:+ x end.
Proof.
  induction l as [|y l IH]; [done|].
  change ((y :: l) ++ [x]) with (y :: (l ++ [x])).
  rewrite !join_cons, IH. destruct l as [|z l]; simpl; [done|].
  by rewrite !app_assoc_s.
Qed.

(** ** Splitting and joining *)

Lemma split_cons_inv sep (s : string) : ∃ w ws, Py.split sep s = w :: ws.
Proof.
  destruct s as [|c s]; simpl; [by eexists _, _|].
  destruct (Ascii.eqb c sep); [by eexists _, _|].
  destruct (Py.split sep s); by eexists _, _.
Qed.

Lemma join_split sep (s : string) :
  Py.join (String sep "") (Py.split sep s) = s.
Proof.
  induction s as [|c s IH]; [done|]. simpl.
  destruct (split_cons_inv sep s) as (w & ws & Hs). rewrite Hs in IH |- *.
  destruct (Ascii.eqb_spec c sep) as [->|Hne].
  - rewrite join_cons. by rewrite IH.
  - rewrite join_cons in IH |- *. destruct ws as [|w' ws].
    + by rewrite IH.
    + by rewrite app_cons_s, IH.
Qed.

(** ** Dictionaries *)

Section dict_facts.
Context {V : Type}.
Implicit Types d : list (string * V).

Lemma dict_mem_get k d : Dict.mem k d = true ↔ is_Some (Dict.get k d).
Proof.
  unfold Dict.mem. destruct (Dict.get k d); split; done || by intros [? ?].
Qed.

Lemma dict_get_set k k' v d :
  Dict.get k' (Dict.set k v d) = if String.eqb k k' then Some v else Dict.get k' d.
Proof.
  induction d as [|[k0 v0] d IH]; simpl.
  - done.
  - destruct (String.eqb_spec k0 k) as [->|Hne]; simpl.
    + by destruct (String.eqb k k').
    + rewrite IH. destruct (String.eqb_spec k0 k') as [->|Hne']; [|done].
      by destruct (String.eqb_spec k k').
Qed.

Lemma dict_mem_set k k' v d :
  Dict.mem k' (Dict.set k v d) = String.eqb k k' || Dict.mem k' d.
Proof.
  unfold Dict.mem. rewrite dict_get_set. by destruct (String.eqb k k').
Qed.
End dict_facts.

(** ** The diff scan never fails *)

(** The current directory, when it counts lines, has an entry in [counts]. *)
Lemma scan_line_step_tracked st line :
  Scan.tracked st → ∃ st', Scan.line_step st line = Ret st' ∧ Scan.tracked st'.
Proof.
  unfold Scan.line_step. intros Hinv.
  destruct (Scan.is_header line).
  - destruct (Py.split "/" (Scan.header_path line)) as [|w ws]; [by eexists|].
    destruct (Scan.fold_dir (w :: ws)) as [d|]; [|by eexists].
    destruct (Py.nonempty d) eqn:Hd; simpl.
    + destruct (Dict.mem d (Scan.counts st)) eqn:Hm; simpl;
        (eexists; split; [done|]); unfold Scan.tracked; simpl; rewrite Hd; [done|].
      by rewrite dict_mem_set, String.eqb_refl.
    + eexists; split; [done|]. unfold Scan.tracked. simpl. by rewrite Hd.
  - unfold Scan.tracked in Hinv.
    destruct (Scan.cur_dir st) as [d|] eqn:Hc; simpl.
    2:{ eexists; split; [done|]. unfold Scan.tracked. by rewrite Hc. }
    destruct (Py.nonempty d) eqn:Hd; simpl.
    2:{ eexists; split; [done|]. unfold Scan.tracked. by rewrite Hc, Hd. }
    destruct (Scan.is_added line).
    2:{ eexists; split; [done|]. unfold Scan.tracked. by rewrite Hc, Hd. }
    assert (is_Some (Dict.get d (Scan.counts st))) as [n Hn]
      by (by apply dict_mem_get).
    rewrite Hn. eexists; split; [done|]. unfold Scan.tracked. simpl.
    by rewrite Hd, dict_mem_set, String.eqb_refl.
Qed.

Lemma scan_lines_tracked ls st :
  Scan.tracked st →
  ∃ st', for_each Scan.line_step ls st = Ret st' ∧ Scan.tracked st'.
Proof.
  revert st. induction ls as [|l ls IH]; intros st Hinv; simpl; [by eexists|].
  destruct (scan_line_step_tracked st l Hinv) as (st1 & -> & Hinv1). simpl.
  by apply IH.
Qed.

Lemma scan_total diff : ∃ st, Scan.scan diff = Ret st.
Proof.
  destruct (scan_lines_tracked (Scan.lines diff) Scan.init) as (st & H & _); [done|].
  by exists st.
Qed.

(** ** The largest count *)

Lemma fold_pick_step cs m o :
  (fold_left Scan.pick_step cs (m, o) = (m, o) ∧
   Forall (fun kv : string * nat => kv.2 ≤ m) cs) ∨
  (∃ before d n after,
      cs = before ++ (d, n) :: after ∧
      fold_left Scan.pick_step cs (m, o) = (n, Some d) ∧ m < n ∧
      Forall (fun kv : string * nat => kv.2 < n) before ∧
      Forall (fun kv : string * nat => kv.2 ≤ n) after).
Proof.
  revert m o. induction cs as [|[d0 n0] cs IH]; intros m o; simpl.
  { left. by split. }
  assert (Scan.pick_step (m, o) (d0, n0)
          = if m <? n0 then (n0, Some d0) else (m, o)) as -> by done.
  destruct (Nat.ltb_spec m n0) as [Hlt|Hge].
  - right. destruct (IH n0 (Some d0)) as [[Heq Hall]|(before & d & n & after & -> & Heq & Hn & Hb & Ha)].
    + exists [], d0, n0, cs.
      split; [done|]. split; [done|]. split; [lia|]. split; [constructor|done].
    + exists ((d0, n0) :: before), d, n, after.
      split; [done|]. split; [done|]. split; [lia|]. split; [|done].
      constructor; [simpl; lia|done].
  - destruct (IH m o) as [[Heq Hall]|(before & d & n & after & -> & Heq & Hn & Hb & Ha)].
    + left. split; [done|]. constructor; [simpl; lia|done].
    + right. exists ((d0, n0) :: before), d, n, after.
      split; [done|]. split; [done|]. split; [lia|]. split; [|done].
      constructor; [simpl; lia|done].
Qed.

Lemma largest_spec cs :
  match Scan.largest cs with
  | Some d => Scan.first_maximum cs d
  | None => Forall (fun kv : string * nat => kv.2 = 0) cs
  end.
Proof.
  unfold Scan.largest.
  destruct (fold_pick_step cs 0 None) as [[-> Hall]|(before & d & n & after & -> & -> & Hn & Hb & Ha)];
    simpl.
  - eapply Forall_impl; [exact Hall|]. simpl. intros; lia.
  - by exists before, n, after.
Qed.

(** ** The order of the counted directories *)

Lemma mem_true x (l : list string) : Py.mem x l = true ↔ x ∈ l.
Proof.
  unfold Py.mem. rewrite existsb_exists. split.
  - intros (y & Hin & ->%String.eqb_eq). by apply list_elem_of_In.
  - intros Hin. exists x. split; [by apply list_elem_of_In|apply String.eqb_refl].
Qed.

Lemma dict_mem_keys {V} k (d : list (string * V)) :
  Dict.mem k d = Py.mem k (Dict.keys d).
Proof.
  unfold Dict.mem. induction d as [|[k0 v0] d IH]; simpl; [done|].
  rewrite (String.eqb_sym k k0). by destruct (String.eqb k0 k).
Qed.

Lemma dict_keys_set_old {V} k v (d : list (string * V)) :
  Dict.mem k d = true → Dict.keys (Dict.set k v d) = Dict.keys d.
Proof.
  unfold Dict.mem. induction d as [|[k0 v0] d IH]; simpl; [done|].
  destruct (String.eqb_spec k0 k) as [->|Hne]; simpl; [done|].
  intros H. by rewrite IH.
Qed.

Lemma dict_keys_set_new {V} k v (d : list (string * V)) :
  Dict.mem k d = false → Dict.keys (Dict.set k v d) = Dict.keys d ++ [k].
Proof.
  unfold Dict.mem. induction d as [|[k0 v0] d IH]; simpl; [done|].
  destruct (String.eqb_spec k0 k) as [->|Hne]; simpl; [done|].
  intros H. by rewrite IH.
Qed.

Lemma scan_line_step_keys st line st' :
  Scan.tracked st → Scan.line_step st line = Ret st' →
  Dict.keys (Scan.counts st')
  = Dict.keys (Scan.counts st)
    ++ first_occurrences (Dict.keys (Scan.counts st)) (option_list (Scan.opened line)).
Proof.
  unfold Scan.line_step, Scan.opened. intros Hinv.
  destruct (Scan.is_header line).
  - destruct (Py.split "/" (Scan.header_path line)) as [|w ws] eqn:Hs.
    { exfalso. clear -Hs. destruct (Scan.header_path line) as [|c s]; simpl in Hs; [done|].
      destruct (Ascii.eqb c "/"); [done|]. by destruct (Py.split "/" s). }
    destruct (Scan.fold_dir (w :: ws)) as [d|]; simpl.
    2:{ intros [= <-]. simpl. by rewrite app_nil_r. }
    destruct (Py.nonempty d) eqn:Hd; simpl.
    2:{ intros [= <-]. simpl. by rewrite app_nil_r. }
    rewrite <- dict_mem_keys.
    destruct (Dict.mem d (Scan.counts st)) eqn:Hm; simpl; intros [= <-]; simpl.
    + by rewrite app_nil_r.
    + by apply dict_keys_set_new.
  - simpl. rewrite app_nil_r. unfold Scan.tracked in Hinv.
    destruct (Scan.cur_dir st) as [d|] eqn:Hc; simpl; [|by intros [= <-]].
    destruct (Py.nonempty d) eqn:Hd; simpl; [|by intros [= <-]].
    destruct (Scan.is_added line); [|by intros [= <-]].
    destruct (Dict.get d (Scan.counts st)) as [n|] eqn:Hn; [|done].
    intros [= <-]. simpl. by apply dict_keys_set_old.
Qed.

Lemma first_occurrences_app seen l1 l2 :
  first_occurrences seen (l1 ++ l2)
  = first_occurrences seen l1
    ++ first_occurrences (seen ++ first_occurrences seen l1) l2.
Proof.
  revert seen. induction l1 as [|x l1 IH]; intros seen; simpl.
  { by rewrite app_nil_r. }
  destruct (Py.mem x seen); [apply IH|].
  simpl. rewrite IH. by rewrite <- app_assoc.
Qed.

Lemma scan_lines_keys ls st st' :
  Scan.tracked st → for_each Scan.line_step ls st = Ret st' →
  Dict.keys (Scan.counts st')
  = Dict.keys (Scan.counts st)
    ++ first_occurrences (Dict.keys (Scan.counts st)) (omap Scan.opened ls).
Proof.
  revert st. induction ls as [|l ls IH]; intros st Hinv.
  { simpl. intros [= <-]. by rewrite app_nil_r. }
  assert (omap Scan.opened (l :: ls)
          = option_list (Scan.opened l) ++ omap Scan.opened ls) as ->
    by (simpl; by destruct (Scan.opened l)).
  cbn [for_each].
  destruct (scan_line_step_tracked st l Hinv) as (st1 & Hstep & Hinv1).
  rewrite Hstep. simpl. intros Hrest.
  rewrite (IH st1 Hinv1 Hrest), (scan_line_step_keys st l st1 Hinv Hstep).
  by rewrite <- app_assoc, first_occurrences_app.
Qed.

Lemma first_occurrences_fresh seen l x :
  x ∈ first_occurrences seen l → (x ∉ seen) ∧ (x ∈ l).
Proof.
  revert seen. induction l as [|y l IH]; intros seen; simpl.
  { by intros ?%elem_of_nil. }
  destruct (Py.mem y seen) eqn:Hm.
  - intros [H1 H2]%IH. split; [done|]. by apply elem_of_cons; right.
  - intros [->|Hin]%elem_of_cons.
    + split; [|by apply elem_of_cons; left].
      intros Hin%mem_true. congruence.
    + apply IH in Hin as [H1 H2]. split; [|by apply elem_of_cons; right].
      intros Hx. apply H1. apply elem_of_app. by left.
Qed.

Lemma first_occurrences_NoDup seen l : NoDup (first_occurrences seen l).
Proof.
  revert seen. induction l as [|y l IH]; intros seen; simpl; [constructor|].
  destruct (Py.mem y seen); [apply IH|].
  constructor; [|apply IH].
  intros [Hn _]%first_occurrences_fresh. apply Hn.
  apply elem_of_app. right. by apply list_elem_of_singleton.
Qed.

(** C6, as stated, fails: a header whose path is a single non-empty segment
    opens that segment as a directory, and the added lines after it are
    counted there. *)
Lemma short_header_counterexample :
  let header := "diff --git a/README.md b/README.md" in
  Scan.is_header header = true ∧
  length (Py.split "/" (Scan.header_path header)) < 2 ∧
  for_each Scan.line_step [header; "+hello"] Scan.init
  = Ret (Scan.mk_state [("README.md", 1)] (Some "README.md")) ∧
  Scan.most_changed {[ "src/liba" := ["@a"] ]}
    "diff --git a/README.md b/README.md
+hello" = Ret (Some "README.md").
Proof.
  split; [reflexivity|]. split; [vm_compute; lia|].
  split; vm_compute; reflexivity.
Qed.

Lemma body_lines_not_counted body counts :
  Forall (fun l => Scan.is_header l = false) body →
  for_each Scan.line_step body (Scan.mk_state counts (Some ""))
  = Ret (Scan.mk_state counts (Some "")).
Proof.
  induction 1 as [|l body Hl _ IH]; simpl; [done|].
  unfold Scan.line_step at 1. rewrite Hl. simpl. exact IH.
Qed.

(** C6, amended: a header whose path after the [" b/"] marker is empty opens
    no directory; the lines up to the next header leave every count as it
    was, and no exception is raised. *)
Theorem empty_header_counts_nothing (st : Scan.state) (header : string)
    (body : list string) :
  Scan.is_header header = true →
  Scan.header_path header = "" →
  Forall (fun l => Scan.is_header l = false) body →
  for_each Scan.line_step (header :: body) st
  = Ret (Scan.mk_state (Scan.counts st) (Some "")).
Proof.
  intros Hh Hp Hbody. cbn [for_each].
  unfold Scan.line_step at 1. rewrite Hh, Hp. simpl.
  by apply body_lines_not_counted.
Qed.

Lemma empty_header_counts_nothing_witness :
  let st := Scan.mk_state [("src/liba", 2)] (Some "src/liba") in
  let header := "diff --git a/x b/" in
  let body := ["+++ b/"; "+new"; "-old"] in
  Scan.is_header header = true ∧
  Scan.header_path header = "" ∧
  Forall (fun l => Scan.is_header l = false) body ∧
  for_each Scan.line_step (header :: body) st
  = Ret (Scan.mk_state [("src/liba", 2)] (Some "")).
Proof.
  intros st header body.
  assert (Scan.is_header header = true) as H1 by reflexivity.
  assert (Scan.header_path header = "") as H2 by reflexivity.
  assert (Forall (fun l => Scan.is_header l = false) body) as H3
    by (repeat constructor).
  split; [exact H1|]. split; [exact H2|]. split; [exact H3|].
  exact (empty_header_counts_nothing st header body H1 H2 H3).
Defined.

(** ** What the counts of the scan are *)

Lemma scan_line_step_cur st line st' :
  Scan.line_step st line = Ret st' →
  Scan.cur_dir st'
  = if Scan.is_header line then Scan.header_dir line else Scan.cur_dir st.
Proof.
  unfold Scan.line_step, Scan.header_dir.
  destruct (Scan.is_header line).
  - destruct (split_cons_inv "/" (Scan.header_path line)) as (w & ws & ->).
    destruct (Scan.fold_dir (w :: ws)) as [d|]; [|by intros [= <-]].
    by destruct (Py.nonempty d && negb (Dict.mem d (Scan.counts st)));
      intros [= <-].
  - destruct (Scan.cur_dir st) as [d|] eqn:Hc; simpl; [|by intros [= <-]].
    destruct (Py.nonempty d && Scan.is_added line); [|by intros [= <-]].
    destruct (Dict.get d (Scan.counts st)); [|done]. by intros [= <-].
Qed.

Lemma scan_line_step_get st line st' d :
  Scan.tracked st → Scan.line_step st line = Ret st' →
  Dict.get d (Scan.counts st')
  = match Dict.get d (Scan.counts st) with
    | Some n =>
        Some (n + if negb (Scan.is_header line) && Scan.is_added line
                     && Py.truthy (Scan.cur_dir st)
                     && bool_decide (Scan.cur_dir st = Some d)
                  then 1 else 0)
    | None => if bool_decide (Scan.opened line = Some d) then Some 0 else None
    end.
Proof.
  unfold Scan.line_step, Scan.opened, Scan.tracked. intros Hinv.
  destruct (Scan.is_header line); simpl.
  - destruct (split_cons_inv "/" (Scan.header_path line)) as (w & ws & ->).
    destruct (Scan.fold_dir (w :: ws)) as [d0|].
    2:{ intros [= <-]. simpl. destruct (Dict.get d (Scan.counts st)); [|done].
        f_equal. lia. }
    destruct (Py.nonempty d0) eqn:Hne; simpl.
    2:{ intros [= <-]. simpl. destruct (Dict.get d (Scan.counts st)); [|done].
        f_equal. lia. }
    destruct (Dict.mem d0 (Scan.counts st)) eqn:Hmem; simpl; intros [= <-]; simpl.
    + destruct (Dict.get d (Scan.counts st)) eqn:Hd; [f_equal; lia|].
      rewrite bool_decide_false; [done|]. intros [= ->].
      apply dict_mem_get in Hmem as [? ?]. congruence.
    + rewrite dict_get_set. destruct (String.eqb_spec d0 d) as [->|Hneq].
      * rewrite bool_decide_true by done.
        unfold Dict.mem in Hmem. by destruct (Dict.get d (Scan.counts st)).
      * rewrite bool_decide_false by congruence.
        destruct (Dict.get d (Scan.counts st)); [f_equal; lia|done].
  - destruct (Scan.cur_dir st) as [c|] eqn:Hc; simpl.
    2:{ intros [= <-]. rewrite andb_false_r. simpl.
        destruct (Dict.get d (Scan.counts st)); [f_equal; lia|done]. }
    destruct (Py.nonempty c) eqn:Hne; simpl.
    2:{ intros [= <-]. rewrite andb_false_r. simpl.
        destruct (Dict.get d (Scan.counts st)); [f_equal; lia|done]. }
    destruct (Scan.is_added line); simpl.
    2:{ intros [= <-]. destruct (Dict.get d (Scan.counts st)); [f_equal; lia|done]. }
    apply dict_mem_get in Hinv as [n Hn]. rewrite Hn. intros [= <-]. simpl.
    rewrite dict_get_set. destruct (String.eqb_spec c d) as [->|Hneq].
    + rewrite Hn. by rewrite bool_decide_true.
    + rewrite bool_decide_false by congruence.
      destruct (Dict.get d (Scan.counts st)); [f_equal; lia|done].
Qed.

Lemma added_lines_untracked d cur ls :
  cur ≠ Some d ∨ Py.nonempty d = false →
  d ∉ omap Scan.opened ls →
  Scan.added_lines d cur ls = 0.
Proof.
  revert cur. induction ls as [|l ls IH]; intros cur Hcur Hnot; [done|].
  simpl. assert (d ∉ omap Scan.opened ls) as Hnot'.
  { intros Hin. apply Hnot. simpl. destruct (Scan.opened l); [|done].
    by apply elem_of_cons; right. }
  destruct (Scan.is_header l) eqn:Hh.
  - apply IH; [|done]. destruct (Py.nonempty d) eqn:Hne; [left|by right].
    intros Hd. apply Hnot. simpl. unfold Scan.opened. rewrite Hh.
    unfold Scan.header_dir in Hd. rewrite Hd, Hne. by apply elem_of_cons; left.
  - rewrite IH by done.
    destruct Hcur as [Hcur|Hcur].
    + rewrite bool_decide_false by done. by rewrite andb_false_r.
    + destruct (decide (cur = Some d)) as [->|Hn].
      * simpl. rewrite Hcur. by rewrite andb_false_r.
      * rewrite bool_decide_false by done. by rewrite andb_false_r.
Qed.

Lemma scan_lines_get ls st st' d :
  Scan.tracked st → for_each Scan.line_step ls st = Ret st' →
  Dict.get d (Scan.counts st')
  = match Dict.get d (Scan.counts st) with
    | Some n => Some (n + Scan.added_lines d (Scan.cur_dir st) ls)
    | None =>
        if bool_decide (d ∈ omap Scan.opened ls)
        then Some (Scan.added_lines d (Scan.cur_dir st) ls) else None
    end.
Proof.
  revert st. induction ls as [|l ls IH]; intros st Hinv.
  { simpl. intros [= <-].
    destruct (Dict.get d (Scan.counts st)); [f_equal; lia|done]. }
  cbn [for_each].
  destruct (scan_line_step_tracked st l Hinv) as (st1 & Hstep & Hinv1).
  rewrite Hstep. simpl. intros Hrest.
  rewrite (IH st1 Hinv1 Hrest), (scan_line_step_get st l st1 d Hinv Hstep).
  rewrite (scan_line_step_cur st l st1 Hstep).
  destruct (Dict.get d (Scan.counts st)) as [n|] eqn:Hd.
  - f_equal. destruct (Scan.is_header l); simpl; lia.
  - assert (Scan.cur_dir st ≠ Some d ∨ Py.nonempty d = false) as Hcur.
    { unfold Scan.tracked in Hinv. destruct (Scan.cur_dir st) as [c|]; [|by left].
      destruct (Py.nonempty c) eqn:Hc.
      - left. intros [= ->]. apply dict_mem_get in Hinv as [? ?]. congruence.
      - destruct (decide (c = d)) as [->|Hn]; [by right|left; congruence]. }
    destruct (decide (Scan.opened l = Some d)) as [Ho|Ho].
    + rewrite bool_decide_true by done.
      rewrite bool_decide_true by (rewrite Ho; by apply elem_of_cons; left).
      f_equal. unfold Scan.opened in Ho.
      destruct (Scan.is_header l); [|done]. done.
    + rewrite bool_decide_false by done.
      assert (d ∈ omap Scan.opened (l :: ls) ↔ d ∈ omap Scan.opened ls) as Hiff.
      { simpl. destruct (Scan.opened l) as [o|]; [|done].
        rewrite elem_of_cons. split; [|by right]. intros [->|?]; done. }
      destruct (decide (d ∈ omap Scan.opened ls)) as [Hin|Hin].
      * rewrite !bool_decide_true by (done || by apply Hiff). f_equal.
        destruct (Scan.is_header l) eqn:Hh; [done|].
        destruct Hcur as [Hcur|Hcur].
        -- rewrite bool_decide_false by done. by rewrite andb_false_r.
        -- destruct (decide (Scan.cur_dir st = Some d)) as [Hc|Hc].
           ++ rewrite Hc. simpl. rewrite Hcur. by rewrite andb_false_r.
           ++ rewrite bool_decide_false by done. by rewrite andb_false_r.
      * rewrite !bool_decide_false by (done || by rewrite Hiff). done.
Qed.

Lemma dict_get_elem {V} k (v : V) (d : list (string * V)) :
  NoDup (Dict.keys d) → (k, v) ∈ d → Dict.get k d = Some v.
Proof.
  induction d as [|[k0 v0] d IH]; [by intros _ ?%elem_of_nil|].
  simpl. intros [Hk Hnd]%NoDup_cons [[= <- <-]|Hin]%elem_of_cons.
  - by rewrite String.eqb_refl.
  - destruct (String.eqb_spec k0 k) as [->|Hne]; [|by apply IH].
    exfalso. apply Hk. apply list_elem_of_fmap. by exists (k, v).
Qed.

(** Every count is the number of added lines of its directory. *)
Lemma scan_counts_added diff st :
  Scan.scan diff = Ret st →
  Forall (fun kv : string * nat =>
            kv.2 = Scan.added_lines kv.1 None (Scan.lines diff))
    (Scan.counts st).
Proof.
  intros Hscan. unfold Scan.scan in Hscan.
  assert (Scan.tracked Scan.init) as Hinit by done.
  pose proof (scan_lines_keys _ _ _ Hinit Hscan) as Hkeys. simpl in Hkeys.
  apply Forall_forall. intros [d n] Hin. simpl.
  assert (Dict.get d (Scan.counts st) = Some n) as Hget.
  { apply dict_get_elem; [|done]. rewrite Hkeys. apply first_occurrences_NoDup. }
  rewrite (scan_lines_get _ _ _ d Hinit Hscan) in Hget. simpl in Hget.
  case_bool_decide; congruence.
Qed.



(** The two examples of the specification: the test directory never wins,
    and among equal counts the directory seen first wins. *)
Example most_changed_skips_tests :
  Scan.most_changed {[ "src/librustc" := ["@a"] ]}
    "diff --git a/src/librustc_foo/x.rs b/src/librustc_foo/x.rs
+1
diff --git a/src/test/y.rs b/src/test/y.rs
+1
+2" = Ret (Some "src/librustc").
Proof. vm_compute. reflexivity. Qed.

Example most_changed_tie :
  Scan.most_changed {[ "src/liba" := ["@a"] ]}
    "diff --git a/src/libb/x.rs b/src/libb/x.rs
+1
diff --git a/src/liba/y.rs b/src/liba/y.rs
+1" = Ret (Some "src/libb").
Proof. vm_compute. reflexivity. Qed.

(** ** Merging the global groups *)

Lemma merge_overlap (global_groups : list (string * list string))
    (gs : gmap string (list string)) (name : string) :
  name ∈ Dict.keys global_groups → is_Some (gs !! name) →
  ∃ n, n ∈ Dict.keys global_groups ∧
       Reviewer.merge_groups gs global_groups
       = Raise (AssertionError (Reviewer.overlap_msg n)).
Proof.
  unfold Reviewer.merge_groups.
  revert gs. induction global_groups as [|[k v] rest IH]; intros gs Hin Hsome.
  { by apply elem_of_nil in Hin. }
  cbn [for_each]. unfold Reviewer.merge_step at 1. simpl.
  destruct (gs !! k) as [old|] eqn:Hk.
  - exists k. split; [by apply elem_of_cons; left|done].
  - simpl. simpl in Hin. apply elem_of_cons in Hin as [->|Hin].
    { rewrite Hk in Hsome. by destruct Hsome. }
    destruct (IH (<[k:=v]> gs) Hin) as (n & Hn & Hrun).
    { rewrite lookup_insert_is_Some. destruct (decide (k = name)); auto. }
    exists n. split; [by apply elem_of_cons; right|done].
Qed.

Lemma merge_disjoint (global_groups : list (string * list string))
    (gs : gmap string (list string)) :
  NoDup (Dict.keys global_groups) →
  (∀ k, k ∈ Dict.keys global_groups → gs !! k = None) →
  Reviewer.merge_groups gs global_groups
  = Ret (list_to_map global_groups ∪ gs).
Proof.
  unfold Reviewer.merge_groups.
  revert gs. induction global_groups as [|[k v] rest IH]; intros gs Hnd Hfree.
  { simpl. by rewrite (left_id_L ∅ (∪)). }
  cbn [for_each]. unfold Reviewer.merge_step at 1. simpl.
  rewrite (Hfree k) by (by apply elem_of_cons; left). simpl.
  simpl in Hnd. apply NoDup_cons in Hnd as [Hk Hnd].
  rewrite IH; [|done|].
  - f_equal. simpl. rewrite <- insert_union_l. symmetry. apply insert_union_r.
    apply not_elem_of_list_to_map_1. exact Hk.
  - intros k' Hk'. rewrite lookup_insert_ne; [|by intros ->].
    apply Hfree. by apply elem_of_cons; right.
Qed.

(** C8: when a group name of the global file is also a group name of the
    repository, [choose_reviewer] stops with the overlap assertion: neither
    definition is kept. *)
Theorem global_overlap_is_fatal (cfg : repo_config)
    (global_groups : list (string * list string))
    (diff exclude : string) (rnd : nat) (name : string) :
  is_Some (cfg_groups cfg !! name) →
  name ∈ Dict.keys global_groups →
  ∃ n, n ∈ Dict.keys global_groups ∧
       Reviewer.choose_reviewer cfg global_groups diff exclude rnd
       = Raise (AssertionError (Reviewer.overlap_msg n)).
Proof.
  intros Hrepo Hglobal.
  destruct (merge_overlap global_groups (cfg_groups cfg) name Hglobal Hrepo)
    as (n & Hn & Hrun).
  exists n. split; [done|]. unfold Reviewer.choose_reviewer. by rewrite Hrun.
Qed.

Lemma global_overlap_is_fatal_witness :
  let cfg := mk_config ∅ {[ "all" := ["@a"] ]} [] None None [] in
  let global_groups := [("core", ["@c"]); ("all", ["@b"])] in
  is_Some (cfg_groups cfg !! "all") ∧
  "all" ∈ Dict.keys global_groups ∧
  ∃ n, n ∈ Dict.keys global_groups ∧
       Reviewer.choose_reviewer cfg global_groups "" "me" 0
       = Raise (AssertionError (Reviewer.overlap_msg n)).
Proof.
  intros cfg global_groups.
  assert (is_Some (cfg_groups cfg !! "all")) as H1 by (by eexists).
  assert ("all" ∈ Dict.keys global_groups) as H2
    by (apply list_elem_of_In; simpl; auto).
  split; [exact H1|]. split; [exact H2|].
  exact (global_overlap_is_fatal cfg global_groups "" "me" 0 "all" H1 H2).
Defined.

Example global_overlap_message :
  Reviewer.choose_reviewer (mk_config ∅ {[ "all" := ["@a"] ]} [] None None [])
    [("core", ["@c"]); ("all", ["@b"])] "" "me" 0
  = Raise (AssertionError "group all overlaps with _global.json").
Proof. vm_compute. reflexivity. Qed.

(** ** The expansion loop always ends *)

Section expand_total.
Variable gs : gmap string (list string).
Variable key : string.

Lemma weight_shrink (f : list string -> nat) (keep keep' : string -> bool) l :
  (∀ k, keep' k = true → keep k = true) →
  Reviewer.weight f keep' l ≤ Reviewer.weight f keep l.
Proof.
  intros Hsub. unfold Reviewer.weight. induction l as [|[k v] l IH]; [done|].
  rewrite !filter_cons. simpl.
  destruct (decide (keep' k = true)) as [H1|H1];
    destruct (decide (keep k = true)) as [H2|H2]; simpl; try lia.
  exfalso. by apply H2, Hsub.
Qed.

Lemma weight_expand (f : list string -> nat) (keep keep' : string -> bool)
    p v l :
  (∀ k, keep' k = true → keep k = true) →
  (p, v) ∈ l → keep p = true → keep' p = false →
  Reviewer.weight f keep' l + f v ≤ Reviewer.weight f keep l.
Proof.
  intros Hsub Hin Hp Hp'.
  induction l as [|[k w] l IH]; [by apply elem_of_nil in Hin|].
  apply elem_of_cons in Hin as [[= <- <-]|Hin].
  - pose proof (weight_shrink f keep keep' l Hsub) as Hm.
    unfold Reviewer.weight in *. rewrite !filter_cons. simpl.
    rewrite decide_False by congruence. rewrite decide_True by done.
    simpl. lia.
  - specialize (IH Hin). unfold Reviewer.weight in *. rewrite !filter_cons. simpl.
    destruct (decide (keep' k = true)) as [H1|H1];
      destruct (decide (keep k = true)) as [H2|H2]; simpl; try lia.
    exfalso. by apply H2, Hsub.
Qed.

Lemma unexpanded_true (seen : gset string) p :
  Reviewer.unexpanded key seen p = true ↔ (p ∉ seen) ∧ (p ≠ key).
Proof.
  unfold Reviewer.unexpanded.
  rewrite andb_true_iff, bool_decide_eq_true, negb_true_iff, String.eqb_neq.
  done.
Qed.

Lemma unexpanded_grow (seen seen' : gset string) p :
  seen ⊆ seen' →
  Reviewer.unexpanded key seen' p = true → Reviewer.unexpanded key seen p = true.
Proof.
  intros Hsub. rewrite !unexpanded_true. intros [H1 H2]. split; [|done].
  intros Hin. by apply H1, Hsub.
Qed.

(** What one iteration does, case by case. *)
Lemma step_empty st :
  Reviewer.potential st = [] → Reviewer.step gs key st = Ret None.
Proof. unfold Reviewer.step. by intros ->. Qed.

Lemma step_user st rest p :
  Reviewer.potential st = rest ++ [p] → Py.startswith p "@" = true →
  Reviewer.step gs key st
  = Ret (Some (Reviewer.mk_state rest (Reviewer.seen st)
                 (Reviewer.reviewers st ++ [Py.slice_from 1 p]))).
Proof. unfold Reviewer.step. intros -> Hp. by rewrite pop_snoc, Hp. Qed.

Lemma step_unknown st rest p :
  Reviewer.potential st = rest ++ [p] → Py.startswith p "@" = false →
  gs !! p = None →
  Reviewer.step gs key st
  = Ret (Some (Reviewer.mk_state rest (Reviewer.seen st) (Reviewer.reviewers st))).
Proof. unfold Reviewer.step. intros -> Hp Hl. by rewrite pop_snoc, Hp, Hl. Qed.

Lemma step_seen st rest p :
  Reviewer.potential st = rest ++ [p] → Py.startswith p "@" = false →
  is_Some (gs !! p) → p ∈ Reviewer.seen st →
  Reviewer.step gs key st = Raise (AssertionError (Reviewer.cycle_msg p)).
Proof.
  unfold Reviewer.step. intros -> Hp [v Hl] Hs.
  rewrite pop_snoc, Hp, Hl. by rewrite decide_True.
Qed.

Lemma step_group st rest p :
  Reviewer.potential st = rest ++ [p] → Py.startswith p "@" = false →
  is_Some (gs !! p) → p ∉ Reviewer.seen st →
  Reviewer.step gs key st
  = Ret (Some (Reviewer.mk_state (rest ++ Reviewer.members gs key rest p)
                 ({[p]} ∪ Reviewer.seen st) (Reviewer.reviewers st))).
Proof.
  unfold Reviewer.step. intros -> Hp [v Hl] Hs.
  rewrite pop_snoc, Hp, Hl. by rewrite decide_False.
Qed.

(** Every state is in exactly one of the five cases. *)
Lemma step_cases st :
  Reviewer.potential st = [] ∨
  ∃ rest p, Reviewer.potential st = rest ++ [p] ∧
    (Py.startswith p "@" = true ∨
     (Py.startswith p "@" = false ∧
      (gs !! p = None ∨
       (is_Some (gs !! p) ∧ (p ∈ Reviewer.seen st ∨ p ∉ Reviewer.seen st))))).
Proof.
  destruct (Py.pop (Reviewer.potential st)) as [[rest p]|] eqn:E;
    [apply pop_Some in E|apply pop_None in E; by left].
  right. exists rest, p. split; [done|].
  destruct (Py.startswith p "@"); [by left|right; split; [done|]].
  destruct (gs !! p) eqn:Hl; [right|by left]. split; [done|].
  destruct (decide (p ∈ Reviewer.seen st)); auto.
Qed.

Lemma step_budget st st' :
  Reviewer.step gs key st = Ret (Some st') →
  Reviewer.budget gs key st' < Reviewer.budget gs key st.
Proof.
  destruct (step_cases st) as [He|(rest & p & Hpot & Hc)].
  { rewrite step_empty by done. discriminate. }
  unfold Reviewer.budget, Reviewer.pending. rewrite Hpot, length_app. simpl.
  destruct Hc as [Hu|[Hu [Hn|[Hg [Hs|Hs]]]]].
  - rewrite (step_user _ _ _ Hpot Hu). intros [= <-]. simpl. case_decide; lia.
  - rewrite (step_unknown _ _ _ Hpot Hu Hn). intros [= <-]. simpl. case_decide; lia.
  - rewrite (step_seen _ _ _ Hpot Hu Hg Hs). discriminate.
  - rewrite (step_group _ _ _ Hpot Hu Hg Hs). intros [= <-]. simpl.
    unfold Reviewer.members. destruct Hg as [v Hl].
    assert (Reviewer.seen st ⊆ {[p]} ∪ Reviewer.seen st) as Hsub
      by (intros x Hx; apply elem_of_union; by right).
    destruct (String.eqb_spec p key) as [->|Hne].
    + rewrite decide_True by (apply elem_of_union; left; by apply elem_of_singleton).
      rewrite decide_False by done.
      assert (Reviewer.weight length
                (Reviewer.unexpanded key ({[key]} ∪ Reviewer.seen st))
                (map_to_list gs)
              ≤ Reviewer.weight length (Reviewer.unexpanded key (Reviewer.seen st))
                  (map_to_list gs)) as Hw.
      { apply weight_shrink. intros k. by apply unexpanded_grow. }
      rewrite length_app. lia.
    + rewrite Hl. simpl.
      assert (Reviewer.weight length
                (Reviewer.unexpanded key ({[p]} ∪ Reviewer.seen st))
                (map_to_list gs)
              + length v
              ≤ Reviewer.weight length (Reviewer.unexpanded key (Reviewer.seen st))
                  (map_to_list gs)) as Hw.
      { apply (weight_expand _ _ _ p).
        - intros k. by apply unexpanded_grow.
        - by apply elem_of_map_to_list.
        - by apply unexpanded_true.
        - apply not_true_is_false. rewrite unexpanded_true. intros [Hx _].
          apply Hx, elem_of_union. left. by apply elem_of_singleton. }
      rewrite length_app.
      destruct (decide (key ∈ Reviewer.seen st)) as [Hk|Hk].
      * rewrite decide_True by (apply elem_of_union; by right). lia.
      * rewrite decide_False; [lia|].
        intros [Hx%elem_of_singleton|Hx]%elem_of_union; [by subst|done].
Qed.

Lemma step_in_time st : Reviewer.step gs key st ≠ OutOfFuel.
Proof.
  destruct (step_cases st) as [He|(rest & p & Hpot & Hc)].
  { by rewrite step_empty. }
  destruct Hc as [Hu|[Hu [Hn|[Hg [Hs|Hs]]]]].
  - by rewrite (step_user _ _ _ Hpot Hu).
  - by rewrite (step_unknown _ _ _ Hpot Hu Hn).
  - by rewrite (step_seen _ _ _ Hpot Hu Hg Hs).
  - by rewrite (step_group _ _ _ Hpot Hu Hg Hs).
Qed.

Lemma expand_within_budget fuel st :
  Reviewer.budget gs key st ≤ fuel →
  Reviewer.expand gs key fuel st ≠ OutOfFuel.
Proof.
  revert st. induction fuel as [|fuel IH]; intros st Hb; simpl;
    pose proof (step_in_time st) as Ht;
    destruct (Reviewer.step gs key st) as [[st'|]|e|] eqn:E; try done.
  - apply step_budget in E. lia.
  - apply IH. apply step_budget in E. lia.
Qed.

Lemma expand_aliases_total potential :
  Reviewer.expand_aliases gs key potential ≠ OutOfFuel.
Proof. apply expand_within_budget. done. Qed.
End expand_total.

(** ** What a normal end of the expansion implies *)

Section expand_graph.
Variable gs : gmap string (list string).
Variable key : string.

Lemma reachable_past_snoc rest p g :
  Groups.reachable_past gs key (rest ++ [p]) g →
  Groups.reachable_past gs key rest g ∨
  (Groups.is_group gs p ∧ rtc (Groups.refers_past gs key) p g).
Proof.
  intros (t & Ht & Hg & Hr). apply elem_of_app in Ht as [Ht|Ht].
  - left. by exists t.
  - apply list_elem_of_singleton in Ht as ->. by right.
Qed.

Lemma reachable_past_app_l rest v g :
  Groups.reachable_past gs key rest g →
  Groups.reachable_past gs key (rest ++ v) g.
Proof.
  intros (t & Ht & Hg & Hr). exists t. split; [|done].
  apply elem_of_app. by left.
Qed.

Lemma reachable_past_member rest p v h g :
  gs !! p = Some v → Groups.refers_past gs key p h →
  rtc (Groups.refers_past gs key) h g →
  Groups.reachable_past gs key (rest ++ v) g.
Proof.
  intros Hl (_ & _ & Hh & v' & Hl' & Hin) Hr. exists h.
  rewrite Hl in Hl'. injection Hl' as <-.
  split; [|done]. apply elem_of_app. by right.
Qed.

Lemma members_other rest p :
  p ≠ key → Reviewer.members gs key rest p = default [] (gs !! p).
Proof.
  intros Hne. unfold Reviewer.members.
  by destruct (String.eqb_spec p key).
Qed.

Lemma members_key rest : Reviewer.members gs key rest key = rest.
Proof. unfold Reviewer.members. by rewrite String.eqb_refl. Qed.

(** A cycle starts with a reference and comes back. *)
Lemma cyclic_past_inv g :
  Groups.cyclic_past gs key g →
  ∃ h, Groups.refers_past gs key g h ∧ rtc (Groups.refers_past gs key) h g.
Proof.
  intros Hcyc. inversion Hcyc as [? ? H1|? h ? H1 H2]; subst.
  - exists g. split; [done|apply rtc_refl].
  - exists h. split; [done|by apply tc_rtc].
Qed.

(** A run that ends normally has met no seen group and no cycle among the
    groups that the work list can reach. *)
Lemma expand_ret_reachable fuel st out :
  Reviewer.expand gs key fuel st = Ret out →
  ∀ g, Groups.reachable_past gs key (Reviewer.potential st) g →
       (g ∉ Reviewer.seen st) ∧ ¬ Groups.cyclic_past gs key g.
Proof.
  revert st. induction fuel as [|fuel IH]; intros st Hrun g Hg.
  - simpl in Hrun.
    destruct (step_cases gs st) as [He|(rest & p & Hpot & Hc)].
    { rewrite He in Hg. destruct Hg as (t & Ht & _). by apply elem_of_nil in Ht. }
    destruct Hc as [Hu|[Hu [Hn|[Hgr [Hs|Hs]]]]].
    + by rewrite (step_user gs key _ _ _ Hpot Hu) in Hrun.
    + by rewrite (step_unknown gs key _ _ _ Hpot Hu Hn) in Hrun.
    + by rewrite (step_seen gs key _ _ _ Hpot Hu Hgr Hs) in Hrun.
    + by rewrite (step_group gs key _ _ _ Hpot Hu Hgr Hs) in Hrun.
  - simpl in Hrun.
    destruct (step_cases gs st) as [He|(rest & p & Hpot & Hc)].
    { rewrite He in Hg. destruct Hg as (t & Ht & _). by apply elem_of_nil in Ht. }
    rewrite Hpot in Hg. apply reachable_past_snoc in Hg.
    destruct Hc as [Hu|[Hu [Hn|[Hgr [Hs|Hs]]]]].
    + rewrite (step_user gs key _ _ _ Hpot Hu) in Hrun.
      destruct Hg as [Hg|[[Hp _] _]]; [|congruence].
      by refine (IH _ Hrun g _).
    + rewrite (step_unknown gs key _ _ _ Hpot Hu Hn) in Hrun.
      destruct Hg as [Hg|[[_ [v Hv]] _]]; [|congruence].
      by refine (IH _ Hrun g _).
    + by rewrite (step_seen gs key _ _ _ Hpot Hu Hgr Hs) in Hrun.
    + rewrite (step_group gs key _ _ _ Hpot Hu Hgr Hs) in Hrun.
      pose proof (IH _ Hrun) as Hnext. simpl in Hnext.
      assert (∀ x, x ∉ {[p]} ∪ Reviewer.seen st → x ∉ Reviewer.seen st) as Hsub.
      { intros x Hx Hin. apply Hx, elem_of_union. by right. }
      destruct Hg as [Hg|[Hp Hr]].
      { destruct (Hnext g (reachable_past_app_l _ _ _ Hg)) as [H1 H2]. auto. }
      destruct (decide (p = key)) as [->|Hne].
      * (* the group of the work list: no reference of its own is followed *)
        assert (g = key) as ->.
        { apply rtc_inv in Hr as [<-|(h & [Hk _] & _)]; done. }
        split; [done|]. intros (h & [Hk _] & _)%cyclic_past_inv. done.
      * rewrite members_other in Hnext by done.
        destruct Hgr as [v Hv]. rewrite Hv in Hnext. simpl in Hnext.
        apply rtc_inv in Hr as [<-|(h & Hph & Hr)].
        -- split; [done|]. intros (h & Hph & Hhp)%cyclic_past_inv.
           destruct (Hnext p (reachable_past_member _ _ _ _ _ Hv Hph Hhp)) as [H1 _].
           apply H1, elem_of_union. left. by apply elem_of_singleton.
        -- destruct (Hnext g (reachable_past_member _ _ _ _ _ Hv Hph Hr)) as [H1 H2].
           auto.
Qed.

(** On the way to [g] or round a cycle, either no reference of [key] is
    used or [key] itself is reached. *)
Lemma rtc_refers_past t g :
  rtc (Groups.refers gs) t g →
  rtc (Groups.refers_past gs key) t g ∨ rtc (Groups.refers_past gs key) t key.
Proof.
  induction 1 as [t|t y g Hty _ IH].
  - left. apply rtc_refl.
  - destruct (decide (t = key)) as [->|Hne]; [right; apply rtc_refl|].
    assert (Groups.refers_past gs key t y) as Hp by done.
    destruct IH as [IH|IH]; [left|right]; by eapply rtc_l.
Qed.

Lemma tc_refers_past t g :
  tc (Groups.refers gs) t g →
  tc (Groups.refers_past gs key) t g ∨ rtc (Groups.refers_past gs key) t key.
Proof.
  induction 1 as [t g Htg|t y g Hty _ IH].
  - destruct (decide (t = key)) as [->|Hne]; [right; apply rtc_refl|].
    left. by apply tc_once.
  - destruct (decide (t = key)) as [->|Hne]; [right; apply rtc_refl|].
    assert (Groups.refers_past gs key t y) as Hp by done.
    destruct IH as [IH|IH]; [left; by eapply tc_l|right; by eapply rtc_l].
Qed.

(** A cycle that the pool can reach shows up past [key], or [key] itself
    can be reached. *)
Lemma reachable_cycle_past pool g :
  Groups.reachable gs pool g → Groups.cyclic gs g →
  (Groups.reachable_past gs key pool g ∧ Groups.cyclic_past gs key g) ∨
  Groups.reachable_past gs key pool key.
Proof.
  intros (t & Ht & Hg & Hr) Hcyc.
  destruct (rtc_refers_past t g Hr) as [Hp|Hk]; [|right; by exists t].
  destruct (tc_refers_past g g Hcyc) as [Hc|Hk].
  - left. split; [by exists t|done].
  - right. exists t. split; [done|]. split; [done|]. by etrans.
Qed.
End expand_graph.

(** ** Expansion of a forest of groups *)

Lemma count_app x (l1 l2 : list string) :
  Py.count x (l1 ++ l2) = Py.count x l1 + Py.count x l2.
Proof. induction l1 as [|y l1 IH]; simpl; [done|]. rewrite IH. lia. Qed.

Lemma count_elem x (l : list string) : x ∈ l → 1 ≤ Py.count x l.
Proof.
  induction l as [|y l IH]; [by intros ?%elem_of_nil|].
  intros [->|Hin]%elem_of_cons; simpl.
  - rewrite String.eqb_refl. lia.
  - specialize (IH Hin). lia.
Qed.

Section expand_forest.
Variable gs : gmap string (list string).
Variable key : string.
Variable live : gset string.

Lemma is_group_b_true p : Groups.is_group_b gs p = true ↔ Groups.is_group gs p.
Proof.
  unfold Groups.is_group_b, Groups.is_group.
  by rewrite andb_true_iff, negb_true_iff, bool_decide_eq_true.
Qed.

Lemma names_within_elem (l : list string) t :
  Groups.names_within gs live l = true → t ∈ l → Groups.is_group gs t →
  t ∈ live.
Proof.
  unfold Groups.names_within. rewrite forallb_forall.
  intros Hall Hin%list_elem_of_In Hg. specialize (Hall t Hin).
  apply is_group_b_true in Hg. rewrite Hg in Hall. simpl in Hall.
  by apply bool_decide_eq_true in Hall.
Qed.

Lemma counted_true seen p :
  Groups.counted key live seen p = true ↔
  p ∈ live ∧ (p ∉ seen) ∧ (p ≠ key).
Proof.
  unfold Groups.counted.
  by rewrite andb_true_iff, bool_decide_eq_true, unexpanded_true.
Qed.

Lemma forest_inv_start seen pool :
  Groups.forest gs key live seen pool = true →
  Groups.forest_inv gs key live (Reviewer.mk_state pool seen []).
Proof.
  unfold Groups.forest, Groups.closed.
  intros [[Hpool Hlists]%andb_true_iff Hall]%andb_true_iff.
  rewrite forallb_forall in Hlists, Hall.
  split; [|split].
  - simpl. intros t Ht Hg. by apply (names_within_elem pool).
  - intros g v t Hg Hv Ht Hgt.
    assert (In (g, v) (map_to_list gs)) as Hin
      by (apply list_elem_of_In; by apply elem_of_map_to_list).
    specialize (Hlists _ Hin). simpl in Hlists.
    rewrite bool_decide_true in Hlists by done. simpl in Hlists.
    by apply (names_within_elem v).
  - intros g Hg Hlive. simpl. pose proof Hg as [_ [v Hv]].
    assert (In (g, v) (map_to_list gs)) as Hin
      by (apply list_elem_of_In; by apply elem_of_map_to_list).
    specialize (Hall _ Hin). simpl in Hall.
    apply is_group_b_true in Hg. rewrite Hg in Hall.
    rewrite bool_decide_true in Hall by done. simpl in Hall.
    apply Nat.leb_le in Hall.
    destruct (decide (g ∈ seen ∨ g = key)) as [Hd|Hd]; split; try lia; tauto.
Qed.

Lemma forest_inv_step st st' :
  Groups.forest_inv gs key live st →
  Reviewer.step gs key st = Ret (Some st') →
  Groups.forest_inv gs key live st'.
Proof.
  intros (Hpool & Hclosed & Hinv) Hstep.
  destruct (step_cases gs st) as [He|(rest & p & Hpot & Hc)].
  { rewrite step_empty in Hstep by done. discriminate. }
  assert (∀ g, Groups.references gs key live (Reviewer.seen st) rest g
               ≤ Groups.references gs key live (Reviewer.seen st)
                   (Reviewer.potential st) g) as Hle.
  { intros g. unfold Groups.references. rewrite Hpot, count_app. lia. }
  assert (∀ t, t ∈ rest → Groups.is_group gs t → t ∈ live) as Hrest.
  { intros t Ht. apply Hpool. rewrite Hpot. apply elem_of_app. by left. }
  assert (∀ st1, Reviewer.potential st1 = rest →
                 Reviewer.seen st1 = Reviewer.seen st →
                 Groups.forest_inv gs key live st1) as Hpopped.
  { intros st1 H1 H2. split; [|split]; [by rewrite H1|done|].
    intros g Hg Hl. rewrite H1, H2.
    destruct (Hinv g Hg Hl) as [Ha Hb]. specialize (Hle g).
    split; [lia|]. intros Hd. specialize (Hb Hd). lia. }
  destruct Hc as [Hu|[Hu [Hn|[Hg [Hs|Hs]]]]].
  - rewrite (step_user gs key _ _ _ Hpot Hu) in Hstep. injection Hstep as <-.
    by apply Hpopped.
  - rewrite (step_unknown gs key _ _ _ Hpot Hu Hn) in Hstep. injection Hstep as <-.
    by apply Hpopped.
  - by rewrite (step_seen gs key _ _ _ Hpot Hu Hg Hs) in Hstep.
  - rewrite (step_group gs key _ _ _ Hpot Hu Hg Hs) in Hstep. injection Hstep as <-.
    assert (Groups.is_group gs p) as Hgp by done.
    assert (p ∈ live) as Hlive.
    { apply Hpool; [|done]. rewrite Hpot. apply elem_of_app. right.
      by apply list_elem_of_singleton. }
    assert (p ≠ key) as Hne.
    { intros ->. destruct (Hinv key Hgp Hlive) as [_ H2].
      specialize (H2 (or_intror eq_refl)).
      unfold Groups.references in H2. rewrite Hpot, count_app in H2.
      simpl in H2. rewrite String.eqb_refl in H2. lia. }
    rewrite members_other by done. destruct Hg as [v Hv]. rewrite Hv. simpl.
    assert (∀ g, Groups.references gs key live ({[p]} ∪ Reviewer.seen st)
                   (rest ++ v) g
                 + (if String.eqb p g then 1 else 0)
                 ≤ Groups.references gs key live (Reviewer.seen st)
                     (Reviewer.potential st) g) as Hdrop.
    { intros g. unfold Groups.references. rewrite Hpot, !count_app. simpl.
      assert (Reviewer.weight (Py.count g)
                (Groups.counted key live ({[p]} ∪ Reviewer.seen st))
                (map_to_list gs)
              + Py.count g v
              ≤ Reviewer.weight (Py.count g)
                  (Groups.counted key live (Reviewer.seen st))
                  (map_to_list gs)) as Hw.
      { apply (weight_expand _ _ _ p).
        - intros k. rewrite !counted_true. intros (H1 & H2 & H3).
          split; [done|]. split; [|done]. intros Hin. apply H2, elem_of_union.
          by right.
        - by apply elem_of_map_to_list.
        - by apply counted_true.
        - apply not_true_is_false. rewrite counted_true. intros (_ & Hx & _).
          apply Hx, elem_of_union. left. by apply elem_of_singleton. }
      lia. }
    split; [|split]; [|done|].
    + simpl. intros t [Ht|Ht]%elem_of_app; [by apply Hrest|].
      by apply (Hclosed p v).
    + intros g Hg Hl. simpl. destruct (Hinv g Hg Hl) as [H1 H2].
      specialize (Hdrop g). split; [lia|].
      intros [[Hd|Hd]%elem_of_union|Hd].
      * apply elem_of_singleton in Hd as ->. rewrite String.eqb_refl in Hdrop. lia.
      * specialize (H2 (or_introl Hd)). lia.
      * specialize (H2 (or_intror Hd)). lia.
Qed.

Lemma forest_inv_no_raise st e :
  Groups.forest_inv gs key live st → Reviewer.step gs key st ≠ Raise e.
Proof.
  intros (Hpool & _ & Hinv).
  destruct (step_cases gs st) as [He|(rest & p & Hpot & Hc)].
  { by rewrite step_empty. }
  destruct Hc as [Hu|[Hu [Hn|[Hg [Hs|Hs]]]]].
  - by rewrite (step_user gs key _ _ _ Hpot Hu).
  - by rewrite (step_unknown gs key _ _ _ Hpot Hu Hn).
  - exfalso.
    assert (p ∈ live) as Hlive.
    { apply Hpool; [|done]. rewrite Hpot. apply elem_of_app. right.
      by apply list_elem_of_singleton. }
    destruct (Hinv p (conj Hu Hg) Hlive) as [_ H2].
    specialize (H2 (or_introl Hs)).
    unfold Groups.references in H2. rewrite Hpot, count_app in H2.
    simpl in H2. rewrite String.eqb_refl in H2. lia.
  - by rewrite (step_group gs key _ _ _ Hpot Hu Hg Hs).
Qed.

Lemma expand_forest fuel st e :
  Groups.forest_inv gs key live st → Reviewer.expand gs key fuel st ≠ Raise e.
Proof.
  revert st. induction fuel as [|fuel IH]; intros st Hinv; simpl;
    pose proof (forest_inv_no_raise st e Hinv) as Hn;
    destruct (Reviewer.step gs key st) as [[st'|]|e'|] eqn:E; try done.
  - congruence.
  - apply IH. by apply (forest_inv_step st).
  - congruence.
Qed.
End expand_forest.

(** ** Shape of the results of the expansion *)

Section expand_results.
Variable gs : gmap string (list string).
Variable key : string.

(** The only exception of the loop is the assertion on a seen group. *)
Lemma step_raise st e :
  Reviewer.step gs key st = Raise e →
  ∃ rest q, Reviewer.potential st = rest ++ [q] ∧ Groups.is_group gs q ∧
            q ∈ Reviewer.seen st ∧ e = AssertionError (Reviewer.cycle_msg q).
Proof.
  destruct (step_cases gs st) as [He|(rest & p & Hpot & Hc)].
  { by rewrite step_empty. }
  destruct Hc as [Hu|[Hu [Hn|[Hg [Hs|Hs]]]]].
  - by rewrite (step_user gs key _ _ _ Hpot Hu).
  - by rewrite (step_unknown gs key _ _ _ Hpot Hu Hn).
  - rewrite (step_seen gs key _ _ _ Hpot Hu Hg Hs). intros [= <-].
    by exists rest, p.
  - by rewrite (step_group gs key _ _ _ Hpot Hu Hg Hs).
Qed.

Lemma expand_raise fuel st e :
  Reviewer.expand gs key fuel st = Raise e →
  ∃ q, Groups.is_group gs q ∧ e = AssertionError (Reviewer.cycle_msg q).
Proof.
  revert st. induction fuel as [|fuel IH]; intros st; simpl;
    destruct (Reviewer.step gs key st) as [[st'|]|e'|] eqn:E; try done.
  - intros [= <-]. apply step_raise in E as (rest & q & _ & Hq & _ & ->). by exists q.
  - apply IH.
  - intros [= <-]. apply step_raise in E as (rest & q & _ & Hq & _ & ->). by exists q.
Qed.

Lemma token_members pool rest p t :
  (∀ x, x ∈ rest → Groups.token gs pool x) →
  t ∈ Reviewer.members gs key rest p → Groups.token gs pool t.
Proof.
  intros Hrest. unfold Reviewer.members.
  destruct (String.eqb p key); [apply Hrest|].
  destruct (gs !! p) as [v|] eqn:Hv; simpl; [|by intros ?%elem_of_nil].
  intros Ht. right. by exists p, v.
Qed.

(** Only [@]-tokens, without their prefix, are ever appended. *)
Lemma expand_literal pool fuel st out :
  (∀ x, x ∈ Reviewer.potential st → Groups.token gs pool x) →
  (∀ r, r ∈ Reviewer.reviewers st → Groups.literal_user gs pool r) →
  Reviewer.expand gs key fuel st = Ret out →
  ∀ r, r ∈ out → Groups.literal_user gs pool r.
Proof.
  revert st. induction fuel as [|fuel IH]; intros st Htok Hrev; simpl.
  - destruct (Reviewer.step gs key st) as [[st'|]|e'|] eqn:E; try done.
    by intros [= <-].
  - destruct (step_cases gs st) as [He|(rest & p & Hpot & Hc)].
    { rewrite step_empty by done. by intros [= <-]. }
    assert (∀ x, x ∈ rest → Groups.token gs pool x) as Hrest.
    { intros x Hx. apply Htok. rewrite Hpot. apply elem_of_app. by left. }
    assert (Groups.token gs pool p) as Hp.
    { apply Htok. rewrite Hpot. apply elem_of_app. right. by apply list_elem_of_singleton. }
    destruct Hc as [Hu|[Hu [Hn|[Hg [Hs|Hs]]]]].
    + rewrite (step_user gs key _ _ _ Hpot Hu). apply IH; simpl; [done|].
      intros r [Hr|Hr]%elem_of_app; [by apply Hrev|].
      apply list_elem_of_singleton in Hr as ->. by exists p.
    + rewrite (step_unknown gs key _ _ _ Hpot Hu Hn). by apply IH.
    + by rewrite (step_seen gs key _ _ _ Hpot Hu Hg Hs).
    + rewrite (step_group gs key _ _ _ Hpot Hu Hg Hs). apply IH; simpl; [|done].
      intros x [Hx|Hx]%elem_of_app; [by apply Hrest|].
      by apply (token_members pool rest p).
Qed.


End expand_results.

(** ** The outcome of the expansion *)

Lemma expand_aliases_outcome (gs : gmap string (list string)) (key : string)
    (pool : list string) :
  (∃ out, Reviewer.expand_aliases gs key pool = Ret out ∧
          ∀ r, r ∈ out → Groups.literal_user gs pool r) ∨
  (∃ q, Groups.is_group gs q ∧
        Reviewer.expand_aliases gs key pool
        = Raise (AssertionError (Reviewer.cycle_msg q))).
Proof.
  pose proof (expand_aliases_total gs key pool) as Htot.
  unfold Reviewer.expand_aliases in *.
  destruct (Reviewer.expand gs key _ _) as [out|e|] eqn:Hrun; [| |done].
  - left. exists out. split; [done|].
    refine (expand_literal gs key pool _ _ _ _ _ Hrun); simpl.
    + intros x Hx. by left.
    + by intros r ?%elem_of_nil.
  - right. apply expand_raise in Hrun as (q & Hq & ->). by exists q.
Qed.

(** C3, as stated, fails: a group that refers to itself is only noticed
    when the expansion reaches it, and the group of the fallback pool
    ([core]) is never marked as seen before its own list is expanded. *)
Lemma unnoticed_cycle_counterexample :
  let unreachable : gmap string (list string) :=
    <["all" := ["@a"]]> {[ "docs" := ["docs"] ]} in
  let fallback : gmap string (list string) :=
    <["all" := []]> {[ "core" := ["@a"; "core"] ]} in
  (Groups.cyclic unreachable "docs" ∧
   Reviewer.choose_reviewer (mk_config ∅ unreachable [] None None []) [] "" "bob" 0
   = Ret (Some "a")) ∧
  (Groups.cyclic fallback "core" ∧
   Reviewer.pool fallback ∅ None = Ret ("core", ["@a"; "core"]) ∧
   Groups.reachable fallback ["@a"; "core"] "core" ∧
   Reviewer.choose_reviewer (mk_config ∅ fallback [] None None []) [] "" "bob" 0
   = Ret (Some "a")).
Proof.
  intros unreachable fallback.
  assert (Groups.is_group unreachable "docs") as Hd by (split; [done|by eexists]).
  assert (Groups.is_group fallback "core") as Hc by (split; [done|by eexists]).
  split; [split|split; [|split; [|split]]].
  - apply tc_once. split; [done|]. split; [done|].
    exists ["docs"]. split; [done|]. by apply list_elem_of_singleton.
  - vm_compute. reflexivity.
  - apply tc_once. split; [done|]. split; [done|].
    exists ["@a"; "core"]. split; [done|]. apply list_elem_of_In. simpl. auto.
  - vm_compute. reflexivity.
  - exists "core". split; [apply list_elem_of_In; simpl; auto|]. split; [done|].
    apply rtc_refl.
  - vm_compute. reflexivity.
Qed.

(** C3, amended: when a group that the pool can reach lies on a cycle of
    references, [choose_reviewer] stops with the assertion on a seen group:
    the expansion neither loops nor returns a shortened list.  This holds
    for every cycle when the pool is the [all] list (with the reviewers of
    the most changed directory), and in any case for the paths and cycles
    that use no reference made by the group of the pool itself. *)
Theorem reachable_cycle_is_fatal (cfg : repo_config)
    (global_groups : list (string * list string)) (diff exclude : string)
    (rnd : nat) (gs : gmap string (list string)) (most_changed : option string)
    (key : string) (potential : list string) (g : string) :
  Reviewer.merge_groups (cfg_groups cfg) global_groups = Ret gs →
  Scan.most_changed (cfg_dirs cfg) diff = Ret most_changed →
  Reviewer.pool gs (cfg_dirs cfg) most_changed = Ret (key, potential) →
  (key = "all" ∧ Groups.reachable gs potential g ∧ Groups.cyclic gs g) ∨
  (Groups.reachable_past gs key potential g ∧ Groups.cyclic_past gs key g) →
  ∃ q, Groups.is_group gs q ∧
       Reviewer.choose_reviewer cfg global_groups diff exclude rnd
       = Raise (AssertionError (Reviewer.cycle_msg q)).
Proof.
  intros Hm Hs Hp Hcycle.
  destruct (expand_aliases_outcome gs key potential)
    as [(out & Hrun & _)|(q & Hq & Hrun)].
  - exfalso. unfold Reviewer.expand_aliases in Hrun.
    pose proof (expand_ret_reachable gs key _ _ out Hrun) as Hclean.
    simpl in Hclean.
    destruct Hcycle as [(-> & Hreach & Hcyc)|[Hreach Hcyc]].
    + destruct (reachable_cycle_past gs "all" potential g Hreach Hcyc)
        as [[Hr Hc]|Hr].
      * by destruct (Hclean g Hr).
      * destruct (Hclean "all" Hr) as [Hall _].
        by apply Hall, elem_of_singleton.
    + by destruct (Hclean g Hreach).
  - exists q. split; [done|]. unfold Reviewer.choose_reviewer.
    rewrite Hm; simpl. rewrite Hs; simpl. rewrite Hp; simpl. by rewrite Hrun.
Qed.

Lemma reachable_cycle_is_fatal_witness :
  let gs : gmap string (list string) :=
    <["all" := ["@a"; "compiler"]]>
      (<["compiler" := ["@b"; "types"]]> {[ "types" := ["@c"; "compiler"] ]}) in
  let cfg := mk_config ∅ gs [] None None [] in
  let pool := ["@a"; "compiler"] in
  Reviewer.merge_groups (cfg_groups cfg) [] = Ret gs ∧
  Scan.most_changed (cfg_dirs cfg) "" = Ret None ∧
  Reviewer.pool gs (cfg_dirs cfg) None = Ret ("all", pool) ∧
  ((("all" : string) = "all" ∧ Groups.reachable gs pool "types" ∧
    Groups.cyclic gs "types") ∨
   (Groups.reachable_past gs "all" pool "types" ∧
    Groups.cyclic_past gs "all" "types")) ∧
  ∃ q, Groups.is_group gs q ∧
       Reviewer.choose_reviewer cfg [] "" "bob" 0
       = Raise (AssertionError (Reviewer.cycle_msg q)).
Proof.
  intros gs cfg pool.
  assert (Groups.is_group gs "compiler") as Hc by (split; [done|by eexists]).
  assert (Groups.is_group gs "types") as Ht by (split; [done|by eexists]).
  assert (Groups.refers gs "compiler" "types") as Hct.
  { split; [done|]. split; [done|]. exists ["@b"; "types"].
    split; [done|]. apply list_elem_of_In. simpl. auto. }
  assert (Groups.refers gs "types" "compiler") as Htc.
  { split; [done|]. split; [done|]. exists ["@c"; "compiler"].
    split; [done|]. apply list_elem_of_In. simpl. auto. }
  assert (Reviewer.merge_groups (cfg_groups cfg) [] = Ret gs) as H1 by reflexivity.
  assert (Scan.most_changed (cfg_dirs cfg) "" = Ret None) as H2 by reflexivity.
  assert (Reviewer.pool gs (cfg_dirs cfg) None = Ret ("all", pool))
    as H3 by reflexivity.
  assert (Groups.reachable gs pool "types") as H4.
  { exists "compiler". split; [apply list_elem_of_In; simpl; auto|].
    split; [done|]. by apply rtc_once. }
  assert (Groups.cyclic gs "types") as H5.
  { eapply tc_l; [exact Htc|]. by apply tc_once. }
  assert ((("all" : string) = "all" ∧ Groups.reachable gs pool "types" ∧
           Groups.cyclic gs "types") ∨
          (Groups.reachable_past gs "all" pool "types" ∧
           Groups.cyclic_past gs "all" "types")) as H6
    by (left; split; [reflexivity|split; [exact H4|exact H5]]).
  split; [exact H1|]. split; [exact H2|]. split; [exact H3|]. split; [exact H6|].
  exact (reachable_cycle_is_fatal cfg [] "" "bob" 0 gs None "all" pool
           "types" H1 H2 H3 H6).
Defined.

(** In the fallback a cycle that does not go through [core] is met too. *)
Example fallback_cycle_message :
  Reviewer.choose_reviewer
    (mk_config ∅
       (<["all" := []]>
          (<["core" := ["@a"; "compiler"]]>
             (<["compiler" := ["@b"; "types"]]>
                {[ "types" := ["@c"; "compiler"] ]})))
       [] None None [])
    [] "" "bob" 0
  = Raise (AssertionError "group compiler refers to itself").
Proof. vm_compute. reflexivity. Qed.

Example reachable_cycle_message :
  Reviewer.choose_reviewer
    (mk_config ∅
       (<["all" := ["@a"; "compiler"]]>
          (<["compiler" := ["@b"; "types"]]> {[ "types" := ["@c"; "compiler"] ]}))
       [] None None [])
    [] "" "bob" 0
  = Raise (AssertionError "group compiler refers to itself").
Proof. vm_compute. reflexivity. Qed.

(** C4, as stated, fails: two groups that share a subgroup form no cycle,
    yet the second visit of the subgroup stops the expansion. *)
Lemma diamond_counterexample :
  let gs : gmap string (list string) :=
    <["all" := ["compiler"; "libs"]]>
      (<["compiler" := ["types"]]>
         (<["libs" := ["types"]]> {[ "types" := ["@c"] ]})) in
  (∀ g, ¬ Groups.cyclic gs g) ∧
  Reviewer.choose_reviewer (mk_config ∅ gs [] None None []) [] "" "bob" 0
  = Raise (AssertionError "group types refers to itself").
Proof.
  intros gs. split; [|vm_compute; reflexivity].
  set (rank := fun g : string =>
                 if String.eqb g "all" then 3
                 else if String.eqb g "types" then 1 else 2).
  assert (∀ g h, Groups.refers gs g h → rank h < rank g) as Hstep.
  { intros g h (_ & [Hh _] & v & Hv & Hin). subst gs.
    apply lookup_insert_Some in Hv as [[<- <-]|[_ Hv]].
    { apply list_elem_of_In in Hin. simpl in Hin.
      destruct Hin as [<-|[<-|[]]]; vm_compute; lia. }
    apply lookup_insert_Some in Hv as [[<- <-]|[_ Hv]].
    { apply list_elem_of_singleton in Hin as ->. vm_compute; lia. }
    apply lookup_insert_Some in Hv as [[<- <-]|[_ Hv]].
    { apply list_elem_of_singleton in Hin as ->. vm_compute; lia. }
    apply lookup_singleton_Some in Hv as [<- <-].
    apply list_elem_of_singleton in Hin as ->.
    discriminate Hh. }
  assert (∀ g h, tc (Groups.refers gs) g h → rank h < rank g) as Hpath.
  { induction 1 as [g h H1|g h k H1 _ IH].
    - by apply Hstep.
    - apply Hstep in H1. lia. }
  intros g Hcyc%Hpath. lia.
Qed.


(** C4, amended: let [live] hold every group that the pool can reach.  When
    every group of [live] is named at most once by the pool and by the
    lists of the other groups of [live], and [all] and the group of the
    pool are not named there at all, the expansion ends normally and yields
    only literal usernames: [@]-tokens of the configuration without the
    prefix. *)
Theorem forest_expands_to_users (gs : gmap string (list string))
    (key : string) (live : gset string) (pool : list string) :
  Groups.forest gs key live {["all"]} pool = true →
  ∃ out, Reviewer.expand_aliases gs key pool = Ret out ∧
         ∀ r, r ∈ out → Groups.literal_user gs pool r.
Proof.
  intros Hforest.
  destruct (expand_aliases_outcome gs key pool) as [Hok|(q & _ & Hrun)]; [done|].
  exfalso. unfold Reviewer.expand_aliases in Hrun.
  refine (expand_forest gs key live _ _ _ _ Hrun).
  by apply forest_inv_start.
Qed.

Lemma forest_expands_to_users_witness :
  let gs : gmap string (list string) :=
    <["all" := ["@a"; "compiler"; "libs"]]>
      (<["compiler" := ["@b"; "types"]]>
         (<["libs" := ["@d"]]>
            (<["types" := ["@c"]]> {[ "retired" := ["types"; "types"] ]}))) in
  let live : gset string := {[ "compiler"; "libs"; "types" ]} in
  let pool := ["@a"; "compiler"; "libs"] in
  Groups.forest gs "all" live {["all"]} pool = true ∧
  ∃ out, Reviewer.expand_aliases gs "all" pool = Ret out ∧
         ∀ r, r ∈ out → Groups.literal_user gs pool r.
Proof.
  intros gs live pool.
  assert (Groups.forest gs "all" live {["all"]} pool = true) as H1
    by (vm_compute; reflexivity).
  split; [exact H1|]. exact (forest_expands_to_users gs "all" live pool H1).
Defined.

Example forest_expansion :
  Reviewer.expand_aliases
    (<["all" := ["@a"; "compiler"; "libs"]]>
       (<["compiler" := ["@b"; "types"]]>
          (<["libs" := ["@d"]]> {[ "types" := ["@c"] ]})))
    "all" ["@a"; "compiler"; "libs"]
  = Ret ["d"; "c"; "b"; "a"].
Proof. vm_compute. reflexivity. Qed.




(** The diamond and a reference to [all], run through [choose_reviewer]. *)
Example diamond_is_fatal :
  Reviewer.choose_reviewer
    (mk_config ∅
       (<["all" := ["compiler"; "libs"]]>
          (<["compiler" := ["types"]]>
             (<["libs" := ["types"]]> {[ "types" := ["@c"] ]})))
       [] None None [])
    [] "" "bob" 0
  = Raise (AssertionError "group types refers to itself").
Proof. vm_compute. reflexivity. Qed.

Example all_reference_is_fatal :
  Reviewer.choose_reviewer
    (mk_config ∅
       (<["all" := ["@a"; "libs"]]> {[ "libs" := ["@d"; "all"] ]})
       [] None None [])
    [] "" "bob" 0
  = Raise (AssertionError "group all refers to itself").
Proof. vm_compute. reflexivity. Qed.

(** ** Excluding the author *)

Lemma remove_first_count x y (l : list string) :
  Py.count y (Py.remove_first x l)
  = Py.count y l - (if String.eqb x y then Nat.min 1 (Py.count x l) else 0).
Proof.
  induction l as [|z l IH]; simpl; [by destruct (String.eqb x y)|].
  destruct (String.eqb_spec z x) as [->|Hzx]; simpl.
  - destruct (String.eqb_spec x y) as [->|Hxy]; simpl; lia.
  - rewrite IH. destruct (String.eqb_spec x y) as [->|Hxy]; simpl; [|lia].
    destruct (String.eqb_spec z y) as [->|Hzy]; [done|]. simpl. lia.
Qed.

Lemma count_zero x (l : list string) : Py.count x l = 0 ↔ x ∉ l.
Proof.
  split.
  - intros H0 Hin%count_elem. lia.
  - induction l as [|y l IH]; simpl; [done|].
    intros Hn. destruct (String.eqb_spec y x) as [->|Hne].
    + exfalso. apply Hn. by apply elem_of_cons; left.
    + simpl. apply IH. intros Hin. apply Hn. by apply elem_of_cons; right.
Qed.

Lemma choice_elem rnd (l : list string) r :
  Reviewer.choice rnd l = Some r → r ∈ l.
Proof. unfold Reviewer.choice. apply list_elem_of_lookup_2. Qed.

(** When the author occurs at most once in the expanded list, the author
    is never returned. *)
Lemma author_listed_once_not_chosen (cfg : repo_config)
    (global_groups : list (string * list string)) (diff exclude : string)
    (rnd : nat) gs most_changed kp expanded :
  Reviewer.merge_groups (cfg_groups cfg) global_groups = Ret gs →
  Scan.most_changed (cfg_dirs cfg) diff = Ret most_changed →
  Reviewer.pool gs (cfg_dirs cfg) most_changed = Ret kp →
  Reviewer.expand_aliases gs kp.1 kp.2 = Ret expanded →
  Py.count exclude expanded ≤ 1 →
  Reviewer.choose_reviewer cfg global_groups diff exclude rnd ≠ Ret (Some exclude).
Proof.
  intros Hm Hs Hp He Hc. unfold Reviewer.choose_reviewer.
  rewrite Hm; simpl. rewrite Hs; simpl. rewrite Hp; simpl. rewrite He; simpl.
  set (remaining := if Py.mem exclude expanded
                    then Py.remove_first exclude expanded else expanded).
  assert (exclude ∉ remaining) as Hnot.
  { subst remaining. destruct (Py.mem exclude expanded) eqn:Hmem.
    - apply count_zero. rewrite remove_first_count, String.eqb_refl. lia.
    - intros Hin%mem_true. congruence. }
  destruct remaining as [|r rs]; [done|].
  intros [= Hch]. apply choice_elem in Hch. done.
Qed.

Lemma choice_any (l : list string) x :
  x ∈ l → ∃ rnd, Reviewer.choice rnd l = Some x.
Proof.
  intros (i & Hi)%list_elem_of_lookup. exists i. unfold Reviewer.choice.
  rewrite Nat.mod_small; [done|]. by apply lookup_lt_Some in Hi.
Qed.

(** When the author occurs twice or more, some draw returns the author. *)
Lemma author_listed_twice_can_be_chosen (cfg : repo_config)
    (global_groups : list (string * list string)) (diff exclude : string)
    gs most_changed kp expanded :
  Reviewer.merge_groups (cfg_groups cfg) global_groups = Ret gs →
  Scan.most_changed (cfg_dirs cfg) diff = Ret most_changed →
  Reviewer.pool gs (cfg_dirs cfg) most_changed = Ret kp →
  Reviewer.expand_aliases gs kp.1 kp.2 = Ret expanded →
  2 ≤ Py.count exclude expanded →
  ∃ rnd, Reviewer.choose_reviewer cfg global_groups diff exclude rnd
         = Ret (Some exclude).
Proof.
  intros Hm Hs Hp He Hc.
  assert (exclude ∈ expanded) as Hin.
  { destruct (decide (exclude ∈ expanded)) as [|Hn]; [done|].
    apply count_zero in Hn. lia. }
  assert (exclude ∈ Py.remove_first exclude expanded) as Hstill.
  { destruct (decide (exclude ∈ Py.remove_first exclude expanded)) as [|Hn];
      [done|].
    apply count_zero in Hn. rewrite remove_first_count, String.eqb_refl in Hn.
    lia. }
  destruct (choice_any _ _ Hstill) as [rnd Hrnd]. exists rnd.
  unfold Reviewer.choose_reviewer.
  rewrite Hm; simpl. rewrite Hs; simpl. rewrite Hp; simpl. rewrite He; simpl.
  apply mem_true in Hin. rewrite Hin.
  destruct (Py.remove_first exclude expanded) as [|r rs]; [|by rewrite Hrnd].
  by apply elem_of_nil in Hstill.
Qed.

(** When the author is the one candidate, listed once, nobody is chosen. *)
Lemma only_author_listed_gives_none (cfg : repo_config)
    (global_groups : list (string * list string)) (diff exclude : string)
    (rnd : nat) gs most_changed kp :
  Reviewer.merge_groups (cfg_groups cfg) global_groups = Ret gs →
  Scan.most_changed (cfg_dirs cfg) diff = Ret most_changed →
  Reviewer.pool gs (cfg_dirs cfg) most_changed = Ret kp →
  Reviewer.expand_aliases gs kp.1 kp.2 = Ret [exclude] →
  Reviewer.choose_reviewer cfg global_groups diff exclude rnd = Ret None.
Proof.
  intros Hm Hs Hp He. unfold Reviewer.choose_reviewer.
  rewrite Hm; simpl. rewrite Hs; simpl. rewrite Hp; simpl. rewrite He; simpl.
  by rewrite String.eqb_refl.
Qed.

(** C1 fails on the code: [reviewers.remove(exclude)] drops one occurrence
    only.  An author who is listed under [all] and again for the most
    changed directory stays in the list and is returned for every draw. *)
Theorem author_listed_twice_is_chosen (rnd : nat) :
  Reviewer.choose_reviewer
    (mk_config {[ "src/liba" := ["@alice"] ]} {[ "all" := ["@alice"] ]}
       [] None None [])
    []
    "diff --git a/src/liba/x.rs b/src/liba/x.rs
+line"
    "alice" rnd
  = Ret (Some "alice").
Proof. vm_compute. reflexivity. Qed.

(** ** The mention scan *)

Lemma entry_step_matches full acc entry :
  Mention.entry_step full acc entry
  = if Mention.matches full entry && negb (Py.mem entry acc)
    then acc ++ [entry] else acc.
Proof.
  unfold Mention.entry_step, Mention.matches.
  destruct (Py.startswith full entry), (Py.mem entry acc),
    (Py.endswith entry ".rs" && Py.endswith full entry); done.
Qed.

Lemma fold_entry_step full (keys acc : list string) :
  fold_left (Mention.entry_step full) keys acc
  = acc ++ first_occurrences acc
             (filter (fun e => Mention.matches full e = true) keys).
Proof.
  revert acc. induction keys as [|e keys IH]; intros acc; simpl.
  { by rewrite app_nil_r. }
  rewrite entry_step_matches, filter_cons.
  destruct (decide (Mention.matches full e = true)) as [Hm|Hm].
  - rewrite Hm. simpl.
    destruct (Py.mem e acc); simpl; [apply IH|].
    rewrite IH. by rewrite <- app_assoc.
  - apply not_true_is_false in Hm. rewrite Hm. apply IH.
Qed.

(** The matches that one line adds. *)
Lemma line_step_to_mention keys st line :
  Mention.to_mention (Mention.line_step keys st line)
  = Mention.to_mention st
    ++ first_occurrences (Mention.to_mention st)
         (if Scan.is_header line && Py.nonempty (Scan.header_path line)
          then filter (fun e => Mention.matches (Scan.header_path line) e = true) keys
          else []).
Proof.
  unfold Mention.line_step.
  destruct (Scan.is_header line); simpl; [|by rewrite app_nil_r].
  destruct (split_cons_inv "/" (Scan.header_path line)) as (w & ws & Hs).
  rewrite Hs, <- Hs. change "/" with (String "/"%char "") at 1 2.
  rewrite join_split.
  destruct (Py.nonempty (Scan.header_path line)); simpl.
  - apply fold_entry_step.
  - by rewrite app_nil_r.
Qed.

Lemma fold_line_step keys (ls : list string) st :
  Mention.to_mention (fold_left (Mention.line_step keys) ls st)
  = Mention.to_mention st
    ++ first_occurrences (Mention.to_mention st)
         (flat_map (fun path => filter (fun e => Mention.matches path e = true) keys)
            (filter (fun p => Py.nonempty p = true)
               (map Scan.header_path
                  (filter (fun l => Scan.is_header l = true) ls)))).
Proof.
  revert st. induction ls as [|l ls IH]; intros st; simpl.
  { by rewrite app_nil_r. }
  rewrite IH, line_step_to_mention, <- app_assoc. f_equal.
  rewrite filter_cons.
  destruct (decide (Scan.is_header l = true)) as [Hh|Hh].
  - rewrite Hh. simpl. rewrite filter_cons.
    destruct (decide (Py.nonempty (Scan.header_path l) = true)) as [Hp|Hp].
    + rewrite Hp. simpl. by rewrite first_occurrences_app.
    + apply not_true_is_false in Hp. rewrite Hp. simpl. by rewrite app_nil_r.
  - apply not_true_is_false in Hh. rewrite Hh. simpl. by rewrite app_nil_r.
Qed.

Lemma matched_keys_spec (cfg : repo_config) (diff : string) :
  Mention.matched_keys cfg diff
  = if decide (cfg_dirs cfg = ∅) then []
    else Mention.matched (Dict.keys (cfg_mentions cfg)) diff.
Proof.
  unfold Mention.matched_keys. case_decide; [done|].
  by rewrite fold_line_step.
Qed.

Lemma matched_in_keys keys diff k :
  k ∈ Mention.matched keys diff → k ∈ keys.
Proof.
  unfold Mention.matched, Mention.encounters.
  intros [_ Hin]%first_occurrences_fresh.
  apply list_elem_of_In, in_flat_map in Hin as (path & _ & Hin).
  apply list_elem_of_In in Hin. by apply list_elem_of_filter in Hin as [_ ?].
Qed.

Lemma dict_get_key {V} k (d : list (string * V)) :
  k ∈ Dict.keys d → is_Some (Dict.get k d).
Proof.
  induction d as [|[k0 v0] d IH]; simpl; [by intros ?%elem_of_nil|].
  destruct (String.eqb_spec k0 k) as [->|Hne]; [by eexists|].
  intros [->|Hin]%elem_of_cons; [done|by apply IH].
Qed.

Lemma collect_rules (ms : list (string * mention)) (ks : list string) acc :
  (∀ k, k ∈ ks → k ∈ Dict.keys ms) →
  ∃ rules, for_each (Mention.collect_step ms) ks acc = Ret (acc ++ rules) ∧
           Forall2 (fun k r => Dict.get k ms = Some r) ks rules.
Proof.
  revert acc. induction ks as [|k ks IH]; intros acc Hks; simpl.
  { exists []. by rewrite app_nil_r. }
  destruct (dict_get_key k ms) as [r Hr]; [apply Hks; by apply elem_of_cons; left|].
  unfold Mention.collect_step at 1. rewrite Hr. simpl.
  destruct (IH (acc ++ [r])) as (rules & -> & Hall).
  { intros k' Hk'. apply Hks. by apply elem_of_cons; right. }
  exists (r :: rules). split; [by rewrite <- app_assoc|by constructor].
Qed.

(** C7, as stated, fails: with no directory table the diff is not scanned,
    and a rule whose pattern matches a changed path is not returned. *)
Lemma mentions_need_dirs_counterexample :
  let rule := mk_mention None None ["@dave"] in
  let cfg := mk_config ∅ {[ "all" := ["@erin"] ]} [("src/", rule)] None None [] in
  let diff := "diff --git a/src/liba/x.rs b/src/liba/x.rs
+line" in
  Mention.matched (Dict.keys (cfg_mentions cfg)) diff = ["src/"] ∧
  Mention.get_to_mention cfg diff = Ret [].
Proof. split; vm_compute; reflexivity. Qed.

(** C7, amended: when the directory table is not empty, [get_to_mention]
    tests every pattern against the path of every header and returns the
    rules of the matched patterns, each pattern once, in the order of its
    first match. *)
Theorem get_to_mention_first_matches (cfg : repo_config) (diff : string) :
  cfg_dirs cfg ≠ ∅ →
  ∃ rules,
    Mention.get_to_mention cfg diff = Ret rules ∧
    NoDup (Mention.matched (Dict.keys (cfg_mentions cfg)) diff) ∧
    Forall2 (fun k r => Dict.get k (cfg_mentions cfg) = Some r)
      (Mention.matched (Dict.keys (cfg_mentions cfg)) diff) rules.
Proof.
  intros Hdirs. unfold Mention.get_to_mention.
  rewrite matched_keys_spec, decide_False by done.
  destruct (collect_rules (cfg_mentions cfg)
              (Mention.matched (Dict.keys (cfg_mentions cfg)) diff) [])
    as (rules & Hrun & Hall).
  { intros k. apply matched_in_keys. }
  exists rules. split; [done|]. split; [apply first_occurrences_NoDup|done].
Qed.

Lemma get_to_mention_first_matches_witness :
  let cfg := mk_config {[ "src/liba" := ["@erin"] ]} {[ "all" := ["@erin"] ]}
               [("src/", mk_mention None None ["@dave"]);
                ("mod.rs", mk_mention (Some "a module root changed") None ["@fay"])]
               None None [] in
  let diff := "diff --git a/src/liba/mod.rs b/src/liba/mod.rs
+line
diff --git a/src/libb/x.rs b/src/libb/x.rs
+line" in
  cfg_dirs cfg ≠ ∅ ∧
  ∃ rules,
    Mention.get_to_mention cfg diff = Ret rules ∧
    NoDup (Mention.matched (Dict.keys (cfg_mentions cfg)) diff) ∧
    Forall2 (fun k r => Dict.get k (cfg_mentions cfg) = Some r)
      (Mention.matched (Dict.keys (cfg_mentions cfg)) diff) rules.
Proof.
  intros cfg diff.
  assert (cfg_dirs cfg ≠ ∅) as H1 by apply map_non_empty_singleton.
  split; [exact H1|]. exact (get_to_mention_first_matches cfg diff H1).
Defined.

Lemma get_to_mention_without_dirs (cfg : repo_config) (diff : string) :
  cfg_dirs cfg = ∅ → Mention.get_to_mention cfg diff = Ret [].
Proof.
  intros Hdirs. unfold Mention.get_to_mention.
  by rewrite matched_keys_spec, decide_True.
Qed.

(** ** The aggregated comment of [run_commands] *)

(** Appending a piece after a blank line when the text is not empty. *)
Lemma fold_pieces (sep : string) (pieces done : list string) :
  Forall (fun x => Py.nonempty x = true) done →
  Forall (fun x => Py.nonempty x = true) pieces →
  fold_left (fun acc x => (if Py.nonempty acc then acc +:+ sep else acc) +:+ x)
    pieces (Py.join sep done)
  = Py.join sep (done ++ pieces).
Proof.
  revert done. induction pieces as [|x pieces IH]; intros done Hdone Hp; simpl.
  { by rewrite app_nil_r. }
  apply Forall_cons in Hp as [Hx Hp].
  assert ((if Py.nonempty (Py.join sep done) then Py.join sep done +:+ sep
           else Py.join sep done) +:+ x = Py.join sep (done ++ [x])) as ->.
  { rewrite join_snoc. destruct done as [|y done]; [done|].
    rewrite join_nonempty by done. by rewrite app_assoc_s. }
  rewrite IH; [by rewrite <- app_assoc|by apply Forall_app; split; [|constructor]|done].
Qed.

Lemma block_nonempty user m : Py.nonempty (Commands.block user m) = true.
Proof. unfold Commands.block. by apply nonempty_app_r. Qed.

Lemma trailer_nonempty item : Py.nonempty (Commands.trailer item) = true.
Proof. unfold Commands.trailer. by apply nonempty_app_r. Qed.

Lemma fold_mention_step user sha (l : list mention) acc cmds :
  fold_left (Commands.mention_step user sha) l (acc, cmds)
  = (fold_left (fun acc x => (if Py.nonempty acc then acc +:+ Commands.blank
                              else acc) +:+ x)
       (map (Commands.block user) l) acc,
     fold_left (fun cmds m => match rule_command m with
                              | Some cmd => Dict.set cmd sha cmds
                              | None => cmds
                              end) l cmds).
Proof.
  revert acc cmds. induction l as [|m l IH]; intros acc cmds; [done|].
  simpl. rewrite <- IH. done.
Qed.

Lemma fold_trailer_step (cmds : list (string * string)) acc :
  fold_left Commands.trailer_step cmds acc
  = fold_left (fun acc x => (if Py.nonempty acc then acc +:+ Commands.blank
                             else acc) +:+ x)
      (map Commands.trailer cmds) acc.
Proof.
  revert acc. induction cmds as [|c cmds IH]; intros acc; [done|].
  simpl. rewrite <- IH. done.
Qed.

(** For a non-empty list of rules a comment is posted, and it is the
    aggregate of the specification. *)
Lemma run_commands_aggregate (to_mention : list mention) (user sha : string) :
  to_mention ≠ [] →
  Commands.run_commands to_mention user sha
  = Some (Commands.aggregate user sha to_mention).
Proof.
  intros Hne. unfold Commands.run_commands, Commands.aggregate.
  destruct to_mention as [|m l]; [done|].
  rewrite fold_mention_step. cbn [fst snd].
  change "" with (Py.join Commands.blank []).
  rewrite fold_pieces; [|constructor|].
  2:{ apply Forall_forall. intros x (m' & -> & _)%list_elem_of_fmap.
      apply block_nonempty. }
  rewrite fold_trailer_step, fold_pieces.
  - unfold Commands.commands_of. rewrite join_nonempty; [done|done|].
    apply Forall_forall. intros x [Hx|Hx]%elem_of_app.
    + apply list_elem_of_fmap in Hx as (m' & -> & _). apply block_nonempty.
    + apply list_elem_of_fmap in Hx as (m' & -> & _). apply trailer_nonempty.
  - apply Forall_forall. intros x (m' & -> & _)%list_elem_of_fmap.
    apply block_nonempty.
  - apply Forall_forall. intros x (m' & -> & _)%list_elem_of_fmap.
    apply trailer_nonempty.
Qed.

Lemma run_commands_none (user sha : string) :
  Commands.run_commands [] user sha = None.
Proof. reflexivity. Qed.

Lemma aggregate_contains_cc (to_mention : list mention) (user sha : string) m :
  m ∈ to_mention →
  Commands.contains (Commands.cc_line user m)
    (Commands.aggregate user sha to_mention).
Proof.
  intros Hin. apply (contains_trans _ (Commands.block user m)).
  - unfold Commands.block. apply contains_app_r, contains_refl.
  - apply contains_join. apply elem_of_app. left.
    apply list_elem_of_fmap. by exists m.
Qed.

(** ** The calls of [new_pr] *)

Lemma elem_tbind {A B} (m : traced A) (k : A -> traced B) (e : event) :
  e ∈ (tbind m k).1 ↔ e ∈ m.1 ∨ ∃ a, m.2 = Ret a ∧ e ∈ (k a).1.
Proof.
  unfold tbind. destruct m as [evs [a|x|]]; simpl.
  - rewrite elem_of_app. split.
    + intros [?|?]; [by left|right; by exists a].
    + intros [?|(a' & [= <-] & ?)]; [by left|by right].
  - split; [by left|]. by intros [?|(a & ? & _)].
  - split; [by left|]. by intros [?|(a & ? & _)].
Qed.

Lemma elem_emit (e e' : event) : e ∈ (emit e').1 ↔ e = e'.
Proof. unfold emit. simpl. apply list_elem_of_singleton. Qed.

Lemma elem_tret {A} (a : A) (e : event) : e ∈ (tret a).1 ↔ False.
Proof. unfold tret. simpl. by rewrite elem_of_nil. Qed.

Lemma elem_lift {A} (o : outcome A) (e : event) : e ∈ (lift o).1 ↔ False.
Proof. unfold lift. simpl. by rewrite elem_of_nil. Qed.

Lemma post_warnings_events cfg p diff e :
  e ∈ (Workflow.post_warnings cfg p diff).1 → ∃ body, e = Post_warnings body.
Proof.
  unfold Workflow.post_warnings. intros [H|(s & _ & H)]%elem_tbind.
  { by apply elem_lift in H. }
  destruct (if Workflow.modifies_submodule diff then _ else _) as [|x l].
  - by apply elem_tret in H.
  - apply elem_emit in H. by eexists.
Qed.

Lemma set_assignee_events assignee user sha to_mention e :
  e ∈ (Workflow.set_assignee assignee user sha to_mention).1 →
  e = Set_assignee assignee ∨
  ∃ body, Commands.run_commands to_mention user sha = Some body ∧
          e = Post_mentions body.
Proof.
  unfold Workflow.set_assignee. intros [H|(s & _ & H)]%elem_tbind.
  { apply elem_emit in H. by left. }
  destruct (Commands.run_commands to_mention user sha) as [body|].
  - apply elem_emit in H. right. by exists body.
  - by apply elem_tret in H.
Qed.

(** Every mention comment of [new_pr] is the comment of [run_commands] for
    the matched rules and the integration user. *)
Lemma new_pr_mentions (h : handler) (w : world) (body : string) :
  Post_mentions body ∈ (Workflow.new_pr h w).1 →
  ∃ to_mention,
    Mention.get_to_mention (repo_config_of h) (w_diff w) = Ret to_mention ∧
    Commands.run_commands to_mention (integration_user h)
      (pr_head_sha (h_payload h)) = Some body.
Proof.
  unfold Workflow.new_pr. intros [H|(? & _ & H)]%elem_tbind.
  - destruct (pr_assignees (h_payload h)); [|by apply elem_tret in H].
    apply elem_tbind in H as [H|(chosen & _ & H)].
    { destruct (negb _); [|by apply elem_tret in H].
      apply elem_tbind in H as [H|(? & _ & H)]; [by apply elem_emit in H|].
      apply elem_tbind in H as [H|(? & _ & H)]; [by apply elem_lift in H|].
      by apply elem_tret in H. }
    apply elem_tbind in H as [H|(to_mention & Hm & H)]; [by apply elem_lift in H|].
    apply elem_tbind in H as [H|(? & _ & H)].
    { apply set_assignee_events in H as [H|(b & Hb & [= <-])]; [done|].
      by exists to_mention. }
    apply elem_tbind in H as [H|(is_new & _ & H)]; [by apply elem_lift in H|].
    destruct is_new; [by apply elem_emit in H|].
    destruct (chosen.2); [by apply elem_emit in H|by apply elem_tret in H].
  - apply elem_tbind in H as [H|(? & _ & H)].
    { by apply post_warnings_events in H as [b Hb]. }
    destruct (cfg_new_pr_labels _); [by apply elem_tret in H|by apply elem_emit in H].
Qed.

(** C2, as stated, fails: the name left out of the cc list is the
    integration user, not the chosen reviewer.  With reviewer [carol]
    requested and the rule listing [carol] and [dave], the comment still
    lists [carol]. *)
Lemma cc_keeps_chosen_reviewer :
  let rule := mk_mention None None ["carol"; "dave"] in
  let h := mk_handler
             (mk_payload "bob" (Some "r? @carol") [] "0a1b" "rust-lang:master" false)
             "bot"
             (mk_config {[ "src/liba" := ["@erin"] ]} {[ "all" := ["@erin"] ]}
                [("src/", rule)] None None [])
             [] in
  let w := mk_world "diff --git a/src/liba/x.rs b/src/liba/x.rs
+line" (Found 3) 0 in
  Workflow.new_pr h w
  = ([Set_assignee (Some "carol"); Post_mentions "cc carol,dave"], Ret tt) ∧
  Commands.cc_line "carol" rule = "cc dave" ∧
  ¬ Commands.contains (Commands.cc_line "carol" rule) "cc carol,dave".
Proof.
  split; [vm_compute; reflexivity|]. split; [vm_compute; reflexivity|].
  intros (pre & post & H). vm_compute in H.
  repeat (destruct pre as [|? pre]; [cbv in H; congruence|cbv in H; injection H as _ H]).
  destruct pre; discriminate H.
Qed.

(** C2, amended: every mention comment that [new_pr] posts is the aggregate
    for the matched rules in which each rule contributes a cc line that
    lists its reviewers without the integration user (the [user] that
    [new_pr] hands to [set_assignee]). *)
Theorem mention_comment_excludes_integration_user (h : handler) (w : world)
    (body : string) :
  Post_mentions body ∈ (Workflow.new_pr h w).1 →
  ∃ to_mention,
    Mention.get_to_mention (repo_config_of h) (w_diff w) = Ret to_mention ∧
    body = Commands.aggregate (integration_user h)
             (pr_head_sha (h_payload h)) to_mention ∧
    ∀ m, m ∈ to_mention →
         Commands.cc_line (integration_user h) m
         = "cc " +:+ Py.join ","
             (filter (fun x => negb (String.eqb x (integration_user h)) = true)
                (rule_reviewers m)) ∧
         Commands.contains (Commands.cc_line (integration_user h) m) body.
Proof.
  intros (to_mention & Hget & Hrun)%new_pr_mentions.
  exists to_mention. split; [done|].
  destruct to_mention as [|m0 l]; [done|].
  rewrite run_commands_aggregate in Hrun by done. injection Hrun as <-.
  split; [done|]. intros m Hm. split; [done|].
  by apply aggregate_contains_cc.
Qed.

Lemma mention_comment_excludes_integration_user_witness :
  let rule := mk_mention (Some "Some changes occurred in liba") None ["bot"; "dave"] in
  let h := mk_handler
             (mk_payload "bob" (Some "r? @carol") [] "0a1b" "rust-lang:master" false)
             "bot"
             (mk_config {[ "src/liba" := ["@erin"] ]} {[ "all" := ["@erin"] ]}
                [("src/", rule)] None None [])
             [] in
  let w := mk_world "diff --git a/src/liba/x.rs b/src/liba/x.rs
+line" (Found 3) 0 in
  let body := "Some changes occurred in liba

cc dave" in
  Post_mentions body ∈ (Workflow.new_pr h w).1 ∧
  ∃ to_mention,
    Mention.get_to_mention (repo_config_of h) (w_diff w) = Ret to_mention ∧
    body = Commands.aggregate (integration_user h)
             (pr_head_sha (h_payload h)) to_mention ∧
    ∀ m, m ∈ to_mention →
         Commands.cc_line (integration_user h) m
         = "cc " +:+ Py.join ","
             (filter (fun x => negb (String.eqb x (integration_user h)) = true)
                (rule_reviewers m)) ∧
         Commands.contains (Commands.cc_line (integration_user h) m) body.
Proof.
  intros rule h w body.
  assert (Post_mentions body ∈ (Workflow.new_pr h w).1) as H1.
  { apply list_elem_of_In. vm_compute. right. left. reflexivity. }
  split; [exact H1|].
  exact (mention_comment_excludes_integration_user h w body H1).
Defined.

(** ** The reviewer pattern *)

Lemma skip_seps_app seps (s : string) :
  Regex.all_chars Regex.is_sep seps = true →
  Regex.skip_seps (seps +:+ String "@" s) = String "@" s.
Proof.
  induction seps as [|c seps IH]; [done|].
  rewrite app_cons_s. simpl. intros [Hc Hs]%andb_true_iff.
  rewrite Hc. by apply IH.
Qed.

Lemma skip_seps_split (s : string) :
  ∃ seps, s = seps +:+ Regex.skip_seps s ∧
          Regex.all_chars Regex.is_sep seps = true.
Proof.
  induction s as [|c s (seps & IH & Hall)]; [by exists ""|]. simpl.
  destruct (Regex.is_sep c) eqn:Hc.
  - exists (String c seps). rewrite app_cons_s, <- IH. split; [done|].
    simpl. by rewrite Hc.
  - by exists "".
Qed.

Lemma take_name_app name (rest : string) :
  Regex.all_chars Regex.is_name name = true →
  match Regex.head rest with
  | Some d => Regex.is_name d = false
  | None => True
  end →
  Regex.take_name (name +:+ rest) = name.
Proof.
  intros Hname Hrest. induction name as [|c name IH].
  - rewrite app_nil_l_s. destruct rest as [|d rest]; [done|].
    simpl in *. by rewrite Hrest.
  - rewrite app_cons_s. simpl in *. apply andb_true_iff in Hname as [Hc Hname].
    rewrite Hc. by rewrite IH.
Qed.

Lemma take_name_split (s : string) :
  ∃ rest, s = Regex.take_name s +:+ rest ∧
          Regex.all_chars Regex.is_name (Regex.take_name s) = true ∧
          match Regex.head rest with
          | Some d => Regex.is_name d = false
          | None => True
          end.
Proof.
  induction s as [|c s (rest & IH & Hall & Hrest)]; [by exists ""|]. simpl.
  destruct (Regex.is_name c) eqn:Hc.
  - exists rest. rewrite app_cons_s, <- IH. split; [done|]. simpl.
    by rewrite Hc.
  - exists (String c s). by rewrite app_nil_l_s.
Qed.

(** A match at the head of [s], in the words of the specification. *)
Lemma match_here_spec prev (s name : string) :
  Regex.match_here prev s = Some name ↔
  Regex.word_of prev = false ∧ Regex.mention_at name s.
Proof.
  split.
  - unfold Regex.match_here.
    destruct s as [|c [|q rest0]]; [done..|].
    destruct (Regex.boundary prev (Some c)
              && (Ascii.eqb c "r" || Ascii.eqb c "R") && Ascii.eqb q "?") eqn:Hhead;
      [|done].
    apply andb_true_iff in Hhead as [[Hb Hc]%andb_true_iff Hq].
    apply Ascii.eqb_eq in Hq as ->.
    assert (c = "r"%char ∨ c = "R"%char) as Hrc.
    { apply orb_true_iff in Hc as [Hc|Hc]; apply Ascii.eqb_eq in Hc; auto. }
    destruct (Regex.skip_seps rest0) as [|a rest'] eqn:Hskip; [done|].
    destruct (Ascii.eqb a "@" && Py.nonempty (Regex.take_name rest')) eqn:Hat;
      [|done].
    apply andb_true_iff in Hat as [Ha Hne]. apply Ascii.eqb_eq in Ha as ->.
    intros [= <-]. split.
    { unfold Regex.boundary in Hb. destruct Hrc as [->| ->]; simpl in Hb;
        by destruct (Regex.word_of prev). }
    destruct (skip_seps_split rest0) as (seps & Hrest0 & Hseps).
    destruct (take_name_split rest') as (rest & Hrest' & Hname & Hrest).
    exists c, seps, rest. rewrite Hskip in Hrest0.
    split; [by rewrite <- Hrest', <- Hrest0|done].
  - intros [Hprev (c & seps & rest & -> & Hrc & Hseps & Hne & Hname & Hrest)].
    unfold Regex.match_here.
    assert (Regex.boundary prev (Some c)
            && (Ascii.eqb c "r" || Ascii.eqb c "R") && Ascii.eqb "?" "?" = true)
      as ->.
    { unfold Regex.boundary. rewrite Hprev. by destruct Hrc as [->| ->]. }
    rewrite skip_seps_app by done. rewrite take_name_app by done.
    by rewrite Hne.
Qed.

Lemma match_here_nonempty prev (s name : string) :
  Regex.match_here prev s = Some name → Py.nonempty name = true.
Proof.
  intros [_ (c & seps & rest & _ & _ & _ & Hne & _)]%match_here_spec. done.
Qed.

Lemma search_from_cons prev c (s : string) :
  Regex.search_from prev (String c s)
  = match Regex.match_here prev (String c s) with
    | Some name => Some name
    | None => Regex.search_from (Some c) s
    end.
Proof. reflexivity. Qed.

Lemma search_from_sound prev (s name : string) :
  Regex.search_from prev s = Some name →
  ∃ pre suf,
    s = pre +:+ suf ∧
    Regex.match_here (Regex.last_char prev pre) suf = Some name ∧
    ∀ pre' suf', s = pre' +:+ suf' →
                 String.length pre' < String.length pre →
                 Regex.match_here (Regex.last_char prev pre') suf' = None.
Proof.
  revert prev. induction s as [|c s IH]; intros prev.
  - done.
  - rewrite search_from_cons.
    destruct (Regex.match_here prev (String c s)) eqn:Hm.
    + intros [= ->]. exists "", (String c s). split; [done|]. split; [done|].
      simpl. intros; lia.
    + intros (pre & suf & -> & Hmatch & Hmin)%IH.
      exists (String c pre), suf. split; [done|]. split; [done|].
      intros pre' suf' Heq Hlen. destruct pre' as [|c' pre'].
      * rewrite app_nil_l_s in Heq. by subst suf'.
      * rewrite app_cons_s in Heq. injection Heq as <- Heq.
        simpl in *. apply Hmin; [done|lia].
Qed.




(** ** An explicit reviewer in [new_pr] *)

Lemma get_to_mention_total (cfg : repo_config) (diff : string) :
  ∃ rules, Mention.get_to_mention cfg diff = Ret rules.
Proof.
  unfold Mention.get_to_mention.
  destruct (collect_rules (cfg_mentions cfg) (Mention.matched_keys cfg diff) [])
    as (rules & Hrun & _); [|by exists rules].
  intros k. rewrite matched_keys_spec. case_decide; [by intros ?%elem_of_nil|].
  apply matched_in_keys.
Qed.

Lemma tbind_tret {A B} (a : A) (k : A -> traced B) : tbind (tret a) k = k a.
Proof. unfold tbind, tret. simpl. by destruct (k a). Qed.

Lemma tbind_lift_ret {A B} (a : A) (k : A -> traced B) :
  tbind (lift (Ret a)) k = k a.
Proof. unfold tbind, lift. simpl. by destruct (k a). Qed.







(** * Further properties of the code *)

(** ** Loops and lines *)

Lemma for_each_app {A S} (body : S -> A -> outcome S) (l1 l2 : list A) (st : S) :
  for_each body (l1 ++ l2) st
  = let* st' := for_each body l1 st in for_each body l2 st'.
Proof.
  revert st. induction l1 as [|x l1 IH]; intros st; simpl; [done|].
  destruct (body st x); simpl; [apply IH|done|done].
Qed.

(** Splitting a text at a separator splits each side of it. *)
Lemma split_app sep (a b : string) :
  Py.split sep (a +:+ String sep b) = Py.split sep a ++ Py.split sep b.
Proof.
  induction a as [|c a IH].
  - rewrite app_nil_l_s. simpl. by rewrite Ascii.eqb_refl.
  - rewrite app_cons_s. simpl. rewrite IH.
    destruct (Ascii.eqb c sep); [done|].
    by destruct (split_cons_inv sep a) as (w & ws & ->).
Qed.

Lemma lines_app (a b : string) :
  Scan.lines (a +:+ Commands.nl +:+ b) = Scan.lines a ++ Scan.lines b.
Proof.
  unfold Scan.lines, Commands.nl. rewrite app_cons_s, app_nil_l_s.
  apply split_app.
Qed.

(** ** More on the diff scan *)

(** Before the first header no line is counted. *)
Lemma scan_init_body ls :
  Forall (fun l => Scan.is_header l = false) ls →
  for_each Scan.line_step ls Scan.init = Ret Scan.init.
Proof.
  induction 1 as [|l ls Hl _ IH]; simpl; [done|].
  unfold Scan.line_step at 1. by rewrite Hl.
Qed.

(** X1: whatever comes before the first header of a diff (a cover letter, a
    commit message, lines that start with [+]) changes neither the counts
    nor the most changed directory. *)
Theorem preamble_is_not_counted (dirs : gmap string (list string))
    (pre rest : string) :
  Forall (fun l => Scan.is_header l = false) (Scan.lines pre) →
  Scan.scan (pre +:+ Commands.nl +:+ rest) = Scan.scan rest ∧
  Scan.most_changed dirs (pre +:+ Commands.nl +:+ rest)
  = Scan.most_changed dirs rest.
Proof.
  intros Hpre.
  assert (Scan.scan (pre +:+ Commands.nl +:+ rest) = Scan.scan rest) as Hscan.
  { unfold Scan.scan. rewrite lines_app, for_each_app.
    by rewrite (scan_init_body _ Hpre). }
  split; [done|]. unfold Scan.most_changed. by rewrite Hscan.
Qed.

Lemma preamble_is_not_counted_witness :
  let dirs : gmap string (list string) := {[ "src/liba" := ["@a"] ]} in
  let pre := "Subject: a patch
+ not an added line of any file" in
  let rest := "diff --git a/src/liba/x.rs b/src/liba/x.rs
+line" in
  Forall (fun l => Scan.is_header l = false) (Scan.lines pre) ∧
  Scan.scan (pre +:+ Commands.nl +:+ rest) = Scan.scan rest ∧
  Scan.most_changed dirs (pre +:+ Commands.nl +:+ rest)
  = Scan.most_changed dirs rest.
Proof.
  intros dirs pre rest.
  assert (Forall (fun l => Scan.is_header l = false) (Scan.lines pre)) as H.
  { vm_compute. repeat constructor. }
  split; [exact H|]. exact (preamble_is_not_counted dirs pre rest H).
Defined.

Lemma scan_filter_lines ls st :
  for_each Scan.line_step
    (filter (fun l => Scan.is_header l || Scan.is_added l = true) ls) st
  = for_each Scan.line_step ls st.
Proof.
  revert st. induction ls as [|l ls IH]; intros st; [done|].
  rewrite filter_cons. case_decide as Hl; simpl.
  - destruct (Scan.line_step st l); simpl; [apply IH|done|done].
  - apply not_true_is_false, orb_false_elim in Hl as [Hh Ha].
    unfold Scan.line_step at 2. rewrite Hh, Ha, andb_false_r. apply IH.
Qed.

(** X2: the scan reads the header lines and the added lines only: context
    lines, removed lines and the [+++] file markers can be dropped from a
    diff without changing any count. *)
Theorem only_headers_and_added_lines_count (diff : string) :
  Scan.scan diff
  = for_each Scan.line_step
      (filter (fun l => Scan.is_header l || Scan.is_added l = true)
         (Scan.lines diff))
      Scan.init.
Proof. unfold Scan.scan. by rewrite scan_filter_lines. Qed.

Lemma fold_dir_shape parts d :
  Scan.fold_dir parts = Some d →
  d ≠ "src/test" ∧
  (Py.startswith d "src/librustc" = true → d = "src/librustc").
Proof.
  unfold Scan.fold_dir.
  destruct (Py.startswith (Py.join "/" (take 2 parts)) "src/librustc") eqn:Hp.
  - simpl. intros [= <-]. by split.
  - destruct (String.eqb _ "src/test") eqn:Ht; [done|]. intros [= <-].
    split; [|by rewrite Hp]. intros E. by rewrite E in Ht.
Qed.

(** X3: the most changed directory is the directory of a header of the
    diff, with at least one added line; it is never empty and never
    [src/test], and of the directories that start with [src/librustc] it
    can only be [src/librustc] itself.  (It need not be a key of [dirs].) *)
Theorem most_changed_is_a_counted_directory
    (dirs : gmap string (list string)) (diff d : string) :
  Scan.most_changed dirs diff = Ret (Some d) →
  d ∈ Scan.header_dirs diff ∧
  0 < Scan.added_lines d None (Scan.lines diff) ∧
  Py.nonempty d = true ∧
  d ≠ "src/test" ∧
  (Py.startswith d "src/librustc" = true → d = "src/librustc").
Proof.
  unfold Scan.most_changed. case_decide as Hd; [done|].
  destruct (Scan.scan diff) as [st| |] eqn:Hscan; simpl; [|done|done].
  intros [= Hl].
  pose proof (largest_spec (Scan.counts st)) as Hmax. rewrite Hl in Hmax.
  destruct Hmax as (before & n & after & Hcs & Hn & _).
  assert ((d, n) ∈ Scan.counts st) as Hin.
  { rewrite Hcs. apply elem_of_app. right. by left. }
  pose proof (scan_counts_added _ _ Hscan) as Hadd.
  rewrite Forall_forall in Hadd. specialize (Hadd _ Hin). simpl in Hadd.
  assert (Scan.tracked Scan.init) as Hinit by done.
  pose proof (scan_lines_keys _ _ _ Hinit Hscan) as Hkeys. simpl in Hkeys.
  assert (d ∈ Dict.keys (Scan.counts st)) as Hk.
  { unfold Dict.keys. apply list_elem_of_fmap. by exists (d, n). }
  rewrite Hkeys in Hk. apply first_occurrences_fresh in Hk as [_ Hk].
  split; [done|]. split; [lia|].
  apply list_elem_of_omap in Hk as (line & _ & Hopen).
  unfold Scan.opened in Hopen.
  destruct (Scan.is_header line); [|done].
  destruct (Scan.fold_dir _) as [d'|] eqn:Hf; [|done].
  destruct (Py.nonempty d') eqn:Hne; [|done].
  injection Hopen as ->. split; [done|]. by apply fold_dir_shape in Hf.
Qed.

Lemma most_changed_is_a_counted_directory_witness :
  let dirs : gmap string (list string) := {[ "src/liba" := ["@a"] ]} in
  let diff := "diff --git a/src/test/ui/x.rs b/src/test/ui/x.rs
+1
+2
+3
diff --git a/src/librustc_mir/y.rs b/src/librustc_mir/y.rs
+1
diff --git a/src/librustc_ast/z.rs b/src/librustc_ast/z.rs
+1" in
  let d := "src/librustc" in
  Scan.most_changed dirs diff = Ret (Some d) ∧
  d ∈ Scan.header_dirs diff ∧
  0 < Scan.added_lines d None (Scan.lines diff) ∧
  Py.nonempty d = true ∧
  d ≠ "src/test" ∧
  (Py.startswith d "src/librustc" = true → d = "src/librustc").
Proof.
  intros dirs diff d.
  assert (Scan.most_changed dirs diff = Ret (Some d)) as H by (by vm_compute).
  split; [exact H|]. exact (most_changed_is_a_counted_directory dirs diff d H).
Defined.

(** ** More on [choose_reviewer] *)

Lemma merge_ret (global_groups : list (string * list string))
    (gs m : gmap string (list string)) :
  Reviewer.merge_groups gs global_groups = Ret m →
  NoDup (Dict.keys global_groups) ∧
  ∀ k, k ∈ Dict.keys global_groups → gs !! k = None.
Proof.
  unfold Reviewer.merge_groups.
  revert gs. induction global_groups as [|[k v] rest IH]; intros gs Hrun.
  { split; [constructor|]. by intros k ?%elem_of_nil. }
  cbn [for_each] in Hrun. unfold Reviewer.merge_step at 1 in Hrun.
  simpl in Hrun. destruct (gs !! k) as [old|] eqn:Hk; [done|]. simpl in Hrun.
  apply IH in Hrun as [Hnd Hfree]. simpl. split.
  - apply NoDup_cons. split; [|done]. intros Hin. apply Hfree in Hin.
    by rewrite lookup_insert_eq in Hin.
  - intros k' [->|Hin]%elem_of_cons; [done|].
    apply Hfree in Hin. by apply lookup_insert_None in Hin as [? _].
Qed.

Lemma merge_raise (global_groups : list (string * list string))
    (gs : gmap string (list string)) e :
  Reviewer.merge_groups gs global_groups = Raise e →
  ∃ n, n ∈ Dict.keys global_groups ∧ e = AssertionError (Reviewer.overlap_msg n).
Proof.
  unfold Reviewer.merge_groups.
  revert gs. induction global_groups as [|[k v] rest IH]; intros gs Hrun; [done|].
  cbn [for_each] in Hrun. unfold Reviewer.merge_step at 1 in Hrun.
  simpl in Hrun. destruct (gs !! k) as [old|] eqn:Hk; simpl in Hrun.
  - injection Hrun as <-. exists k. split; [by left|done].
  - apply IH in Hrun as (n & Hn & ->). exists n. split; [by right|done].
Qed.

Lemma merge_in_time (global_groups : list (string * list string))
    (gs : gmap string (list string)) :
  Reviewer.merge_groups gs global_groups ≠ OutOfFuel.
Proof.
  unfold Reviewer.merge_groups.
  revert gs. induction global_groups as [|[k v] rest IH]; intros gs; [done|].
  cbn [for_each]. unfold Reviewer.merge_step at 1. simpl.
  destruct (gs !! k); simpl; [done|apply IH].
Qed.

(** X4: the merge succeeds exactly when no global group name is a group
    name of the repository (the names of the global file being distinct, as
    the keys of a JSON object are), and the merged table is then the union
    of the two tables. *)
Theorem merge_groups_is_disjoint_union
    (global_groups : list (string * list string))
    (gs m : gmap string (list string)) :
  Reviewer.merge_groups gs global_groups = Ret m ↔
  NoDup (Dict.keys global_groups) ∧
  (∀ k, k ∈ Dict.keys global_groups → gs !! k = None) ∧
  m = list_to_map global_groups ∪ gs.
Proof.
  split.
  - intros Hrun. destruct (merge_ret _ _ _ Hrun) as [Hnd Hfree].
    split; [done|]. split; [done|].
    rewrite (merge_disjoint _ _ Hnd Hfree) in Hrun. by injection Hrun.
  - intros (Hnd & Hfree & ->). by apply merge_disjoint.
Qed.

(** The parts of a call of [choose_reviewer] that returns. *)
Lemma choose_reviewer_ret (cfg : repo_config)
    (global_groups : list (string * list string)) (diff exclude : string)
    (rnd : nat) (o : option string) :
  Reviewer.choose_reviewer cfg global_groups diff exclude rnd = Ret o →
  ∃ gs most_changed kp expanded,
    Reviewer.merge_groups (cfg_groups cfg) global_groups = Ret gs ∧
    Scan.most_changed (cfg_dirs cfg) diff = Ret most_changed ∧
    Reviewer.pool gs (cfg_dirs cfg) most_changed = Ret kp ∧
    Reviewer.expand_aliases gs kp.1 kp.2 = Ret expanded ∧
    o = match (if Py.mem exclude expanded
               then Py.remove_first exclude expanded else expanded) with
        | [] => None
        | r :: rs =>
            Reviewer.choice rnd
              (if Py.mem exclude expanded
               then Py.remove_first exclude expanded else expanded)
        end.
Proof.
  unfold Reviewer.choose_reviewer.
  destruct (Reviewer.merge_groups _ _) as [gs| |] eqn:Hm; simpl; [|done|done].
  destruct (Scan.most_changed _ _) as [mc| |] eqn:Hs; simpl; [|done|done].
  destruct (Reviewer.pool _ _ _) as [kp| |] eqn:Hp; simpl; [|done|done].
  destruct (Reviewer.expand_aliases _ _ _) as [expanded| |] eqn:He; simpl;
    [|done|done].
  intros Hret. exists gs, mc, kp, expanded. repeat (split; [done|]).
  destruct (if Py.mem exclude expanded then _ else _); congruence.
Qed.

Lemma most_changed_total (dirs : gmap string (list string)) (diff : string) :
  ∃ r, Scan.most_changed dirs diff = Ret r.
Proof.
  unfold Scan.most_changed. case_decide; [by eexists|].
  destruct (scan_total diff) as [st ->]. by eexists.
Qed.



(** X6: without an [all] group, in the repository and in the global file,
    nobody is ever chosen: the call raises [KeyError('all')] whatever the
    diff says, unless the overlap assertion fails first. *)
Theorem missing_all_group_is_fatal (cfg : repo_config)
    (global_groups : list (string * list string)) (diff exclude : string)
    (rnd : nat) :
  cfg_groups cfg !! "all" = None →
  "all" ∉ Dict.keys global_groups →
  Reviewer.choose_reviewer cfg global_groups diff exclude rnd
  = Raise (KeyError "all") ∨
  ∃ n, n ∈ Dict.keys global_groups ∧
       Reviewer.choose_reviewer cfg global_groups diff exclude rnd
       = Raise (AssertionError (Reviewer.overlap_msg n)).
Proof.
  intros Hrepo Hglobal. unfold Reviewer.choose_reviewer.
  destruct (Reviewer.merge_groups _ _) as [gs|e|] eqn:Hm; simpl.
  - left. destruct (most_changed_total (cfg_dirs cfg) diff) as [mc ->]. simpl.
    destruct (merge_ret _ _ _ Hm) as [Hnd Hfree].
    rewrite (merge_disjoint _ _ Hnd Hfree) in Hm. injection Hm as <-.
    unfold Reviewer.pool.
    assert ((list_to_map global_groups ∪ cfg_groups cfg) !! "all"
            = (None : option (list string))) as ->; [|done].
    apply lookup_union_None. split; [|done].
    by apply not_elem_of_list_to_map_1.
  - right. apply merge_raise in Hm as (n & Hn & ->). by exists n.
  - by apply merge_in_time in Hm.
Qed.

Lemma missing_all_group_is_fatal_witness :
  let cfg := mk_config {[ "src/liba" := ["@a"] ]} {[ "core" := ["@c"] ]}
               [] None None [] in
  let global_groups := [("infra", ["@i"])] in
  let diff := "diff --git a/src/liba/x.rs b/src/liba/x.rs
+line" in
  cfg_groups cfg !! "all" = None ∧
  ("all" ∉ Dict.keys global_groups) ∧
  (Reviewer.choose_reviewer cfg global_groups diff "bob" 0
   = Raise (KeyError "all") ∨
   ∃ n, n ∈ Dict.keys global_groups ∧
        Reviewer.choose_reviewer cfg global_groups diff "bob" 0
        = Raise (AssertionError (Reviewer.overlap_msg n))).
Proof.
  intros cfg global_groups diff.
  assert (cfg_groups cfg !! "all" = None) as H1 by reflexivity.
  assert ("all" ∉ Dict.keys global_groups) as H2.
  { simpl. intros [E|E%elem_of_nil]%elem_of_cons; [discriminate E|done]. }
  split; [exact H1|]. split; [exact H2|].
  exact (missing_all_group_is_fatal cfg global_groups diff "bob" 0 H1 H2).
Defined.

Lemma remove_first_elem x y (l : list string) :
  y ∈ Py.remove_first x l → y ∈ l.
Proof.
  induction l as [|z l IH]; simpl; [done|].
  destruct (String.eqb z x); [by right|].
  intros [->|Hy]%elem_of_cons; [by left|right; by apply IH].
Qed.

(** The tokens of the pool come from a group or from the list of the most
    changed directory. *)
Lemma pool_ret (gs dirs : gmap string (list string)) mc kp p :
  Reviewer.pool gs dirs mc = Ret kp → p ∈ kp.2 →
  (∃ g v, gs !! g = Some v ∧ p ∈ v) ∨
  (∃ d v, mc = Some d ∧ dirs !! d = Some v ∧ p ∈ v).
Proof.
  unfold Reviewer.pool. destruct (gs !! "all") as [all|] eqn:Hall; [|done].
  set (potential := match mc with Some _ => _ | None => _ end).
  assert (∀ x, x ∈ potential →
               x ∈ all ∨ ∃ d v, mc = Some d ∧ dirs !! d = Some v ∧ x ∈ v) as Hpot.
  { subst potential. intros x.
    destruct mc as [d|]; [|by left].
    destruct (Py.nonempty d); [|by left].
    destruct (dirs !! d) as [extra|] eqn:Hd; [|by left].
    intros [Hx|Hx]%elem_of_app; [by left|]. right. by exists d, extra. }
  destruct potential as [|t ts] eqn:Hp.
  - destruct (gs !! "core") as [core|] eqn:Hcore; [|done].
    intros [= <-] Hin. left. by exists "core", core.
  - intros [= <-] Hin. simpl in Hin.
    destruct (Hpot p Hin) as [Hx|Hx]; [|by right]. left. by exists "all", all.
Qed.

(** X7: whoever is chosen is written in the configuration with an [@] in
    front: in the list of a group of the merged table, or in the [dirs]
    list of the most changed directory.  A name without the [@] is never
    chosen, and neither is a name from elsewhere. *)
Theorem chosen_reviewer_is_listed (cfg : repo_config)
    (global_groups : list (string * list string)) (diff exclude : string)
    (rnd : nat) (r : string) :
  Reviewer.choose_reviewer cfg global_groups diff exclude rnd = Ret (Some r) →
  ∃ gs p,
    Reviewer.merge_groups (cfg_groups cfg) global_groups = Ret gs ∧
    Py.startswith p "@" = true ∧ r = Py.slice_from 1 p ∧
    ((∃ g v, gs !! g = Some v ∧ p ∈ v) ∨
     (∃ d v, Scan.most_changed (cfg_dirs cfg) diff = Ret (Some d) ∧
             cfg_dirs cfg !! d = Some v ∧ p ∈ v)).
Proof.
  intros (gs & mc & kp & expanded & Hm & Hs & Hp & He & Ho)%choose_reviewer_ret.
  assert (r ∈ expanded) as Hr.
  { destruct (Py.mem exclude expanded).
    - destruct (Py.remove_first exclude expanded) as [|x xs] eqn:Hrem; [done|].
      symmetry in Ho. apply choice_elem in Ho. rewrite <- Hrem in Ho.
      by apply remove_first_elem in Ho.
    - destruct expanded as [|x xs]; [done|].
      symmetry in Ho. by apply choice_elem in Ho. }
  destruct (expand_aliases_outcome gs kp.1 kp.2)
    as [(out & Hout & Hlit)|(q & _ & Hq)]; [|congruence].
  rewrite He in Hout. injection Hout as <-.
  destruct (Hlit r Hr) as (p & Htok & Hat & ->).
  exists gs, p. split; [done|]. split; [done|]. split; [done|].
  destruct Htok as [Hin|Hin]; [|by left].
  destruct (pool_ret _ _ _ _ _ Hp Hin) as [?|(d & v & -> & ? & ?)]; [by left|].
  right. by exists d, v.
Qed.

Lemma chosen_reviewer_is_listed_witness :
  let cfg := mk_config {[ "src/liba" := ["@dana"; "erin"] ]}
               {[ "all" := ["frank"] ]} [] None None [] in
  let diff := "diff --git a/src/liba/x.rs b/src/liba/x.rs
+line" in
  Reviewer.choose_reviewer cfg [] diff "bob" 7 = Ret (Some "dana") ∧
  ∃ gs p,
    Reviewer.merge_groups (cfg_groups cfg) [] = Ret gs ∧
    Py.startswith p "@" = true ∧ "dana" = Py.slice_from 1 p ∧
    ((∃ g v, gs !! g = Some v ∧ p ∈ v) ∨
     (∃ d v, Scan.most_changed (cfg_dirs cfg) diff = Ret (Some d) ∧
             cfg_dirs cfg !! d = Some v ∧ p ∈ v)).
Proof.
  intros cfg diff.
  assert (Reviewer.choose_reviewer cfg [] diff "bob" 7 = Ret (Some "dana")) as H
    by (by vm_compute).
  split; [exact H|]. exact (chosen_reviewer_is_listed cfg [] diff "bob" 7 "dana" H).
Defined.

Lemma most_changed_empty_diff (dirs : gmap string (list string)) :
  Scan.most_changed dirs "" = Ret None.
Proof. unfold Scan.most_changed. by case_decide. Qed.

(** X8: the diff matters to [choose_reviewer] only through a most changed
    directory that is a key of [dirs]: when there is none (no [dirs] table,
    no added line, or a directory without an entry) the outcome is that of
    an empty diff. *)
Theorem diff_matters_through_dirs (cfg : repo_config)
    (global_groups : list (string * list string)) (diff exclude : string)
    (rnd : nat) :
  (∀ d, Scan.most_changed (cfg_dirs cfg) diff = Ret (Some d) →
        cfg_dirs cfg !! d = None) →
  Reviewer.choose_reviewer cfg global_groups diff exclude rnd
  = Reviewer.choose_reviewer cfg global_groups "" exclude rnd.
Proof.
  intros Hnone. unfold Reviewer.choose_reviewer.
  destruct (Reviewer.merge_groups _ _) as [gs| |]; simpl; [|done|done].
  rewrite most_changed_empty_diff.
  destruct (most_changed_total (cfg_dirs cfg) diff) as [mc Hmc]. rewrite Hmc.
  simpl.
  assert (Reviewer.pool gs (cfg_dirs cfg) mc = Reviewer.pool gs (cfg_dirs cfg) None)
    as ->; [|done].
  destruct mc as [d|]; [|done]. unfold Reviewer.pool.
  rewrite (Hnone d Hmc). by destruct (Py.nonempty d).
Qed.

Lemma diff_matters_through_dirs_witness :
  let cfg := mk_config {[ "src/liba" := ["@dana"] ]}
               {[ "all" := ["@erin"; "@frank"] ]} [] None None [] in
  let diff := "diff --git a/src/libb/x.rs b/src/libb/x.rs
+line" in
  (∀ d, Scan.most_changed (cfg_dirs cfg) diff = Ret (Some d) →
        cfg_dirs cfg !! d = None) ∧
  Reviewer.choose_reviewer cfg [] diff "bob" 3
  = Reviewer.choose_reviewer cfg [] "" "bob" 3.
Proof.
  intros cfg diff.
  assert (∀ d, Scan.most_changed (cfg_dirs cfg) diff = Ret (Some d) →
               cfg_dirs cfg !! d = None) as H.
  { intros d Hd. vm_compute in Hd. injection Hd as <-. reflexivity. }
  split; [exact H|]. exact (diff_matters_through_dirs cfg [] diff "bob" 3 H).
Defined.

(** X9: the author of the pull request can come out as the reviewer, and
    this for some draw exactly when the expanded list names the author at
    least twice: one occurrence is removed, the others stay. *)
Theorem author_chosen_iff_listed_twice (cfg : repo_config)
    (global_groups : list (string * list string)) (diff exclude : string) :
  (∃ rnd, Reviewer.choose_reviewer cfg global_groups diff exclude rnd
          = Ret (Some exclude)) ↔
  ∃ gs most_changed kp expanded,
    Reviewer.merge_groups (cfg_groups cfg) global_groups = Ret gs ∧
    Scan.most_changed (cfg_dirs cfg) diff = Ret most_changed ∧
    Reviewer.pool gs (cfg_dirs cfg) most_changed = Ret kp ∧
    Reviewer.expand_aliases gs kp.1 kp.2 = Ret expanded ∧
    2 ≤ Py.count exclude expanded.
Proof.
  split.
  - intros [rnd Hrun].
    destruct (choose_reviewer_ret _ _ _ _ _ _ Hrun)
      as (gs & mc & kp & expanded & Hm & Hs & Hp & He & _).
    exists gs, mc, kp, expanded. repeat (split; [done|]).
    destruct (le_lt_dec (Py.count exclude expanded) 1) as [Hle|Hlt]; [|lia].
    by destruct (author_listed_once_not_chosen _ _ _ _ rnd _ _ _ _ Hm Hs Hp He Hle).
  - intros (gs & mc & kp & expanded & Hm & Hs & Hp & He & Hc).
    by apply (author_listed_twice_can_be_chosen _ _ _ _ gs mc kp expanded).
Qed.

(** ** The expansion reaches every listed user *)

Section expand_complete.
Variable gs : gmap string (list string).
Variable key : string.

Lemma expand_complete fuel st out :
  Reviewer.expand gs key fuel st = Ret out →
  (∀ r, r ∈ Reviewer.reviewers st → r ∈ out) ∧
  (∀ p, p ∈ Reviewer.potential st → Py.startswith p "@" = true →
        Py.slice_from 1 p ∈ out) ∧
  (∀ g v p, Groups.reachable_past gs key (Reviewer.potential st) g →
            g ≠ key → gs !! g = Some v → p ∈ v →
            Py.startswith p "@" = true → Py.slice_from 1 p ∈ out).
Proof.
  revert st. induction fuel as [|fuel IH]; intros st Hrun; simpl in Hrun.
  - destruct (step_cases gs st) as [He|(rest & p & Hpot & Hc)].
    + rewrite (step_empty gs key _ He) in Hrun. injection Hrun as <-.
      rewrite He. split; [done|]. split; [by intros p ?%elem_of_nil|].
      intros g v p (t & Ht & _). by apply elem_of_nil in Ht.
    + destruct Hc as [Hu|[Hu [Hn|[Hgr [Hs|Hs]]]]].
      * by rewrite (step_user gs key _ _ _ Hpot Hu) in Hrun.
      * by rewrite (step_unknown gs key _ _ _ Hpot Hu Hn) in Hrun.
      * by rewrite (step_seen gs key _ _ _ Hpot Hu Hgr Hs) in Hrun.
      * by rewrite (step_group gs key _ _ _ Hpot Hu Hgr Hs) in Hrun.
  - destruct (step_cases gs st) as [He|(rest & p & Hpot & Hc)].
    + rewrite (step_empty gs key _ He) in Hrun. injection Hrun as <-.
      rewrite He. split; [done|]. split; [by intros p ?%elem_of_nil|].
      intros g v p (t & Ht & _). by apply elem_of_nil in Ht.
    + rewrite Hpot. destruct Hc as [Hu|[Hu [Hn|[Hgr [Hs|Hs]]]]].
      * rewrite (step_user gs key _ _ _ Hpot Hu) in Hrun.
        destruct (IH _ Hrun) as (Hrev & Htok & Hgrp). simpl in *.
        split; [|split].
        -- intros r Hr. apply Hrev, elem_of_app. by left.
        -- intros q [Hq|Hq]%elem_of_app Hat; [by apply Htok|].
           apply list_elem_of_singleton in Hq as ->.
           apply Hrev, elem_of_app. right. by apply list_elem_of_singleton.
        -- intros g v q [Hg|[[Hp _] _]]%reachable_past_snoc; [|congruence].
           by apply Hgrp.
      * rewrite (step_unknown gs key _ _ _ Hpot Hu Hn) in Hrun.
        destruct (IH _ Hrun) as (Hrev & Htok & Hgrp). simpl in *.
        split; [done|split].
        -- intros q [Hq|Hq]%elem_of_app Hat; [by apply Htok|].
           apply list_elem_of_singleton in Hq as ->. congruence.
        -- intros g v q [Hg|[[_ [v' Hv']] _]]%reachable_past_snoc; [|congruence].
           by apply Hgrp.
      * by rewrite (step_seen gs key _ _ _ Hpot Hu Hgr Hs) in Hrun.
      * rewrite (step_group gs key _ _ _ Hpot Hu Hgr Hs) in Hrun.
        destruct (IH _ Hrun) as (Hrev & Htok & Hgrp). simpl in *.
        split; [done|split].
        -- intros q [Hq|Hq]%elem_of_app Hat.
           ++ apply Htok; [|done]. apply elem_of_app. by left.
           ++ apply list_elem_of_singleton in Hq as ->. congruence.
        -- intros g v q [Hg|[Hp Hr]]%reachable_past_snoc Hne Hv Hq Hat.
           { by apply (Hgrp g v q (reachable_past_app_l _ _ _ _ _ Hg)). }
           apply rtc_inv in Hr as [<-|(h & Hph & Hr)].
           ++ apply Htok; [|done]. apply elem_of_app. right.
              rewrite members_other by done. by rewrite Hv.
           ++ destruct Hgr as [w Hw].
              assert (p ≠ key) as Hpk by (by destruct Hph).
              rewrite members_other in Hgrp by done. rewrite Hw in Hgrp.
              simpl in Hgrp.
              by apply (Hgrp g v q (reachable_past_member _ _ _ _ _ _ _ Hw Hph Hr)).
Qed.

End expand_complete.

(** X10: when the expansion ends normally, nobody is lost: every [@]-name
    of the pool is a candidate, and so is every [@]-name in the list of a
    group that the pool names, directly or through other groups. *)
Theorem expansion_reaches_every_user (gs : gmap string (list string))
    (key : string) (pool out : list string) :
  Reviewer.expand_aliases gs key pool = Ret out →
  (∀ p, p ∈ pool → Py.startswith p "@" = true → Py.slice_from 1 p ∈ out) ∧
  (∀ g v p, Groups.reachable_past gs key pool g → g ≠ key →
            gs !! g = Some v → p ∈ v → Py.startswith p "@" = true →
            Py.slice_from 1 p ∈ out).
Proof.
  unfold Reviewer.expand_aliases. intros Hrun.
  by destruct (expand_complete _ _ _ _ _ Hrun) as (_ & Htok & Hgrp).
Qed.

Lemma expansion_reaches_every_user_witness :
  let gs : gmap string (list string) :=
    <["all" := ["@a"; "compiler"; "nobody"]]>
      (<["compiler" := ["@b"; "types"]]> {[ "types" := ["@c"; "d"] ]}) in
  let pool := ["@a"; "compiler"; "nobody"] in
  let out := ["c"; "b"; "a"] in
  Reviewer.expand_aliases gs "all" pool = Ret out ∧
  (∀ p, p ∈ pool → Py.startswith p "@" = true → Py.slice_from 1 p ∈ out) ∧
  (∀ g v p, Groups.reachable_past gs "all" pool g → g ≠ "all" →
            gs !! g = Some v → p ∈ v → Py.startswith p "@" = true →
            Py.slice_from 1 p ∈ out).
Proof.
  intros gs pool out.
  assert (Reviewer.expand_aliases gs "all" pool = Ret out) as H by (by vm_compute).
  split; [exact H|]. exact (expansion_reaches_every_user gs "all" pool out H).
Defined.

(** ** More on [get_to_mention] *)

Lemma matched_keys_app (cfg : repo_config) (d1 d2 : string) :
  ∃ more, Mention.matched_keys cfg (d1 +:+ Commands.nl +:+ d2)
          = Mention.matched_keys cfg d1 ++ more.
Proof.
  unfold Mention.matched_keys. case_decide; [by exists []|].
  rewrite lines_app, fold_left_app, fold_line_step. by eexists.
Qed.

(** X11: a longer diff keeps the mentions of a shorter one: when files are
    added at the end of a diff, the rules returned before are returned
    again, in the same order, before any new one. *)
Theorem mentions_grow_with_diff (cfg : repo_config) (d1 d2 : string) :
  ∃ rules more,
    Mention.get_to_mention cfg d1 = Ret rules ∧
    Mention.get_to_mention cfg (d1 +:+ Commands.nl +:+ d2) = Ret (rules ++ more).
Proof.
  destruct (matched_keys_app cfg d1 d2) as [ks Hks].
  assert (∀ k, k ∈ Mention.matched_keys cfg d1 ++ ks →
               k ∈ Dict.keys (cfg_mentions cfg)) as Hin.
  { intros k. rewrite <- Hks, matched_keys_spec.
    case_decide; [by intros ?%elem_of_nil|]. apply matched_in_keys. }
  unfold Mention.get_to_mention. rewrite Hks, for_each_app.
  destruct (collect_rules (cfg_mentions cfg) (Mention.matched_keys cfg d1) [])
    as (rules & -> & _).
  { intros k Hk. apply Hin, elem_of_app. by left. }
  simpl.
  destruct (collect_rules (cfg_mentions cfg) ks rules) as (more & -> & _).
  { intros k Hk. apply Hin, elem_of_app. by right. }
  by exists rules, more.
Qed.

(** ** More on [run_commands] *)

Lemma dict_set_same (sha c : string) (seen : list string) :
  Dict.set c sha (map (fun x => (x, sha)) seen)
  = map (fun x => (x, sha)) (if Py.mem c seen then seen else seen ++ [c]).
Proof.
  induction seen as [|x seen IH]; simpl; [done|].
  rewrite (String.eqb_sym c x).
  destruct (String.eqb_spec x c) as [->|Hne]; simpl; [done|].
  rewrite IH. by destruct (Py.mem c seen).
Qed.

Lemma commands_fold (sha : string) (l : list mention) (seen : list string) :
  fold_left (fun cmds m => match rule_command m with
                           | Some cmd => Dict.set cmd sha cmds
                           | None => cmds
                           end) l (map (fun x => (x, sha)) seen)
  = map (fun x => (x, sha))
      (seen ++ first_occurrences seen (omap rule_command l)).
Proof.
  revert seen. induction l as [|m l IH]; intros seen; simpl.
  { by rewrite app_nil_r. }
  destruct (rule_command m) as [c|]; simpl; [|apply IH].
  rewrite dict_set_same. destruct (Py.mem c seen); [apply IH|].
  rewrite IH. by rewrite <- app_assoc.
Qed.

(** X12: the comment of [run_commands] for a non-empty list of rules: one
    part per rule, in order, then one line per distinct command, in the
    order the commands first occur, each followed by the head commit; the
    parts are separated by blank lines.  A command that several rules share
    is issued once. *)
Theorem run_commands_body (to_mention : list mention) (user sha : string) :
  to_mention ≠ [] →
  Commands.run_commands to_mention user sha
  = Some (Py.join Commands.blank
            (map (Commands.block user) to_mention
             ++ map (fun cmd => cmd +:+ " " +:+ sha)
                  (first_occurrences [] (omap rule_command to_mention)))).
Proof.
  intros Hne. rewrite run_commands_aggregate by done.
  unfold Commands.aggregate, Commands.commands_of.
  change (@nil (string * string)) with (map (fun x : string => (x, sha)) []).
  rewrite commands_fold. simpl. by rewrite map_map.
Qed.

Lemma run_commands_body_witness :
  let to_mention :=
    [mk_mention (Some "liba changed") (Some "@bot label A-liba") ["dave"];
     mk_mention None (Some "@bot ping") ["bot"];
     mk_mention None (Some "@bot label A-liba") ["erin"; "bot"; "fay"]] in
  to_mention ≠ [] ∧
  Commands.run_commands to_mention "bot" "0a1b"
  = Some (Py.join Commands.blank
            (map (Commands.block "bot") to_mention
             ++ map (fun cmd => cmd +:+ " " +:+ "0a1b")
                  (first_occurrences [] (omap rule_command to_mention)))).
Proof.
  intros to_mention.
  assert (to_mention ≠ []) as H by done.
  split; [exact H|]. exact (run_commands_body to_mention "bot" "0a1b" H).
Defined.

(** ** More on [find_reviewer] *)




(** ** [modifies_submodule] and [unexpected_branch] *)





Lemma split_single sep (s : string) :
  (∃ w, Py.split sep s = [w]) ↔
  Regex.all_chars (fun c => negb (Ascii.eqb c sep)) s = true.
Proof.
  induction s as [|c s IH]; simpl.
  - split; [done|]. by exists "".
  - destruct (split_cons_inv sep s) as (w & ws & Hs).
    destruct (Ascii.eqb c sep); simpl.
    + rewrite Hs. split; [|done]. by intros [w' Hw'].
    + rewrite <- IH, Hs. split; intros [w' Hw'].
      * injection Hw' as _ ->. by exists w.
      * injection Hw' as _ ->. by eexists.
Qed.

Lemma split_no_sep sep (s : string) :
  Regex.all_chars (fun c => negb (Ascii.eqb c sep)) s = true →
  Py.split sep s = [s].
Proof.
  induction s as [|c s IH]; simpl; [done|].
  intros [Hc Hs]%andb_true_iff. apply negb_true_iff in Hc. rewrite Hc.
  by rewrite (IH Hs).
Qed.

(** X16: the base label is read as [owner:branch]: the text between the
    first colon and the second one, or the end, is compared with the
    expected branch, which is [master] when the configuration names none. *)
Theorem unexpected_branch_compares_second_part (cfg : repo_config)
    (p : payload) (owner branch rest : string) :
  pr_base_label p = owner +:+ ":" +:+ branch +:+ rest →
  Regex.all_chars (fun c => negb (Ascii.eqb c ":")) owner = true →
  Regex.all_chars (fun c => negb (Ascii.eqb c ":")) branch = true →
  rest = "" ∨ (∃ r, rest = String ":" r) →
  Workflow.unexpected_branch cfg p
  = Ret (if String.eqb (default "master" (cfg_expected_branch cfg)) branch
         then None
         else Some (default "master" (cfg_expected_branch cfg), branch)).
Proof.
  intros Hlabel Howner Hbranch Hrest. unfold Workflow.unexpected_branch.
  rewrite Hlabel. rewrite app_cons_s, app_nil_l_s, split_app.
  rewrite (split_no_sep _ _ Howner).
  assert (∃ ws, Py.split ":" (branch +:+ rest) = branch :: ws) as [ws ->].
  { destruct Hrest as [->|[r ->]].
    - rewrite app_nil_r_s, (split_no_sep _ _ Hbranch). by eexists.
    - rewrite split_app, (split_no_sep _ _ Hbranch). by eexists. }
  done.
Qed.

Lemma unexpected_branch_compares_second_part_witness :
  let cfg := mk_config ∅ ∅ [] None (Some "beta") [] in
  let p := mk_payload "bob" None [] "0a1b" "rust-lang:stable:x" false in
  pr_base_label p = "rust-lang" +:+ ":" +:+ "stable" +:+ ":x" ∧
  Regex.all_chars (fun c => negb (Ascii.eqb c ":")) "rust-lang" = true ∧
  Regex.all_chars (fun c => negb (Ascii.eqb c ":")) "stable" = true ∧
  (":x" = "" ∨ (∃ r, ":x" = String ":" r)) ∧
  Workflow.unexpected_branch cfg p
  = Ret (if String.eqb (default "master" (cfg_expected_branch cfg)) "stable"
         then None
         else Some (default "master" (cfg_expected_branch cfg), "stable")).
Proof.
  intros cfg p.
  assert (pr_base_label p = "rust-lang" +:+ ":" +:+ "stable" +:+ ":x") as H1
    by reflexivity.
  assert (Regex.all_chars (fun c => negb (Ascii.eqb c ":")) "rust-lang" = true)
    as H2 by reflexivity.
  assert (Regex.all_chars (fun c => negb (Ascii.eqb c ":")) "stable" = true)
    as H3 by reflexivity.
  assert (":x" = "" ∨ (∃ r, ":x" = String ":" r)) as H4 by (right; by exists "x").
  split; [exact H1|]. split; [exact H2|]. split; [exact H3|]. split; [exact H4|].
  exact (unexpected_branch_compares_second_part cfg p _ _ _ H1 H2 H3 H4).
Defined.

(** X17: [unexpected_branch] raises [IndexError] exactly when the base
    label has no colon. *)
Theorem unexpected_branch_needs_colon (cfg : repo_config) (p : payload) :
  Workflow.unexpected_branch cfg p = Raise IndexError ↔
  Regex.all_chars (fun c => negb (Ascii.eqb c ":")) (pr_base_label p) = true.
Proof.
  rewrite <- split_single. unfold Workflow.unexpected_branch.
  destruct (Py.split ":" (pr_base_label p)) as [|w [|w' ws]] eqn:Hs.
  - destruct (split_cons_inv ":" (pr_base_label p)) as (? & ? & ?). congruence.
  - split; [by exists w|done].
  - split; [done|]. by intros [? ?].
Qed.

(** ** More on the calls of [new_pr] *)

Lemma tbind_snd {A B} (m : traced A) (k : A -> traced B) :
  (tbind m k).2 = match m.2 with
                  | Ret a => (k a).2
                  | Raise e => Raise e
                  | OutOfFuel => OutOfFuel
                  end.
Proof. unfold tbind. by destruct m as [evs [a|e|]]. Qed.

Lemma tbind_snd_ret {A B} (m : traced A) (k : A -> traced B) a :
  m.2 = Ret a → (tbind m k).2 = (k a).2.
Proof. intros H. by rewrite tbind_snd, H. Qed.

(** Every call of [new_pr], with what led to it. *)
Lemma new_pr_event_inv (h : handler) (w : world) (e : event) :
  e ∈ (Workflow.new_pr h w).1 →
  (pr_assignees (h_payload h) = [] ∧
   ((Py.truthy (find_reviewer (pr_body (h_payload h))) = false ∧
     e = Call_choose_reviewer) ∨
    (∃ r tm,
       ((Py.truthy (find_reviewer (pr_body (h_payload h))) = true ∧
         r = find_reviewer (pr_body (h_payload h))) ∨
        (Py.truthy (find_reviewer (pr_body (h_payload h))) = false ∧
         Reviewer.choose_reviewer (repo_config_of h) (global_groups_of h)
           (w_diff w) (pr_author (h_payload h)) (w_rnd w) = Ret r)) ∧
       Mention.get_to_mention (repo_config_of h) (w_diff w) = Ret tm ∧
       (e = Set_assignee r ∨
        (∃ b, Commands.run_commands tm (integration_user h)
                (pr_head_sha (h_payload h)) = Some b ∧
              e = Post_mentions b) ∨
        (Workflow.is_new_contributor (h_payload h) (w_search w) = Ret true ∧
         e = Post_welcome (Workflow.welcome_msg (repo_config_of h) r)) ∨
        (Py.truthy (find_reviewer (pr_body (h_payload h))) = false ∧
         Workflow.is_new_contributor (h_payload h) (w_search w) = Ret false ∧
         e = Post_review (Workflow.review_msg r (pr_author (h_payload h)))))))) ∨
  (∃ s b, Workflow.unexpected_branch (repo_config_of h) (h_payload h) = Ret s ∧
          e = Post_warnings b) ∨
  (e = Add_labels (cfg_new_pr_labels (repo_config_of h)) ∧
   cfg_new_pr_labels (repo_config_of h) ≠ [] ∧
   (Workflow.new_pr h w).2 = Ret tt).
Proof.
  unfold Workflow.new_pr. intros [H|(? & HA & H)]%elem_tbind.
  - left. destruct (pr_assignees (h_payload h)); [|by apply elem_tret in H].
    split; [done|].
    destruct (Py.truthy (find_reviewer (pr_body (h_payload h)))) eqn:Hfr;
      cbn [negb] in H.
    + right. rewrite tbind_tret in H. cbn [fst snd] in H.
      apply elem_tbind in H as [H|(tm & Hm & H)]; [by apply elem_lift in H|].
      exists (find_reviewer (pr_body (h_payload h))), tm.
      split; [by left|]. split; [done|].
      apply elem_tbind in H as [H|(? & _ & H)].
      { apply set_assignee_events in H as [->|(b & Hb & ->)]; [by left|].
        right. left. by exists b. }
      apply elem_tbind in H as [H|(is_new & Hn & H)]; [by apply elem_lift in H|].
      destruct is_new; [|by apply elem_tret in H].
      apply elem_emit in H as ->. right. right. by left.
    + apply elem_tbind in H as [H|(chosen & Hc & H)].
      { left. split; [done|].
        apply elem_tbind in H as [H|(? & _ & H)]; [by apply elem_emit in H|].
        apply elem_tbind in H as [H|(? & _ & H)]; [by apply elem_lift in H|].
        by apply elem_tret in H. }
      right.
      rewrite !tbind_snd in Hc. cbn [emit lift snd] in Hc.
      destruct (Reviewer.choose_reviewer _ _ _ _ _) as [r| |] eqn:Hch;
        [|done|done].
      cbn [tret snd] in Hc. injection Hc as <-. cbn [fst snd] in H.
      apply elem_tbind in H as [H|(tm & Hm & H)]; [by apply elem_lift in H|].
      exists r, tm. split; [by right|]. split; [done|].
      apply elem_tbind in H as [H|(? & _ & H)].
      { apply set_assignee_events in H as [->|(b & Hb & ->)]; [by left|].
        right. left. by exists b. }
      apply elem_tbind in H as [H|(is_new & Hn & H)]; [by apply elem_lift in H|].
      destruct is_new; apply elem_emit in H as ->; right; right; [by left|by right].
  - right. apply elem_tbind in H as [H|(? & HW & H)].
    + left. unfold Workflow.post_warnings in H.
      apply elem_tbind in H as [H|(s & Hs & H)]; [by apply elem_lift in H|].
      exists s. destruct (if Workflow.modifies_submodule _ then _ else _).
      * by apply elem_tret in H.
      * apply elem_emit in H. by eexists.
    + right. destruct (cfg_new_pr_labels (repo_config_of h)) as [|l ls] eqn:Hl;
        [by apply elem_tret in H|].
      apply elem_emit in H. split; [done|]. split; [done|].
      erewrite tbind_snd_ret by exact HA. erewrite tbind_snd_ret by exact HW.
      done.
Qed.

Lemma new_pr_assign_reached (h : handler) (w : world) (r : option string) :
  pr_assignees (h_payload h) = [] →
  (Py.truthy (find_reviewer (pr_body (h_payload h))) = true ∧
   r = find_reviewer (pr_body (h_payload h))) ∨
  (Py.truthy (find_reviewer (pr_body (h_payload h))) = false ∧
   Reviewer.choose_reviewer (repo_config_of h) (global_groups_of h)
     (w_diff w) (pr_author (h_payload h)) (w_rnd w) = Ret r) →
  Set_assignee r ∈ (Workflow.new_pr h w).1.
Proof.
  intros Hass Hr. unfold Workflow.new_pr. rewrite Hass.
  apply elem_tbind. left.
  destruct (get_to_mention_total (repo_config_of h) (w_diff w)) as [tm Htm].
  destruct Hr as [[Hfr ->]|[Hfr Hch]]; rewrite Hfr; cbn [negb].
  - rewrite tbind_tret. cbn [fst snd]. rewrite Htm, tbind_lift_ret.
    apply elem_tbind. left. unfold Workflow.set_assignee.
    apply elem_tbind. left. by apply elem_emit.
  - apply elem_tbind. right. exists (r, true). split.
    { rewrite !tbind_snd. cbn [emit lift snd]. by rewrite Hch. }
    cbn [fst snd]. rewrite Htm, tbind_lift_ret.
    apply elem_tbind. left. unfold Workflow.set_assignee.
    apply elem_tbind. left. by apply elem_emit.
Qed.

Lemma new_pr_choose_called (h : handler) (w : world) :
  pr_assignees (h_payload h) = [] →
  Py.truthy (find_reviewer (pr_body (h_payload h))) = false →
  Call_choose_reviewer ∈ (Workflow.new_pr h w).1.
Proof.
  intros Hass Hfr. unfold Workflow.new_pr. rewrite Hass, Hfr. cbn [negb].
  apply elem_tbind. left. apply elem_tbind. left. apply elem_tbind. left.
  by apply elem_emit.
Qed.

Lemma choose_reviewer_in_time (cfg : repo_config)
    (global_groups : list (string * list string)) (diff exclude : string)
    (rnd : nat) :
  Reviewer.choose_reviewer cfg global_groups diff exclude rnd ≠ OutOfFuel.
Proof.
  unfold Reviewer.choose_reviewer.
  destruct (Reviewer.merge_groups _ _) as [gs|e|] eqn:Hm; simpl;
    [|done|by apply merge_in_time in Hm].
  destruct (most_changed_total (cfg_dirs cfg) diff) as [mc ->]. simpl.
  destruct (Reviewer.pool _ _ _) as [kp|e|] eqn:Hp; simpl; [|done|].
  - destruct (expand_aliases_outcome gs kp.1 kp.2)
      as [(out & -> & _)|(q & Hq & ->)]; simpl; [|done].
    by destruct (if Py.mem exclude out then _ else _).
  - unfold Reviewer.pool in Hp.
    destruct (gs !! "all") as [all|]; [|done].
    destruct (match mc with Some _ => _ | None => _ end); [|done].
    by destruct (gs !! "core").
Qed.

Lemma unexpected_branch_outcome (cfg : repo_config) (p : payload) :
  (Regex.all_chars (fun c => negb (Ascii.eqb c ":")) (pr_base_label p) = true ∧
   Workflow.unexpected_branch cfg p = Raise IndexError) ∨
  (Regex.all_chars (fun c => negb (Ascii.eqb c ":")) (pr_base_label p) = false ∧
   ∃ s, Workflow.unexpected_branch cfg p = Ret s).
Proof.
  pose proof (split_single ":" (pr_base_label p)) as Hsingle.
  unfold Workflow.unexpected_branch.
  destruct (Py.split ":" (pr_base_label p)) as [|x [|y ws]] eqn:Hs.
  - destruct (split_cons_inv ":" (pr_base_label p)) as (? & ? & ?). congruence.
  - left. split; [|done]. apply Hsingle. by exists x.
  - right. split; [|by eexists].
    apply not_true_is_false. intros Hall. apply Hsingle in Hall as [? ?]. done.
Qed.

(** The outcome of [new_pr], without its calls. *)
Lemma new_pr_snd (h : handler) (w : world) :
  (Workflow.new_pr h w).2
  = let* _ :=
      match pr_assignees (h_payload h) with
      | [] =>
          let* _ :=
            (if Py.truthy (find_reviewer (pr_body (h_payload h)))
             then Ret None
             else Reviewer.choose_reviewer (repo_config_of h)
                    (global_groups_of h) (w_diff w) (pr_author (h_payload h))
                    (w_rnd w)) in
          let* _ := Workflow.is_new_contributor (h_payload h) (w_search w) in
          Ret tt
      | _ :: _ => Ret tt
      end in
    let* _ := Workflow.unexpected_branch (repo_config_of h) (h_payload h) in
    Ret tt.
Proof.
  assert (∀ o : outcome unit,
            (tbind (lift o)
               (fun _ => let! _ := Workflow.post_warnings (repo_config_of h)
                                     (h_payload h) (w_diff w) in
                         match cfg_new_pr_labels (repo_config_of h) with
                         | [] => tret tt
                         | _ :: _ => emit (Add_labels (cfg_new_pr_labels (repo_config_of h)))
                         end)).2
            = let* _ := o in
              let* _ := Workflow.unexpected_branch (repo_config_of h) (h_payload h) in
              Ret tt) as Htail.
  { intros [[]|e|]; [|done|done]. rewrite !tbind_snd. cbn [snd bind].
    unfold Workflow.post_warnings. rewrite tbind_snd. cbn [lift snd].
    destruct (Workflow.unexpected_branch _ _) as [s|e|]; [|done|done].
    cbn [bind].
    destruct (if Workflow.modifies_submodule _ then _ else _); cbn [tret emit snd];
      by destruct (cfg_new_pr_labels _). }
  unfold Workflow.new_pr. rewrite tbind_snd.
  destruct (pr_assignees (h_payload h)) as [|a l].
  2:{ cbn [tret snd bind]. specialize (Htail (Ret tt)).
      rewrite tbind_snd in Htail. exact Htail. }
  destruct (get_to_mention_total (repo_config_of h) (w_diff w)) as [tm Htm].
  assert (∀ (r : option string) (post_msg : bool),
            (let! to_mention := lift (Mention.get_to_mention (repo_config_of h) (w_diff w)) in
             let! _ := Workflow.set_assignee r (integration_user h)
                         (pr_head_sha (h_payload h)) to_mention in
             let! is_new := lift (Workflow.is_new_contributor (h_payload h) (w_search w)) in
             if is_new
             then emit (Post_welcome (Workflow.welcome_msg (repo_config_of h) r))
             else if post_msg
                  then emit (Post_review (Workflow.review_msg r (pr_author (h_payload h))))
                  else tret tt).2
            = let* _ := Workflow.is_new_contributor (h_payload h) (w_search w) in
              Ret tt) as Hrest.
  { intros r post_msg. rewrite Htm, tbind_lift_ret, tbind_snd.
    unfold Workflow.set_assignee at 1. rewrite tbind_snd. cbn [emit snd].
    destruct (Commands.run_commands _ _ _); cbn [emit tret snd];
      rewrite tbind_snd; cbn [lift snd];
      (destruct (Workflow.is_new_contributor _ _) as [[]|e|]; [| |done|done]);
      cbn [bind]; try done; by destruct post_msg. }
  destruct (Py.truthy (find_reviewer (pr_body (h_payload h)))); cbn [negb].
  - rewrite tbind_tret. cbn [fst snd bind].
    pose proof (Hrest (find_reviewer (pr_body (h_payload h))) false) as Hr.
    cbn [fst snd bind] in Hr. rewrite Hr.
    specialize (Htail (let* _ := Workflow.is_new_contributor (h_payload h) (w_search w) in Ret tt)).
    rewrite tbind_snd in Htail. cbn [lift snd] in Htail.
    exact Htail.
  - rewrite tbind_snd. rewrite !tbind_snd. cbn [emit lift snd].
    destruct (Reviewer.choose_reviewer _ _ _ _ _) as [r|e|]; cbn [bind]; [|done|done].
    cbn [tret fst snd].
    pose proof (Hrest r true) as Hr. cbn [fst snd bind] in Hr. rewrite Hr.
    specialize (Htail (let* _ := Workflow.is_new_contributor (h_payload h) (w_search w) in Ret tt)).
    rewrite !tbind_snd in Htail. cbn [lift snd] in Htail.
    exact Htail.
Qed.

Lemma find_reviewer_truthy (msg : option string) :
  Py.truthy (find_reviewer msg) = false ↔ find_reviewer msg = None.
Proof.
  split; [|by intros ->].
  destruct (find_reviewer msg) as [name|] eqn:Hfind; [|done].
  destruct msg as [body|]; [|done]. simpl in Hfind. unfold Regex.search in Hfind.
  destruct (search_from_sound _ _ _ Hfind) as (pre & suf & _ & Hmatch & _).
  apply match_here_nonempty in Hmatch. simpl. congruence.
Qed.

Lemma is_new_contributor_true (p : payload) (reply : search_reply) :
  Workflow.is_new_contributor p reply = Ret true ↔
  repo_fork p = false ∧ (reply = Found 0 ∨ reply = Failed 422).
Proof.
  unfold Workflow.is_new_contributor. split.
  - destruct (repo_fork p); [done|]. destruct reply as [n|code].
    + intros [= Hn]. apply Nat.eqb_eq in Hn as ->. split; [done|by left].
    + destruct (code =? 422) eqn:Hc; [|done].
      apply Nat.eqb_eq in Hc as ->. split; [done|by right].
  - by intros [-> [->| ->]].
Qed.

(** X18: a pull request that already has an assignee is left to that
    assignee: [new_pr] chooses nobody, assigns nobody and posts neither
    mentions nor a welcome nor a review notice; it only checks for warnings
    and adds the labels, and neither the commit search nor the random draw
    has any influence. *)
Theorem existing_assignee_is_kept (h : handler) (w : world) :
  pr_assignees (h_payload h) ≠ [] →
  (∀ e, e ∈ (Workflow.new_pr h w).1 →
        (∃ b, e = Post_warnings b) ∨
        e = Add_labels (cfg_new_pr_labels (repo_config_of h))) ∧
  (∀ search rnd,
     Workflow.new_pr h (mk_world (w_diff w) search rnd) = Workflow.new_pr h w).
Proof.
  intros Hass. split.
  - intros e [[Hnil _]|[(s & b & _ & ->)|(-> & _)]]%new_pr_event_inv;
      [done|left; by exists b|by right].
  - intros search rnd. unfold Workflow.new_pr.
    by destruct (pr_assignees (h_payload h)).
Qed.

Lemma existing_assignee_is_kept_witness :
  let h := mk_handler
    (mk_payload "bob" None ["dave"] "0a1b" "rust-lang:beta" false)
    "bot" (mk_config ∅ {[ "all" := ["@erin"] ]} [] None None ["S-waiting"]) [] in
  let w := mk_world "" (Found 0) 0 in
  pr_assignees (h_payload h) ≠ [] ∧
  (∀ e, e ∈ (Workflow.new_pr h w).1 →
        (∃ b, e = Post_warnings b) ∨
        e = Add_labels (cfg_new_pr_labels (repo_config_of h))) ∧
  (∀ search rnd,
     Workflow.new_pr h (mk_world (w_diff w) search rnd) = Workflow.new_pr h w).
Proof.
  intros h w.
  assert (pr_assignees (h_payload h) ≠ []) as H by done.
  split; [exact H|]. exact (existing_assignee_is_kept h w H).
Defined.

(** X19: a welcome comment is posted only for a repository that is no fork
    and an author whose commit search finds nothing or answers 422; it
    greets with the reviewer that was assigned, and no review notice is
    posted beside it. *)
Theorem welcome_excludes_review_notice (h : handler) (w : world) (b : string) :
  Post_welcome b ∈ (Workflow.new_pr h w).1 →
  pr_assignees (h_payload h) = [] ∧
  repo_fork (h_payload h) = false ∧
  (w_search w = Found 0 ∨ w_search w = Failed 422) ∧
  (∃ r, b = Workflow.welcome_msg (repo_config_of h) r ∧
        Set_assignee r ∈ (Workflow.new_pr h w).1) ∧
  (∀ b', Post_review b' ∉ (Workflow.new_pr h w).1).
Proof.
  intros [[Hass Hev]|[(s & b' & _ & ?)|(? & _)]]%new_pr_event_inv;
    [|done|done].
  destruct Hev as [[_ ?]|(r & tm & Hr & Htm & Hev)]; [done|].
  destruct Hev as [?|[(? & _ & ?)|[[Hnew [= ->]]|(_ & _ & ?)]]]; try done.
  split; [done|].
  pose proof Hnew as [Hfork Hsearch]%is_new_contributor_true.
  split; [done|]. split; [done|]. split.
  - exists r. split; [done|]. by apply new_pr_assign_reached.
  - intros b' [[_ Hev]|[(s & b'' & _ & ?)|(? & _)]]%new_pr_event_inv;
      [|done|done].
    destruct Hev as [[_ ?]|(r' & tm' & _ & _ & Hev)]; [done|].
    destruct Hev as [?|[(? & _ & ?)|[[_ ?]|(_ & Hold & _)]]]; try done.
    congruence.
Qed.

Lemma welcome_excludes_review_notice_witness :
  let h := mk_handler
    (mk_payload "bob" None [] "0a1b" "rust-lang:master" false)
    "bot" (mk_config ∅ {[ "all" := ["@erin"] ]} [] None None []) [] in
  let w := mk_world "" (Failed 422) 0 in
  let b := Workflow.welcome_msg (repo_config_of h) (Some "erin") in
  Post_welcome b ∈ (Workflow.new_pr h w).1 ∧
  pr_assignees (h_payload h) = [] ∧
  repo_fork (h_payload h) = false ∧
  (w_search w = Found 0 ∨ w_search w = Failed 422) ∧
  (∃ r, b = Workflow.welcome_msg (repo_config_of h) r ∧
        Set_assignee r ∈ (Workflow.new_pr h w).1) ∧
  (∀ b', Post_review b' ∉ (Workflow.new_pr h w).1).
Proof.
  intros h w b.
  assert (Post_welcome b ∈ (Workflow.new_pr h w).1) as H.
  { vm_compute. right. right. left. }
  split; [exact H|]. exact (welcome_excludes_review_notice h w b H).
Defined.

(** X20: a review notice is posted only when nobody was requested in the
    description; it names the reviewer that [choose_reviewer] returned, who
    is also the one assigned, and no welcome comment is posted beside
    it. *)
Theorem review_notice_names_assigned_reviewer (h : handler) (w : world)
    (b : string) :
  Post_review b ∈ (Workflow.new_pr h w).1 →
  find_reviewer (pr_body (h_payload h)) = None ∧
  (∃ r, Reviewer.choose_reviewer (repo_config_of h) (global_groups_of h)
          (w_diff w) (pr_author (h_payload h)) (w_rnd w) = Ret r ∧
        b = Workflow.review_msg r (pr_author (h_payload h)) ∧
        Set_assignee r ∈ (Workflow.new_pr h w).1) ∧
  Call_choose_reviewer ∈ (Workflow.new_pr h w).1 ∧
  (∀ b', Post_welcome b' ∉ (Workflow.new_pr h w).1).
Proof.
  intros [[Hass Hev]|[(s & b' & _ & ?)|(? & _)]]%new_pr_event_inv;
    [|done|done].
  destruct Hev as [[_ ?]|(r & tm & Hr & Htm & Hev)]; [done|].
  destruct Hev as [?|[(? & _ & ?)|[[_ ?]|(Hfr & Hold & [= ->])]]]; try done.
  destruct Hr as [[Hfr' _]|[_ Hch]]; [congruence|].
  split; [by apply find_reviewer_truthy|]. split; [|split].
  - exists r. split; [done|]. split; [done|].
    apply new_pr_assign_reached; [done|by right].
  - by apply new_pr_choose_called.
  - intros b' [[_ Hev]|[(s & b'' & _ & ?)|(? & _)]]%new_pr_event_inv;
      [|done|done].
    destruct Hev as [[_ ?]|(r' & tm' & _ & _ & Hev)]; [done|].
    destruct Hev as [?|[(? & _ & ?)|[[Hnew _]|(_ & _ & ?)]]]; try done.
    congruence.
Qed.

Lemma review_notice_names_assigned_reviewer_witness :
  let h := mk_handler
    (mk_payload "bob" (Some "Fixes a typo.") [] "0a1b" "rust-lang:master" true)
    "bot" (mk_config ∅ {[ "all" := ["@erin"] ]} [] None None []) [] in
  let w := mk_world "" (Found 0) 0 in
  let b := Workflow.review_msg (Some "erin") "bob" in
  Post_review b ∈ (Workflow.new_pr h w).1 ∧
  find_reviewer (pr_body (h_payload h)) = None ∧
  (∃ r, Reviewer.choose_reviewer (repo_config_of h) (global_groups_of h)
          (w_diff w) (pr_author (h_payload h)) (w_rnd w) = Ret r ∧
        b = Workflow.review_msg r (pr_author (h_payload h)) ∧
        Set_assignee r ∈ (Workflow.new_pr h w).1) ∧
  Call_choose_reviewer ∈ (Workflow.new_pr h w).1 ∧
  (∀ b', Post_welcome b' ∉ (Workflow.new_pr h w).1).
Proof.
  intros h w b.
  assert (Post_review b ∈ (Workflow.new_pr h w).1) as H.
  { vm_compute. right. right. left. }
  split; [exact H|]. exact (review_notice_names_assigned_reviewer h w b H).
Defined.


(** X21: when nobody is requested and [choose_reviewer] raises, [new_pr]
    stops with that exception right after the call: nobody is assigned and
    nothing is posted or labelled. *)
Theorem choose_reviewer_failure_stops_new_pr (h : handler) (w : world)
    (e : exn) :
  pr_assignees (h_payload h) = [] →
  find_reviewer (pr_body (h_payload h)) = None →
  Reviewer.choose_reviewer (repo_config_of h) (global_groups_of h) (w_diff w)
    (pr_author (h_payload h)) (w_rnd w) = Raise e →
  Workflow.new_pr h w = ([Call_choose_reviewer], Raise e).
Proof.
  intros Hass Hfind Hch. unfold Workflow.new_pr.
  rewrite Hass, Hfind. cbn [Py.truthy negb].
  rewrite Hch. unfold tbind. cbn [emit lift fst snd app].
  reflexivity.
Qed.

Lemma choose_reviewer_failure_stops_new_pr_witness :
  let h := mk_handler
    (mk_payload "bob" (Some "Fixes a typo.") [] "0a1b" "rust-lang:beta" false)
    "bot"
    (mk_config ∅ {[ "all" := ["@erin"] ]}
       [("src/", mk_mention None None ["dave"])] None None ["S-waiting"])
    [("all", ["@frank"])] in
  let w := mk_world "diff --git a/src/x.rs b/src/x.rs
+Subproject commit 0" (Found 0) 0 in
  let e := AssertionError "group all overlaps with _global.json" in
  pr_assignees (h_payload h) = [] ∧
  find_reviewer (pr_body (h_payload h)) = None ∧
  Reviewer.choose_reviewer (repo_config_of h) (global_groups_of h) (w_diff w)
    (pr_author (h_payload h)) (w_rnd w) = Raise e ∧
  Workflow.new_pr h w = ([Call_choose_reviewer], Raise e).
Proof.
  intros h w e.
  assert (pr_assignees (h_payload h) = []) as H1 by reflexivity.
  assert (find_reviewer (pr_body (h_payload h)) = None) as H2 by reflexivity.
  assert (Reviewer.choose_reviewer (repo_config_of h) (global_groups_of h)
            (w_diff w) (pr_author (h_payload h)) (w_rnd w) = Raise e) as H3
    by (by vm_compute).
  split; [exact H1|]. split; [exact H2|]. split; [exact H3|].
  exact (choose_reviewer_failure_stops_new_pr h w e H1 H2 H3).
Defined.


(** X23: a base label without a colon makes [new_pr] fail: it ends with an
    exception, at the latest with the [IndexError] of [unexpected_branch],
    after the reviewer has been assigned; no warning is posted and no label
    is added. *)
Theorem base_label_without_colon_fails (h : handler) (w : world) :
  Regex.all_chars (fun c => negb (Ascii.eqb c ":"))
    (pr_base_label (h_payload h)) = true →
  (∃ e, (Workflow.new_pr h w).2 = Raise e) ∧
  (pr_assignees (h_payload h) ≠ [] →
   Workflow.new_pr h w = ([], Raise IndexError)) ∧
  (∀ ev, ev ∈ (Workflow.new_pr h w).1 →
         (∀ b, ev ≠ Post_warnings b) ∧ (∀ l, ev ≠ Add_labels l)).
Proof.
  intros Hlabel.
  assert (Workflow.unexpected_branch (repo_config_of h) (h_payload h)
          = Raise IndexError) as Hub.
  { destruct (unexpected_branch_outcome (repo_config_of h) (h_payload h))
      as [[_ ?]|[? _]]; [done|congruence]. }
  assert (∃ e, (Workflow.new_pr h w).2 = Raise e) as Hraise.
  { rewrite new_pr_snd, Hub.
    destruct (pr_assignees (h_payload h)); [|by eexists].
    destruct (Py.truthy _); cbn [bind].
    - destruct (Workflow.is_new_contributor _ _) as [?|?|] eqn:Hn;
        cbn [bind]; [by eexists|by eexists|].
      unfold Workflow.is_new_contributor in Hn.
      destruct (repo_fork _); [done|]. destruct (w_search w); [done|].
      by destruct (_ =? _).
    - destruct (Reviewer.choose_reviewer _ _ _ _ _) as [?|?|] eqn:Hch;
        cbn [bind]; [|by eexists|by apply choose_reviewer_in_time in Hch].
      destruct (Workflow.is_new_contributor _ _) as [?|?|] eqn:Hn;
        cbn [bind]; [by eexists|by eexists|].
      unfold Workflow.is_new_contributor in Hn.
      destruct (repo_fork _); [done|]. destruct (w_search w); [done|].
      by destruct (_ =? _). }
  split; [done|]. split.
  - intros Hass. unfold Workflow.new_pr, Workflow.post_warnings.
    rewrite Hub. by destruct (pr_assignees (h_payload h)).
  - intros ev [[_ Hev]|[(s & b & Hs & _)|(_ & _ & Hret)]]%new_pr_event_inv.
    + destruct Hev as [[_ ->]|(r & tm & _ & _ & Hev)]; [done|].
      by destruct Hev as [->|[(? & _ & ->)|[[_ ->]|(_ & _ & ->)]]].
    + congruence.
    + destruct Hraise as [e He]. congruence.
Qed.

Lemma base_label_without_colon_fails_witness :
  let h := mk_handler
    (mk_payload "bob" (Some "r? @carol") [] "0a1b" "master" false)
    "bot" (mk_config ∅ {[ "all" := ["@erin"] ]} [] None None ["S-waiting"]) [] in
  let w := mk_world "" (Found 3) 0 in
  Regex.all_chars (fun c => negb (Ascii.eqb c ":"))
    (pr_base_label (h_payload h)) = true ∧
  (∃ e, (Workflow.new_pr h w).2 = Raise e) ∧
  (pr_assignees (h_payload h) ≠ [] →
   Workflow.new_pr h w = ([], Raise IndexError)) ∧
  (∀ ev, ev ∈ (Workflow.new_pr h w).1 →
         (∀ b, ev ≠ Post_warnings b) ∧ (∀ l, ev ≠ Add_labels l)).
Proof.
  intros h w.
  assert (Regex.all_chars (fun c => negb (Ascii.eqb c ":"))
            (pr_base_label (h_payload h)) = true) as H by reflexivity.
  split; [exact H|]. exact (base_label_without_colon_fails h w H).
Defined.


(** X25: [post_warnings] posts nothing when the base branch is the
    expected one and the diff touches no submodule; otherwise it posts one
    comment, which holds the branch warning when the branch differs and
    the submodule warning when the diff has the marker. *)
Theorem warning_comment_lists_what_it_found (cfg : repo_config) (p : payload)
    (diff : string) (s : option (string * string)) :
  Workflow.unexpected_branch cfg p = Ret s →
  (s = None ∧ Workflow.modifies_submodule diff = false ∧
   Workflow.post_warnings cfg p diff = ([], Ret tt)) ∨
  (∃ b, Workflow.post_warnings cfg p diff = ([Post_warnings b], Ret tt) ∧
        (s ≠ None ∨ Workflow.modifies_submodule diff = true) ∧
        (∀ x, s = Some x →
              Commands.contains (Workflow.surprise_branch_warning x) b) ∧
        (Workflow.modifies_submodule diff = true →
         Commands.contains Workflow.submodule_warning_msg b)).
Proof.
  intros Hub. unfold Workflow.post_warnings. rewrite Hub, tbind_lift_ret.
  assert (∀ x (l : list string), x ∈ l →
            Commands.contains x
              (Workflow.warning_summary
                 (Py.join Commands.nl (map (fun y => "* " +:+ y) l)))) as Hin.
  { intros x l Hx. unfold Workflow.warning_summary.
    apply contains_app_r, contains_app_r.
    apply (contains_trans _ ("* " +:+ x)); [apply contains_app_r, contains_refl|].
    apply contains_join, list_elem_of_fmap. by exists x. }
  destruct s as [x|]; destruct (Workflow.modifies_submodule diff); cbn [app].
  - right. eexists. split; [done|]. split; [by right|]. split.
    + intros y [= <-]. apply Hin. by left.
    + intros _. apply Hin. right. by left.
  - right. eexists. split; [done|]. split; [by left|]. split; [|done].
    intros y [= <-]. apply Hin. by left.
  - right. eexists. split; [done|]. split; [by right|]. split; [done|].
    intros _. apply Hin. by left.
  - by left.
Qed.

Lemma warning_comment_lists_what_it_found_witness :
  let cfg := mk_config ∅ ∅ [] None None [] in
  let p := mk_payload "bob" None [] "0a1b" "rust-lang:beta" false in
  let diff := "diff --git a/src/llvm b/src/llvm
-Subproject commit 1
+Subproject commit 2
" in
  let s := Some ("master", "beta") in
  Workflow.unexpected_branch cfg p = Ret s ∧
  ((s = None ∧ Workflow.modifies_submodule diff = false ∧
    Workflow.post_warnings cfg p diff = ([], Ret tt)) ∨
   (∃ b, Workflow.post_warnings cfg p diff = ([Post_warnings b], Ret tt) ∧
         (s ≠ None ∨ Workflow.modifies_submodule diff = true) ∧
         (∀ x, s = Some x →
               Commands.contains (Workflow.surprise_branch_warning x) b) ∧
         (Workflow.modifies_submodule diff = true →
          Commands.contains Workflow.submodule_warning_msg b))).
Proof.
  intros cfg p diff s.
  assert (Workflow.unexpected_branch cfg p = Ret s) as H by reflexivity.
  split; [exact H|]. exact (warning_comment_lists_what_it_found cfg p diff s H).
Defined.

(** ** The dispatch of [run] *)

(** X26: [run] acts on one kind of event only: calls are made exactly for
    a [pull_request] event whose action is [opened], and they are the calls
    of [new_pr]; the answer is [OK] exactly when that [new_pr] came to its
    end without an exception. *)
Theorem run_acts_on_opened_pull_requests (h : handler) (w : world)
    (e : event) (action event : string) :
  (e ∈ (run h action event w).1 ↔
   event = "pull_request" ∧ action = "opened" ∧ e ∈ (Workflow.new_pr h w).1) ∧
  ((run h action event w).2 = Ret "OK
" ↔
   event = "pull_request" ∧ action = "opened" ∧
   (Workflow.new_pr h w).2 = Ret tt).
Proof.
  unfold run.
  destruct (String.eqb_spec event "ping") as [->|Hping].
  { split; split.
    - by intros []%elem_tret.
    - by intros [? _].
    - by intros [=].
    - by intros [? _]. }
  destruct (String.eqb_spec event "pull_request") as [->|Hpr]; cbn [andb].
  2:{ split; split.
      - by intros []%elem_tret.
      - by intros [? _].
      - by intros [=].
      - by intros [? _]. }
  destruct (String.eqb_spec action "opened") as [->|Hact].
  2:{ split; split.
      - by intros []%elem_tret.
      - by intros (_ & ? & _).
      - by intros [=].
      - by intros (_ & ? & _). }
  split.
  - rewrite elem_tbind. split.
    + intros [?|(a & _ & []%elem_tret)]. done.
    + intros (_ & _ & ?). by left.
  - rewrite tbind_snd. split.
    + destruct (Workflow.new_pr h w).2 as [[]| |]; done.
    + by intros (_ & _ & ->).
Qed.
